(** * Form validation engine (js/validation.js): model and properties

    A shallow embedding of the [FormValidator] class: the built-in rules
    registered by [registerDefaultValidators], the field/form validation
    passes, the error presenter and the submission store. *)

(** The input masks (js/masks.js), the template engine (js/templates.js)
    and the page switcher (js/spa.js) follow, each in a module of its
    own, with their properties at the end. *)

From Stdlib Require Import ZArith NArith Lia Ascii DecimalString.
From stdpp Require Import strings gmap list.

#[local] Set Warnings "-clear-no-such-hyp".

(** ** JavaScript values used by the validators *)

Module JS.

Local Open Scope Z_scope.

(** A JavaScript string is a sequence of UTF-16 code units. *)
Abbreviation char := N.
Abbreviation jsstring := (list N).

(** Source text is UTF-8; [js] turns a literal of this file into the code
    units the same literal has in the JavaScript source. *)
Fixpoint utf16_of_utf8 (bs : list N) : list N :=
  match bs with
  | [] => []
  | b0 :: r0 =>
    if (b0 <? 128)%N then b0 :: utf16_of_utf8 r0
    else if (b0 <? 224)%N then
      match r0 with
      | b1 :: r1 => ((b0 `mod` 32) * 64 + b1 `mod` 64)%N :: utf16_of_utf8 r1
      | _ => [65533%N]
      end
    else if (b0 <? 240)%N then
      match r0 with
      | b1 :: b2 :: r2 =>
        ((b0 `mod` 16) * 4096 + (b1 `mod` 64) * 64 + b2 `mod` 64)%N
          :: utf16_of_utf8 r2
      | _ => [65533%N]
      end
    else
      match r0 with
      | b1 :: b2 :: b3 :: r3 =>
        let cp := ((b0 `mod` 8) * 262144 + (b1 `mod` 64) * 4096
                   + (b2 `mod` 64) * 64 + b3 `mod` 64 - 65536)%N in
        (55296 + cp `div` 1024)%N :: (56320 + cp `mod` 1024)%N
          :: utf16_of_utf8 r3
      | _ => [65533%N]
      end
  end.

Fixpoint bytes_of_string (s : string) : list N :=
  match s with
  | EmptyString => []
  | String a s' => N_of_ascii a :: bytes_of_string s'
  end.

Definition js (s : string) : jsstring := utf16_of_utf8 (bytes_of_string s).

(** Truthiness of a string: only the empty string is falsy. *)
Definition truthy (s : jsstring) : bool :=
  match s with [] => false | _ => true end.

(** [\d] and its complement [\D]. *)
Definition is_digit (c : char) : bool := ((48 <=? c) && (c <=? 57))%N.

(** [\s], which is also the set removed by [String.prototype.trim]:
    WhiteSpace and LineTerminator code points. *)
Definition is_space (c : char) : bool :=
  ((9 <=? c) && (c <=? 13) || (c =? 32) || (c =? 160) || (c =? 5760)
   || (8192 <=? c) && (c <=? 8202) || (c =? 8232) || (c =? 8233)
   || (c =? 8239) || (c =? 8287) || (c =? 12288) || (c =? 65279))%N.

Fixpoint trimStart (s : jsstring) : jsstring :=
  match s with
  | c :: s' => if is_space c then trimStart s' else s
  | [] => []
  end.

Definition trim (s : jsstring) : jsstring :=
  rev (trimStart (rev (trimStart s))).

(** [value.replace(/\D/g, '')] *)
Definition strip_non_digits (s : jsstring) : jsstring := filter (λ c, is_digit c = true) s.

(** [s.substring(a, b)]: both indices are clamped to [0, length] and
    swapped when out of order. *)
Definition substring (s : jsstring) (a b : Z) : jsstring :=
  let len := Z.of_nat (length s) in
  let a' := Z.min (Z.max a 0) len in
  let b' := Z.min (Z.max b 0) len in
  let lo := Z.min a' b' in
  let hi := Z.max a' b' in
  take (Z.to_nat (hi - lo)) (drop (Z.to_nat lo) s).

(** [tagName.toLowerCase()] on the ASCII letters; other code units are
    kept (tag names and type keywords are ASCII). *)
Definition toLowerCase (s : jsstring) : jsstring :=
  map (λ c, if ((65 <=? c) && (c <=? 90))%N then (c + 32)%N else c) s.

(** *** Numbers

    The numbers of this program are integers or [NaN]; [None] is [NaN].
    Every operation with a [NaN] operand is [NaN], every comparison with
    one is false, and [!==] with one is true. *)
Definition num := option Z.
Definition NaN : num := None.

Definition add (a b : num) : num :=
  match a, b with Some x, Some y => Some (x + y)%Z | _, _ => NaN end.
Definition sub (a b : num) : num :=
  match a, b with Some x, Some y => Some (x - y)%Z | _, _ => NaN end.
Definition mul (a b : num) : num :=
  match a, b with Some x, Some y => Some (x * y)%Z | _, _ => NaN end.
(** [a % b]: the sign follows the dividend; [x % 0] is [NaN]. *)
Definition rem (a b : num) : num :=
  match a, b with
  | Some x, Some y => if (y =? 0)%Z then NaN else Some (Z.rem x y)
  | _, _ => NaN
  end.
Definition lt (a b : num) : bool :=
  match a, b with Some x, Some y => (x <? y)%Z | _, _ => false end.
Definition gt (a b : num) : bool := lt b a.
Definition strict_eq (a b : num) : bool :=
  match a, b with Some x, Some y => (x =? y)%Z | _, _ => false end.
Definition strict_ne (a b : num) : bool := negb (strict_eq a b).

(** *** [parseInt(s)] without a radix *)

Definition digit_value (radix : Z) (c : char) : option Z :=
  let v :=
    if is_digit c then Z.of_N c - 48
    else if ((97 <=? c) && (c <=? 122))%N then Z.of_N c - 87
    else if ((65 <=? c) && (c <=? 90))%N then Z.of_N c - 55
    else 36 in
  if v <? radix then Some v else None.

(** The longest prefix of digits of the radix, accumulated left to right;
    [None] when there is no digit at all. *)
Fixpoint parse_digits (radix : Z) (acc : option Z) (s : jsstring) : option Z :=
  match s with
  | c :: s' =>
    match digit_value radix c with
    | Some v => parse_digits radix (Some (default 0 acc * radix + v)) s'
    | None => acc
    end
  | [] => acc
  end.

Definition parseInt (s : jsstring) : num :=
  let s := trimStart s in
  let '(sign, s) :=
    match s with
    | 45%N :: s' => (-1, s')
    | 43%N :: s' => (1, s')
    | _ => (1, s)
    end in
  let '(radix, s) :=
    match s with
    | 48%N :: 120%N :: s' | 48%N :: 88%N :: s' => (16, s')
    | _ => (10, s)
    end in
  (λ v, sign * v) <$> parse_digits radix None s.

(** [String(n)] of a number of this program, as template literals
    interpolate it. *)
Definition num_to_string (n : num) : jsstring :=
  match n with
  | Some z => js (NilZero.string_of_int (Z.to_int z))
  | None => js "NaN"
  end.

(** [for (let i = lo; i <= hi; i++) acc = body i acc] *)
Fixpoint for_steps {A} (steps : nat) (i hi : Z) (body : Z → A → A) (acc : A) : A :=
  match steps with
  | O => acc
  | S k => if i <=? hi then for_steps k (i + 1) hi body (body i acc) else acc
  end.

Definition for_range {A} (lo hi : Z) (body : Z → A → A) (acc : A) : A :=
  for_steps (Z.to_nat (hi - lo + 1)) lo hi body acc.

(** *** Regular expressions

    The patterns of this program over code-unit classes, matched by
    derivatives. [test_anchored] is [/^r$/.test(s)]. *)
Inductive regex :=
  | Void
  | Eps
  | Class (p : char → bool)
  | Seq (r1 r2 : regex)
  | Alt (r1 r2 : regex)
  | Star (r : regex).

Definition Plus (r : regex) : regex := Seq r (Star r).
Definition Lit (c : char) : regex := Class (N.eqb c).

Fixpoint nullable (r : regex) : bool :=
  match r with
  | Void => false
  | Eps => true
  | Class _ => false
  | Seq r1 r2 => nullable r1 && nullable r2
  | Alt r1 r2 => nullable r1 || nullable r2
  | Star _ => true
  end.

Fixpoint deriv (c : char) (r : regex) : regex :=
  match r with
  | Void => Void
  | Eps => Void
  | Class p => if p c then Eps else Void
  | Seq r1 r2 =>
    if nullable r1 then Alt (Seq (deriv c r1) r2) (deriv c r2)
    else Seq (deriv c r1) r2
  | Alt r1 r2 => Alt (deriv c r1) (deriv c r2)
  | Star r1 => Seq (deriv c r1) (Star r1)
  end.

Definition test_anchored (r : regex) (s : jsstring) : bool :=
  nullable (foldl (λ r c, deriv c r) r s).

End JS.

Import JS.
Arguments js : simpl never.

(** ** The host's [Date]

    [Date_parse v] is the time value (milliseconds since the epoch) of
    [new Date(v)], [NaN] for an invalid date; [getFullYear t] is the
    local calendar year of the time value [t]; [toISOString t] its ISO
    rendering. The clock reading of [new Date()] is passed explicitly
    to every operation that reads it. *)
Class DateHost := {
  Date_parse : jsstring → num;
  getFullYear : Z → Z;
  toISOString : Z → jsstring;
}.

(** ** Built-in rules ([registerDefaultValidators]) *)

Module Rules.

Local Open Scope Z_scope.

(** A rule returns [null] ([None]) or a message. It receives the value
    and an optional second argument ([NaN] when absent); [now] is the
    clock at the call. *)
Definition result := option jsstring.
Definition validator := Z → jsstring → num → result.

(** A returned message counts as an error when it is truthy. *)
Definition is_error (r : result) : bool :=
  match r with Some m => truthy m | None => false end.

(** [/^[^\s@]+@[^\s@]+\.[^\s@]+$/] *)
Definition not_space_at : regex := Class (λ c, negb (is_space c || (c =? 64)%N)).
Definition emailRegex : regex :=
  Seq (Plus not_space_at)
    (Seq (Lit 64) (Seq (Plus not_space_at) (Seq (Lit 46) (Plus not_space_at)))).

(** [/^(\d)\1{10}$/]: a digit followed by ten copies of itself. *)
Definition repeated_digit_test (s : jsstring) : bool :=
  match s with
  | c :: rest => is_digit c && (length rest =? 10)%nat && forallb (N.eqb c) rest
  | [] => false
  end.

Section with_host.
Context `{DateHost}.

Definition email : validator := λ now value _,
  if truthy value && negb (test_anchored emailRegex value) then
    Some (js "E-mail inválido. Verifique o formato.")
  else None.

Definition cpf : validator := λ now value _,
  if negb (truthy value) then None else
  let cpf := strip_non_digits value in
  if negb (length cpf =? 11)%nat then Some (js "CPF deve conter 11 dígitos.") else
  if repeated_digit_test cpf then Some (js "CPF inválido.") else
  let sum := for_range 1 9
    (λ i sum, add sum (mul (parseInt (substring cpf (i - 1) i)) (Some (11 - i))))
    (Some 0) in
  let remainder := rem (mul sum (Some 10)) (Some 11) in
  let remainder :=
    if strict_eq remainder (Some 10) || strict_eq remainder (Some 11)
    then Some 0 else remainder in
  if strict_ne remainder (parseInt (substring cpf 9 10)) then
    Some (js "CPF inválido.") else
  let sum := for_range 1 10
    (λ i sum, add sum (mul (parseInt (substring cpf (i - 1) i)) (Some (12 - i))))
    (Some 0) in
  let remainder := rem (mul sum (Some 10)) (Some 11) in
  let remainder :=
    if strict_eq remainder (Some 10) || strict_eq remainder (Some 11)
    then Some 0 else remainder in
  if strict_ne remainder (parseInt (substring cpf 10 11)) then
    Some (js "CPF inválido.") else
  None.

Definition telefone : validator := λ now value _,
  if negb (truthy value) then None else
  let phone := strip_non_digits value in
  if (length phone <? 10)%nat || (11 <? length phone)%nat then
    Some (js "Telefone deve conter 10 ou 11 dígitos.")
  else None.

Definition cep : validator := λ now value _,
  if negb (truthy value) then None else
  let cep := strip_non_digits value in
  if negb (length cep =? 8)%nat then Some (js "CEP deve conter 8 dígitos.")
  else None.

Definition nasc : validator := λ now value _,
  if negb (truthy value) then None else
  let birthDate := Date_parse value in
  let today : num := Some now in
  let age := sub (getFullYear <$> today) (getFullYear <$> birthDate) in
  if lt age (Some 18) then Some (js "Você deve ter pelo menos 18 anos.") else
  if gt birthDate today then
    Some (js "Data de nascimento não pode ser no futuro.") else
  None.

Definition minlength : validator := λ now value minLength,
  if truthy value && lt (Some (Z.of_nat (length value))) minLength then
    Some (js "Este campo deve conter no mínimo " ++ num_to_string minLength
          ++ js " caracteres.")
  else None.

Definition required : validator := λ now value _,
  if negb (truthy value) || bool_decide (trim value = []) then
    Some (js "Este campo é obrigatório.")
  else None.

Definition estado : validator := λ now value _,
  if negb (truthy value) || bool_decide (value = []) then
    Some (js "Por favor, selecione um estado.")
  else None.

End with_host.

End Rules.

(** ** A concrete host: ECMAScript time arithmetic in UTC

    The day and year functions are those of the language definition
    (DayFromYear, YearFromTime, MonthFromTime, DateFromTime). The parser
    recognises the date-only ISO form [YYYY-MM-DD] (the value of a date
    input), read as UTC midnight; everything else is an invalid date. *)

Module UTC.

Local Open Scope Z_scope.

Definition msPerDay : Z := 86400000.

Definition Day (t : Z) : Z := t `div` msPerDay.
Definition TimeWithinDay (t : Z) : Z := t `mod` msPerDay.

Definition DayFromYear (y : Z) : Z :=
  365 * (y - 1970) + (y - 1969) `div` 4 - (y - 1901) `div` 100
  + (y - 1601) `div` 400.

Definition DaysInYear (y : Z) : Z :=
  if negb (y `mod` 4 =? 0) then 365
  else if negb (y `mod` 100 =? 0) then 366
  else if negb (y `mod` 400 =? 0) then 365
  else 366.

(** The largest [y] with [DayFromYear y <= d], searched downwards from
    [y]; [steps] bounds the distance. *)
Fixpoint year_search (steps : nat) (d y : Z) : Z :=
  match steps with
  | O => y
  | S k => if DayFromYear y <=? d then y else year_search k d (y - 1)
  end.

Definition YearFromDay (d : Z) : Z :=
  let hi := if 0 <=? d then 1970 + d `div` 365 else 1970 + d `div` 366 + 1 in
  let lo := if 0 <=? d then 1970 + d `div` 366 else 1970 + d `div` 365 in
  year_search (Z.to_nat (hi - lo)) d hi.

Definition YearFromTime (t : Z) : Z := YearFromDay (Day t).

Definition month_lengths (y : Z) : list Z :=
  [31; DaysInYear y - 337; 31; 30; 31; 30; 31; 31; 30; 31; 30; 31].

(** Month (from 0) and day of the month (from 0) of the [d]-th day of a
    year whose months have the lengths [ms]. *)
Fixpoint month_and_date (ms : list Z) (m d : Z) : Z * Z :=
  match ms with
  | len :: ms' => if d <? len then (m, d) else month_and_date ms' (m + 1) (d - len)
  | [] => (m, d)
  end.

Definition MakeDay (year month date : Z) : Z :=
  DayFromYear year
  + foldr Z.add 0 (take (Z.to_nat month) (month_lengths year)) + (date - 1).

(** Decimal digits of a non-negative number, at least [width] of them. *)
Definition padded (width : nat) (n : Z) : jsstring :=
  let ds := js (NilZero.string_of_uint (N.to_uint (Z.to_N n))) in
  replicate (width - length ds) 48%N ++ ds.

Definition all_digits (s : jsstring) : bool := forallb is_digit s.

Definition parse_iso_date (s : jsstring) : num :=
  match s with
  | [y1; y2; y3; y4; 45%N; m1; m2; 45%N; d1; d2] =>
    if all_digits [y1; y2; y3; y4; m1; m2; d1; d2] then
      y ← parseInt [y1; y2; y3; y4];
      m ← parseInt [m1; m2];
      d ← parseInt [d1; d2];
      if (1 <=? m) && (m <=? 12) && (1 <=? d) && (d <=? 31)
      then Some (MakeDay y (m - 1) d * msPerDay) else NaN
    else NaN
  | _ => NaN
  end.

Definition iso_string (t : Z) : jsstring :=
  let y := YearFromTime t in
  let '(m, d) := month_and_date (month_lengths y) 0 (Day t - DayFromYear y) in
  let ms := TimeWithinDay t in
  let year :=
    if (0 <=? y) && (y <=? 9999) then padded 4 y
    else (if y <? 0 then js "-" else js "+") ++ padded 6 (Z.abs y) in
  year ++ js "-" ++ padded 2 (m + 1) ++ js "-" ++ padded 2 (d + 1)
  ++ js "T" ++ padded 2 (ms `div` 3600000)
  ++ js ":" ++ padded 2 ((ms `div` 60000) `mod` 60)
  ++ js ":" ++ padded 2 ((ms `div` 1000) `mod` 60)
  ++ js "." ++ padded 3 (ms `mod` 1000) ++ js "Z".

Definition host : DateHost := {|
  Date_parse := parse_iso_date;
  getFullYear := YearFromTime;
  toISOString := iso_string;
|}.

End UTC.

(** ** The page: form controls and their containers *)

Module Dom.

(** An element other than a form control, as far as the presenter looks
    at it: its class tokens, text and attributes. *)
Record node := {
  nodeClasses : gset jsstring;
  textContent : jsstring;
  nodeAttrs : gmap jsstring jsstring;
}.

(** The parent element of one or more controls. [descendants] lists, in
    document order, its descendants that are not form controls; an
    appended child comes last. Containers do not nest. *)
Record container := {
  containerClasses : gset jsstring;
  descendants : list node;
}.

(** An [input], [select] or [textarea]. [parentElement] refers to a
    container of the page by position; several controls may share one. *)
Record control := {
  id : jsstring;
  name : jsstring;
  value : jsstring;
  defaultValue : jsstring;
  type : jsstring;
  tagName : jsstring;
  attributes : gmap jsstring jsstring;
  classList : gset jsstring;
  parentElement : nat;
}.

Definition hasAttribute (c : control) (a : jsstring) : bool :=
  bool_decide (is_Some (attributes c !! a)).

Definition setAttribute (a v : jsstring) (c : control) : control :=
  {| id := id c; name := name c; value := value c;
     defaultValue := defaultValue c; type := type c; tagName := tagName c;
     attributes := <[a := v]> (attributes c); classList := classList c;
     parentElement := parentElement c |}.

Definition setClassList (cl : gset jsstring) (c : control) : control :=
  {| id := id c; name := name c; value := value c;
     defaultValue := defaultValue c; type := type c; tagName := tagName c;
     attributes := attributes c; classList := cl;
     parentElement := parentElement c |}.

Definition setValue (v : jsstring) (c : control) : control :=
  {| id := id c; name := name c; value := v;
     defaultValue := defaultValue c; type := type c; tagName := tagName c;
     attributes := attributes c; classList := classList c;
     parentElement := parentElement c |}.

(** [p.querySelector('.' + cls)] over the listed descendants, and the
    removal of the element it finds. *)
Definition matches (cls : jsstring) (n : node) : bool :=
  bool_decide (cls ∈ nodeClasses n).

Fixpoint removeFirst (cls : jsstring) (ns : list node) : list node :=
  match ns with
  | n :: ns' => if matches cls n then ns' else n :: removeFirst cls ns'
  | [] => []
  end.

End Dom.

(** ** Stored JSON

    [localStorage] holds strings; an entry is represented by the JSON
    value it denotes, so that [JSON.parse (JSON.stringify v)] is [v]. *)
#[local] Unset Elimination Schemes.
Inductive json :=
  | JNull
  | JBool (b : bool)
  | JNum (z : Z)
  | JStr (s : jsstring)
  | JArr (l : list json)
  | JObj (m : gmap jsstring json).
#[local] Set Elimination Schemes.

(** Truthiness of a parsed value: [null], [false], [0] and [""] are falsy. *)
Definition json_truthy (v : json) : bool :=
  match v with
  | JNull => false
  | JBool b => b
  | JNum z => negb (z =? 0)%Z
  | JStr s => truthy s
  | JArr _ | JObj _ => true
  end.

(** ** The validator object and the world it acts on *)

Module FV.

Import Rules.
Local Open Scope Z_scope.

(** The state the methods of [FormValidator] read and write: the page
    ([formId], [controls], [containers], [alerts]), the three maps of the
    object, and [localStorage]. [trace] is a ghost record of the rules
    invoked so far, with what each returned; no method reads it. *)
Record state := {
  formId : jsstring;                      (* this.form.id *)
  controls : list Dom.control;            (* form.querySelectorAll('input, select, textarea') *)
  containers : list Dom.container;
  alerts : nat;                           (* success banners shown *)
  fields : gmap jsstring nat;             (* this.fields: id to control *)
  errors : gmap jsstring jsstring;        (* this.errors *)
  validators : gmap jsstring validator;   (* this.validators *)
  localStorage : gmap jsstring json;
  trace : list (jsstring * result);
}.

Definition set_controls (x : list Dom.control) (s : state) : state :=
  {| formId := formId s; controls := x; containers := containers s;
     alerts := alerts s; fields := fields s; errors := errors s;
     validators := validators s; localStorage := localStorage s;
     trace := trace s |}.
Definition set_containers (x : list Dom.container) (s : state) : state :=
  {| formId := formId s; controls := controls s; containers := x;
     alerts := alerts s; fields := fields s; errors := errors s;
     validators := validators s; localStorage := localStorage s;
     trace := trace s |}.
Definition set_alerts (x : nat) (s : state) : state :=
  {| formId := formId s; controls := controls s; containers := containers s;
     alerts := x; fields := fields s; errors := errors s;
     validators := validators s; localStorage := localStorage s;
     trace := trace s |}.
Definition set_fields (x : gmap jsstring nat) (s : state) : state :=
  {| formId := formId s; controls := controls s; containers := containers s;
     alerts := alerts s; fields := x; errors := errors s;
     validators := validators s; localStorage := localStorage s;
     trace := trace s |}.
Definition set_errors (x : gmap jsstring jsstring) (s : state) : state :=
  {| formId := formId s; controls := controls s; containers := containers s;
     alerts := alerts s; fields := fields s; errors := x;
     validators := validators s; localStorage := localStorage s;
     trace := trace s |}.
Definition set_validators (x : gmap jsstring validator) (s : state) : state :=
  {| formId := formId s; controls := controls s; containers := containers s;
     alerts := alerts s; fields := fields s; errors := errors s;
     validators := x; localStorage := localStorage s; trace := trace s |}.
Definition set_localStorage (x : gmap jsstring json) (s : state) : state :=
  {| formId := formId s; controls := controls s; containers := containers s;
     alerts := alerts s; fields := fields s; errors := errors s;
     validators := validators s; localStorage := x; trace := trace s |}.
Definition set_trace (x : list (jsstring * result)) (s : state) : state :=
  {| formId := formId s; controls := controls s; containers := containers s;
     alerts := alerts s; fields := fields s; errors := errors s;
     validators := validators s; localStorage := localStorage s;
     trace := x |}.

(** The object before [init]: [this.fields], [this.errors] and
    [this.validators] are fresh maps. *)
Definition blank (form_id : jsstring) (cs : list Dom.control)
    (ps : list Dom.container) (storage : gmap jsstring json) : state :=
  {| formId := form_id; controls := cs; containers := ps; alerts := O;
     fields := ∅; errors := ∅; validators := ∅;
     localStorage := storage; trace := [] |}.

(** A method is a state transformer that may throw ([None]): calling a
    rule that is not registered, or [push] on a stored value that is not
    an array, is a [TypeError]. A reference that points outside the page
    (which a real reference cannot do) is treated the same way. *)
Definition M (A : Type) : Type := state → option (A * state).

#[export] Instance M_ret : MRet M := λ A x s, Some (x, s).
#[export] Instance M_bind : MBind M := λ A B f m s,
  match m s with
  | Some (a, s') => f a s'
  | None => None
  end.

Definition get : M state := λ s, Some (s, s).
Definition modify (f : state → state) : M unit := λ s, Some (tt, f s).
Definition throw {A} : M A := λ _, None.
Definition lift {A} (o : option A) : M A :=
  match o with Some a => mret a | None => throw end.

(** [registerValidator(name, fn)] *)
Definition registerValidator (name : jsstring) (fn : validator) : M unit :=
  modify (λ s, set_validators (<[name := fn]> (validators s)) s).

Section with_host.
Context `{DateHost}.

Definition registerDefaultValidators : M unit :=
  registerValidator (js "email") email;;
  registerValidator (js "cpf") cpf;;
  registerValidator (js "telefone") telefone;;
  registerValidator (js "cep") cep;;
  registerValidator (js "nasc") nasc;;
  registerValidator (js "minlength") minlength;;
  registerValidator (js "required") required;;
  registerValidator (js "estado") estado.

(** [this.validators.get(name)(value, arg)], recorded in the trace. *)
Definition callValidator (now : Z) (name value : jsstring) (arg : num) : M result :=
  s ← get;
  fn ← lift (validators s !! name);
  let r := fn now value arg in
  modify (λ s, set_trace (trace s ++ [(name, r)]) s);;
  mret r.

(** [showFieldError(fieldId, message)] *)
Definition showFieldError (fieldId message : jsstring) : M unit :=
  s ← get;
  match fields s !! fieldId with
  | None => mret tt
  | Some ref =>
    field ← lift (controls s !! ref);
    parent ← lift (containers s !! Dom.parentElement field);
    let field :=
      Dom.setAttribute (js "aria-invalid") (js "true")
        (Dom.setClassList (Dom.classList field ∪ {[js "is-invalid"]}) field) in
    let errorElement :=
      {| Dom.nodeClasses := {[js "form-field__error"]};
         Dom.textContent := message;
         Dom.nodeAttrs := {[js "role" := js "alert"]} |} in
    let parent :=
      {| Dom.containerClasses :=
           Dom.containerClasses parent ∪ {[js "form-field--error"]};
         Dom.descendants :=
           Dom.removeFirst (js "form-field__error") (Dom.descendants parent)
           ++ [errorElement] |} in
    modify (λ s,
      set_containers (<[Dom.parentElement field := parent]> (containers s))
        (set_controls (<[ref := field]> (controls s))
          (set_errors (<[fieldId := message]> (errors s)) s)))
  end.

(** [clearFieldError(fieldId)] *)
Definition clearFieldError (fieldId : jsstring) : M unit :=
  s ← get;
  match fields s !! fieldId with
  | None => mret tt
  | Some ref =>
    field ← lift (controls s !! ref);
    parent ← lift (containers s !! Dom.parentElement field);
    let field :=
      Dom.setAttribute (js "aria-invalid") (js "false")
        (Dom.setClassList (Dom.classList field ∖ {[js "is-invalid"]}) field) in
    let parent :=
      {| Dom.containerClasses :=
           Dom.containerClasses parent ∖ {[js "form-field--error"]};
         Dom.descendants :=
           Dom.removeFirst (js "form-field__error") (Dom.descendants parent) |} in
    modify (λ s,
      set_containers (<[Dom.parentElement field := parent]> (containers s))
        (set_controls (<[ref := field]> (controls s))
          (set_errors (delete fieldId (errors s)) s)))
  end.

(** The rule chosen by the field's type or id (the [if]/[else if] chain
    of [validateField]); [None] when no branch applies. *)
Definition kindRule (fieldType fieldId : jsstring) : option jsstring :=
  if bool_decide (fieldType = js "email") then Some (js "email")
  else if bool_decide (fieldId = js "cpf") then Some (js "cpf")
  else if bool_decide (fieldId = js "telefone") then Some (js "telefone")
  else if bool_decide (fieldId = js "cep") then Some (js "cep")
  else if bool_decide (fieldId = js "nasc") then Some (js "nasc")
  else if bool_decide (fieldId = js "estado") then Some (js "estado")
  else None.

(** [validateField(field)]; [field] is the position of the control. *)
Definition validateField (now : Z) (field : nat) : M bool :=
  s ← get;
  f ← lift (controls s !! field);
  let fieldId := Dom.id f in
  let value := Dom.value f in
  let error : result := None in
  error ←
    (if Dom.hasAttribute f (js "required") then
       requiredError ← callValidator now (js "required") value NaN;
       mret (if is_error requiredError then requiredError else error)
     else mret error);
  error ←
    (if negb (is_error error) && truthy value then
       let fieldType :=
         if truthy (Dom.type f) then Dom.type f
         else toLowerCase (Dom.tagName f) in
       error ←
         match kindRule fieldType fieldId with
         | Some rule => callValidator now rule value NaN
         | None => mret error
         end;
       if negb (is_error error) && Dom.hasAttribute f (js "minlength") then
         let minLength :=
           parseInt (default [] (Dom.attributes f !! js "minlength")) in
         callValidator now (js "minlength") value minLength
       else mret error
     else mret error);
  match error with
  | Some message =>
    if truthy message then showFieldError fieldId message;; mret false
    else clearFieldError fieldId;; mret true
  | None => clearFieldError fieldId;; mret true
  end.

(** The [forEach] of [validateForm] over the remaining controls. *)
Fixpoint validateEach (now : Z) (inputs : list nat) (isValid : bool) : M bool :=
  match inputs with
  | [] => mret isValid
  | input :: rest =>
    ok ← validateField now input;
    validateEach now rest (if negb ok then false else isValid)
  end.

(** [validateForm()] *)
Definition validateForm (now : Z) : M bool :=
  s ← get;
  let isValid := true in
  let inputs := seq 0 (length (controls s)) in
  validateEach now inputs isValid.

(** [Object.fromEntries(new FormData(this.form))]: one entry per named
    control, a later control of the same name replacing an earlier one. *)
Definition formData (cs : list Dom.control) : gmap jsstring json :=
  foldl (λ data c,
           if truthy (Dom.name c) then <[Dom.name c := JStr (Dom.value c)]> data
           else data) ∅ cs.

Definition formName (s : state) : jsstring :=
  if truthy (formId s) then formId s else js "form-data".

(** [submissions.slice(-n)] *)
Definition slice_last {A} (n : nat) (l : list A) : list A :=
  drop (length l - n) l.

(** [saveFormData(data)] *)
Definition saveFormData (now : Z) (data : gmap jsstring json) : M unit :=
  s ← get;
  let formName := formName s in
  let timestamp := toISOString now in
  let storageKey := formName ++ js "-submissions" in
  submissions ←
    match localStorage s !! storageKey with
    | None => mret []
    | Some v =>
      if json_truthy v then
        match v with JArr l => mret l | _ => throw end
      else mret []
    end;
  let submissions :=
    submissions ++ [JObj (<[js "timestamp" := JStr timestamp]> data)] in
  let submissions :=
    if (10 <? length submissions)%nat then slice_last 10 submissions
    else submissions in
  modify (λ s, set_localStorage
    (<[storageKey := JArr submissions]> (localStorage s)) s);;
  modify (λ s, set_localStorage
    (<[formName ++ js "-current" := JObj data]> (localStorage s)) s).

(** [getSubmissionHistory()] *)
Definition getSubmissionHistory (s : state) : json :=
  match localStorage s !! (formName s ++ js "-submissions") with
  | Some v => if json_truthy v then v else JArr []
  | None => JArr []
  end.

(** [showSuccessMessage()]: one more banner before the form (the timer
    that removes it later is outside the model). *)
Definition showSuccessMessage : M unit :=
  modify (λ s, set_alerts (S (alerts s)) s).

(** [this.form.reset()] *)
Definition reset : M unit :=
  modify (λ s, set_controls
    ((λ c, Dom.setValue (Dom.defaultValue c) c) <$> controls s) s).

(** [handleValidFormSubmit()] *)
Definition handleValidFormSubmit (now : Z) : M unit :=
  s ← get;
  let data := formData (controls s) in
  saveFormData now data;;
  showSuccessMessage;;
  reset;;
  modify (set_errors ∅).

(** *** Event listeners ([attachEventListeners]) *)

Definition onBlur (now : Z) (input : nat) : M unit :=
  validateField now input;; mret tt.

(** The user's edit sets the value; then the listener runs. *)
Definition onInput (input : nat) (v : jsstring) : M unit :=
  s ← get;
  c ← lift (controls s !! input);
  modify (set_controls (<[input := Dom.setValue v c]> (controls s)));;
  s ← get;
  if bool_decide (is_Some (errors s !! Dom.id c)) then clearFieldError (Dom.id c)
  else mret tt.

Definition onSubmit (now : Z) : M unit :=
  valid ← validateForm now;
  if (valid : bool) then handleValidFormSubmit now else mret tt.

(** The events the listeners are attached to, and their dispatch. *)
Inductive event :=
  | Blur (input : nat)
  | Input (input : nat) (v : jsstring)
  | Submit.

Definition dispatch (now : Z) (e : event) : M unit :=
  match e with
  | Blur input => onBlur now input
  | Input input v => onInput input v
  | Submit => onSubmit now
  end.

(** The loop of [attachEventListeners] that fills [this.fields]. *)
Definition attachFields (cs : list Dom.control) : gmap jsstring nat :=
  foldl (λ m ic, <[Dom.id ic.2 := ic.1]> m) ∅ (imap pair cs).

(** [new FormValidator(selector)] on a page whose form was found: the
    three maps start empty, then [init] runs. *)
Definition construct (form_id : jsstring) (cs : list Dom.control)
    (ps : list Dom.container) (storage : gmap jsstring json) : option state :=
  snd <$> (registerDefaultValidators;;
           modify (λ s, set_fields (attachFields (controls s)) s))
          (blank form_id cs ps storage).

End with_host.

End FV.

(** ** The check digits as the specification words them *)

Module Spec.

Local Open Scope Z_scope.

(** The digit values of a normalized identifier. *)
Definition digits (s : jsstring) : list Z := (λ c, Z.of_N c - 48) <$> s.

(** [digit ds i] is the [i]-th digit, counted from 1. *)
Definition digit (ds : list Z) (i : nat) : Z := nth (i - 1) ds 0.

(** The sum of [digit i * (w - i)] for [i = 1..n]. *)
Definition weighted_sum (ds : list Z) (n : nat) (w : Z) : Z :=
  foldr Z.add 0 ((λ i, digit ds i * (w - Z.of_nat i)) <$> seq 1 n).

(** [remainder = (sum * 10) mod 11], with 10 and 11 treated as 0. *)
Definition check_digit (ds : list Z) (n : nat) (w : Z) : Z :=
  let remainder := (weighted_sum ds n w * 10) `mod` 11 in
  if bool_decide (remainder = 10 ∨ remainder = 11) then 0 else remainder.

End Spec.

(** ** One validation pass, without the state

    [validateField] reads the control and the registry, invokes rules and
    ends in one presenter call. [rulesRun] is the same sequence of rule
    invocations as a function of the registry and the control: the list
    of rules invoked with their results, and the final [error]. It is
    [None] when a rule to invoke is not registered. *)

Module Pass.

Import Rules FV.

Definition invoke (vs : gmap jsstring validator) (now : Z)
    (name value : jsstring) (arg : num) : option result :=
  (λ fn : validator, fn now value arg) <$> vs !! name.

Definition rulesRun (vs : gmap jsstring validator) (now : Z) (f : Dom.control)
    : option (list (jsstring * result) * result) :=
  let fieldId := Dom.id f in
  let value := Dom.value f in
  '(calls, error) ←
    (if Dom.hasAttribute f (js "required") then
       requiredError ← invoke vs now (js "required") value NaN;
       Some ([(js "required", requiredError)],
             if is_error requiredError then requiredError else None)
     else Some ([], None));
  if negb (is_error error) && truthy value then
    let fieldType :=
      if truthy (Dom.type f) then Dom.type f
      else toLowerCase (Dom.tagName f) in
    '(calls, error) ←
      match FV.kindRule fieldType fieldId with
      | Some rule =>
        r ← invoke vs now rule value NaN;
        Some (calls ++ [(rule, r)], r)
      | None => Some (calls, error)
      end;
    if negb (is_error error) && Dom.hasAttribute f (js "minlength") then
      let minLength :=
        parseInt (default [] (Dom.attributes f !! js "minlength")) in
      r ← invoke vs now (js "minlength") value minLength;
      Some (calls ++ [(js "minlength", r)], r)
    else Some (calls, error)
  else Some (calls, error).

(** The presenter call that ends [validateField]. *)
Definition present (fieldId : jsstring) (error : result) : FV.M bool :=
  match error with
  | Some message =>
    if truthy message then FV.showFieldError fieldId message;; mret false
    else FV.clearFieldError fieldId;; mret true
  | None => FV.clearFieldError fieldId;; mret true
  end.

(** Whether the pass finds no error on the control. *)
Definition passes (vs : gmap jsstring validator) (now : Z) (f : Dom.control) : bool :=
  match rulesRun vs now f with
  | Some (_, error) => negb (is_error error)
  | None => false
  end.

(** The rules bound to a field kind. *)
Definition kindRules : list jsstring :=
  [js "email"; js "cpf"; js "telefone"; js "cep"; js "nasc"; js "estado"].

(** The invocations that returned an error. *)
Definition failures (calls : list (jsstring * result)) : list (jsstring * result) :=
  filter (λ call, is_error call.2 = true) calls.

(** The shape of a pass: the rules it invokes, in order, and its verdict. *)
Record pass_shape (f : Dom.control) (calls : list (jsstring * result))
    (error : result) : Prop := {
  shape_calls :
    ∃ req kind minl : list (jsstring * result),
      calls = req ++ kind ++ minl
      ∧ (if Dom.hasAttribute f (js "required")
         then ∃ r, req = [(js "required", r)] else req = [])
      ∧ (kind = []
         ∨ truthy (Dom.value f) = true ∧ failures req = []
           ∧ ∃ rule r, kind = [(rule, r)] ∧ rule ∈ kindRules)
      ∧ (minl = []
         ∨ truthy (Dom.value f) = true ∧ failures (req ++ kind) = []
           ∧ Dom.hasAttribute f (js "minlength") = true
           ∧ ∃ r, minl = [(js "minlength", r)]);
  shape_failures :
    failures calls = [] ∧ is_error error = false
    ∨ ∃ name, failures calls = [(name, error)]
        ∧ last calls = Some (name, error) ∧ is_error error = true;
}.

End Pass.

(** ** Well-formed states

    What the constructor establishes and every listener keeps: the
    references held by the object point into the page, errors are only
    recorded for registered fields, a container shows at most one error
    display, the built-in rules are registered and the stored history,
    when present, is an array. *)

Module Wf.

Import FV.

Definition errorDisplays (p : Dom.container) : list Dom.node :=
  filter (λ n, Dom.matches (js "form-field__error") n = true) (Dom.descendants p).

Definition builtin : list jsstring :=
  [js "email"; js "cpf"; js "telefone"; js "cep"; js "nasc"; js "minlength";
   js "required"; js "estado"].

Definition loadable (v : option json) : Prop :=
  match v with
  | None | Some (JArr _) => True
  | Some v => json_truthy v = false
  end.

Record wf (s : state) : Prop := {
  wf_fields :
    map_Forall (λ fieldId ref, Dom.id <$> controls s !! ref = Some fieldId) (fields s);
  wf_controls :
    Forall (λ c, is_Some (fields s !! Dom.id c)
                 ∧ Dom.parentElement c < length (containers s)) (controls s);
  wf_errors : dom (errors s) ⊆ dom (fields s);
  wf_displays : Forall (λ p, length (errorDisplays p) ≤ 1) (containers s);
  wf_validators : Forall (λ n, is_Some (validators s !! n)) builtin;
  wf_storage : loadable (localStorage s !! (formName s ++ js "-submissions"));
}.

(** A field the presenter can act on: it is not registered (the methods
    return at once), or its control and container are on the page and
    the container shows at most one error display. *)
Definition presentable (s : state) (fieldId : jsstring) : Prop :=
  match fields s !! fieldId with
  | None => True
  | Some ref =>
    match controls s !! ref with
    | None => False
    | Some c =>
      match containers s !! Dom.parentElement c with
      | None => False
      | Some p => length (errorDisplays p) ≤ 1
      end
    end
  end.

#[export] Instance presentable_dec s fieldId : Decision (presentable s fieldId).
Proof. unfold presentable. repeat case_match; apply _. Defined.

(** The state after [showFieldError] and after [clearFieldError] on a
    field registered to the control [c] at [ref] with container [p]. *)
Definition shown (fieldId message : jsstring) (ref : nat) (c : Dom.control)
    (p : Dom.container) (s : state) : state :=
  set_containers
    (<[Dom.parentElement c :=
        {| Dom.containerClasses :=
             Dom.containerClasses p ∪ {[js "form-field--error"]};
           Dom.descendants :=
             Dom.removeFirst (js "form-field__error") (Dom.descendants p)
             ++ [{| Dom.nodeClasses := {[js "form-field__error"]};
                    Dom.textContent := message;
                    Dom.nodeAttrs := {[js "role" := js "alert"]} |}] |}]>
       (containers s))
    (set_controls
       (<[ref := Dom.setAttribute (js "aria-invalid") (js "true")
                   (Dom.setClassList (Dom.classList c ∪ {[js "is-invalid"]}) c)]>
          (controls s))
       (set_errors (<[fieldId := message]> (errors s)) s)).

Definition cleared (fieldId : jsstring) (ref : nat) (c : Dom.control)
    (p : Dom.container) (s : state) : state :=
  set_containers
    (<[Dom.parentElement c :=
        {| Dom.containerClasses :=
             Dom.containerClasses p ∖ {[js "form-field--error"]};
           Dom.descendants :=
             Dom.removeFirst (js "form-field__error") (Dom.descendants p) |}]>
       (containers s))
    (set_controls
       (<[ref := Dom.setAttribute (js "aria-invalid") (js "false")
                   (Dom.setClassList (Dom.classList c ∖ {[js "is-invalid"]}) c)]>
          (controls s))
       (set_errors (delete fieldId (errors s)) s)).

(** What a validation pass and the form data read of a control: all but
    its class tokens and its [aria-invalid] attribute. *)
Definition input (c : Dom.control) :=
  (Dom.id c, Dom.name c, Dom.value c, Dom.type c, Dom.tagName c,
   delete (js "aria-invalid") (Dom.attributes c)).

(** [s'] differs from [s] in presentation only: recorded errors, class
    tokens, [aria-invalid] and error displays. *)
Record presented (s s' : state) : Prop := {
  same_formId : formId s' = formId s;
  same_inputs : input <$> controls s' = input <$> controls s;
  same_containers : length (containers s') = length (containers s);
  same_alerts : alerts s' = alerts s;
  same_fields : fields s' = fields s;
  same_validators : validators s' = validators s;
  same_localStorage : localStorage s' = localStorage s;
  same_trace : trace s' = trace s;
}.

(** The history a save starts from: the array [getSubmissionHistory]
    returns (nothing when the stored value is not an array). *)
Definition stored (s : state) : list json :=
  match getSubmissionHistory s with JArr l => l | _ => [] end.

(** The record a save appends: the data with its timestamp. *)
Definition submission `{DateHost} (save : Z * gmap jsstring json) : json :=
  JObj (<[js "timestamp" := JStr (toISOString save.1)]> save.2).

(** Saves one after the other, each with its clock reading and data. *)
Fixpoint saveAll `{DateHost} (saves : list (Z * gmap jsstring json)) : M unit :=
  match saves with
  | [] => mret tt
  | save :: rest => saveFormData save.1 save.2;; saveAll rest
  end.

(** The verdict of a pass on the control at position [i]. *)
Definition verdict (now : Z) (s : state) (i : nat) : bool :=
  from_option (Pass.passes (validators s) now) false (controls s !! i).

(** [s'] is [s] after some rule invocations and presenter calls. *)
Definition validated (s s' : state) : Prop :=
  ∃ calls, presented (set_trace (trace s ++ calls) s) s'.

#[export] Instance loadable_dec v : Decision (loadable v).
Proof. destruct v as [[]|]; apply _. Defined.

#[export] Instance wf_dec s : Decision (wf s).
Proof.
  refine (cast_if (decide (
    map_Forall (λ fieldId ref, Dom.id <$> controls s !! ref = Some fieldId) (fields s)
    ∧ Forall (λ c, is_Some (fields s !! Dom.id c)
                   ∧ Dom.parentElement c < length (containers s)) (controls s)
    ∧ dom (errors s) ⊆ dom (fields s)
    ∧ Forall (λ p, length (errorDisplays p) ≤ 1) (containers s)
    ∧ Forall (λ n, is_Some (validators s !! n)) builtin
    ∧ loadable (localStorage s !! (formName s ++ js "-submissions")))));
  [destruct_and!; by constructor | intros []; tauto].
Defined.

End Wf.

(** ** A sample page: the registration form *)

Module Sample.

Definition field (fieldId fieldType : jsstring)
    (attrs : list (jsstring * jsstring)) (v : jsstring) (parent : nat) : Dom.control :=
  {| Dom.id := fieldId; Dom.name := fieldId; Dom.value := v;
     Dom.defaultValue := []; Dom.type := fieldType; Dom.tagName := js "INPUT";
     Dom.attributes := list_to_map attrs; Dom.classList := ∅;
     Dom.parentElement := parent |}.

Definition formField : Dom.container :=
  {| Dom.containerClasses := {[js "form-field"]}; Dom.descendants := [] |}.

(** A name (required, at least three characters), an e-mail address, a
    national identifier and a postal code, each in its own container. *)
Definition nome (v : jsstring) : Dom.control :=
  field (js "nome") (js "text") [(js "required", []); (js "minlength", js "3")] v 0.

Definition controls (nome_value email cpf cep : jsstring) : list Dom.control :=
  [ nome nome_value;
    field (js "email") (js "email") [(js "required", [])] email 1;
    field (js "cpf") (js "text") [(js "required", [])] cpf 2;
    field (js "cep") (js "text") [] cep 3 ].

Definition containers : list Dom.container := replicate 4 formField.

(** 2026-11-02T00:00:00Z *)
Definition now : Z := 1793577600000.

Definition page (cs : list Dom.control) (ps : list Dom.container) : FV.state :=
  default (FV.blank [] [] [] ∅)
    (@FV.construct UTC.host (js "cadastroForm") cs ps ∅).

Definition filled : FV.state :=
  page (controls (js "Maria") (js "maria@example.com") (js "529.982.247-25")
          (js "01310-100")) containers.

Definition untouched : FV.state := page (controls [] [] [] []) containers.

(** The same form on a page whose first container already holds two
    error displays. *)
Definition errorDisplay (text : jsstring) : Dom.node :=
  {| Dom.nodeClasses := {[js "form-field__error"]}; Dom.textContent := text;
     Dom.nodeAttrs := ∅ |}.

Definition stale : FV.state :=
  page (controls [] [] [] [])
    ({| Dom.containerClasses := {[js "form-field"]};
        Dom.descendants := [errorDisplay (js "first"); errorDisplay (js "second")] |}
     :: replicate 3 formField).

(** The texts shown in each container. *)
Definition displayed (s : FV.state) : list (list jsstring) :=
  (λ p, Dom.textContent <$> Dom.descendants p) <$> FV.containers s.

(** Eleven saves, one per second. *)
Definition saves : list (Z * gmap jsstring json) :=
  (λ k : nat, ((now + 1000 * Z.of_nat k)%Z,
               {[js "nome" := JStr (js "Maria")]} : gmap jsstring json)) <$> seq 0 11.

End Sample.

(** ** The language of a pattern *)

Module Lang.

(** The strings a pattern matches in full. *)
Inductive matches : regex → jsstring → Prop :=
  | matches_eps : matches Eps []
  | matches_class p c : p c = true → matches (Class p) [c]
  | matches_seq r1 r2 s1 s2 :
      matches r1 s1 → matches r2 s2 → matches (Seq r1 r2) (s1 ++ s2)
  | matches_alt_l r1 r2 s : matches r1 s → matches (Alt r1 r2) s
  | matches_alt_r r1 r2 s : matches r2 s → matches (Alt r1 r2) s
  | matches_star_nil r : matches (Star r) []
  | matches_star_app r s1 s2 :
      matches r s1 → matches (Star r) s2 → matches (Star r) (s1 ++ s2).

(** A code unit allowed in each part of an address: not [\s], not [@]. *)
Definition plain (c : char) : Prop := is_space c = false ∧ c ≠ 64%N.

End Lang.

(** ** The remaining methods of the validator *)

Module Store.

Import FV.

(** [clearSubmissionHistory()] *)
Definition clearSubmissionHistory : M unit :=
  modify (λ s, set_localStorage
    (delete (formName s ++ js "-submissions") (localStorage s)) s).

(** [items.join(',')] *)
Fixpoint join (items : list jsstring) : jsstring :=
  match items with
  | [] => []
  | [item] => item
  | item :: rest => item ++ js "," ++ join rest
  end.

(** The string a text control's [value] setter stores for a parsed
    value: [null] gives the empty string, an array its elements joined
    by commas (a [null] element giving nothing), an object
    ["[object Object]"]. *)
Fixpoint valueString (v : json) : jsstring :=
  match v with
  | JNull => []
  | JBool b => if b then js "true" else js "false"
  | JNum z => num_to_string (Some z)
  | JStr s => s
  | JArr l => join ((λ e, valueString e) <$> l)
  | JObj _ => js "[object Object]"
  end.

(** [Object.keys(v)] with [v[key]] beside each key. An object gives its
    properties (the order in which an object lists them is not kept by
    the stored representation), an array and a string their indices,
    anything else nothing. *)
Definition entries (v : json) : list (jsstring * json) :=
  match v with
  | JObj m => map_to_list m
  | JArr l => imap (λ i e, (num_to_string (Some (Z.of_nat i)), e)) l
  | JStr s => imap (λ i c, (num_to_string (Some (Z.of_nat i)), JStr [c])) s
  | _ => []
  end.

(** The [forEach] of [loadFormData] over the remaining keys. *)
Fixpoint restore (saved : list (jsstring * json)) : M unit :=
  match saved with
  | [] => mret tt
  | (key, v) :: rest =>
    s ← get;
    match fields s !! key with
    | Some ref =>
      field ← lift (controls s !! ref);
      modify (set_controls
                (<[ref := Dom.setValue (valueString v) field]> (controls s)))
    | None => mret tt
    end;;
    restore rest
  end.

(** [loadFormData()] *)
Definition loadFormData : M unit :=
  s ← get;
  let storageKey := formName s ++ js "-current" in
  match localStorage s !! storageKey with
  | None => mret tt
  | Some savedData =>
    if json_truthy savedData then restore (entries savedData) else mret tt
  end.

(** Events handled one after the other, each at its clock reading. *)
Fixpoint handleAll `{DateHost} (events : list (Z * event)) : M unit :=
  match events with
  | [] => mret tt
  | (now, e) :: rest => dispatch now e;; handleAll rest
  end.

(** The control an event is fired on is one of the form's. *)
Definition targeted (n : nat) (e : event) : Prop :=
  match e with
  | Blur i | Input i _ => i < n
  | Submit => True
  end.

End Store.

(** ** What a pass leaves behind *)

Module Outcome.

Import Rules FV.

(** The entry [this.errors] holds for a control after a pass on it. *)
Definition recorded (vs : gmap jsstring validator) (now : Z) (f : Dom.control)
    : option jsstring :=
  match Pass.rulesRun vs now f with
  | Some (_, error) => if is_error error then error else None
  | None => None
  end.

(** What the page shows for a control and its container. *)
Definition markedInvalid (c : Dom.control) (p : Dom.container) : Prop :=
  js "is-invalid" ∈ Dom.classList c
  ∧ Dom.attributes c !! js "aria-invalid" = Some (js "true")
  ∧ js "form-field--error" ∈ Dom.containerClasses p.

Definition markedValid (c : Dom.control) (p : Dom.container) : Prop :=
  (js "is-invalid" ∉ Dom.classList c)
  ∧ Dom.attributes c !! js "aria-invalid" = Some (js "false")
  ∧ js "form-field--error" ∉ Dom.containerClasses p.

(** The control at [ref] after the saved properties [m] were restored:
    it takes the property named by its id when [this.fields] maps that id
    to it. *)
Definition restored (m : gmap jsstring json) (fs : gmap jsstring nat)
    (ref : nat) (c : Dom.control) : Dom.control :=
  match m !! Dom.id c with
  | Some v =>
    if bool_decide (fs !! Dom.id c = Some ref)
    then Dom.setValue (Store.valueString v) c else c
  | None => c
  end.

(** A page with one control, the state selector, with a state chosen. *)
Definition estadoPage : state :=
  Sample.page
    [Sample.field (js "estado") (js "select-one") [(js "required", [])] (js "SP") 0]
    [Sample.formField].

(** The sample page with a saved name in the store. *)
Definition saved : state :=
  set_localStorage
    {[js "cadastroForm-current" := JObj {[js "nome" := JStr (js "Ana")]}]}
    Sample.untouched.

End Outcome.

(** ** Input masks (js/masks.js) *)

Module Masks.

(** A pattern is a sequence of atoms: a greedy run of [lo] to [hi] code
    units of a class, captured or not, or the end anchor [$]. *)
Inductive atom :=
  | Rep (p : char → bool) (lo hi : nat) (group : bool)
  | AtEnd.

(** Exactly [k] code units of the class [p] at the head of [s]: the run
    and what follows it. *)
Fixpoint run (p : char → bool) (k : nat) (s : jsstring)
    : option (jsstring * jsstring) :=
  match k with
  | O => Some ([], s)
  | S k' =>
    match s with
    | c :: s' =>
      if p c then
        match run p k' s' with
        | Some (a, r) => Some (c :: a, r)
        | None => None
        end
      else None
    | [] => None
    end
  end.

(** A match of the pattern at the head of [s]: the captures, in order,
    and what follows the match. A run first takes as many code units as
    it may and gives back one at a time while the rest fails. *)
Fixpoint matchAt (pat : list atom) (s : jsstring)
    : option (list jsstring * jsstring) :=
  match pat with
  | [] => Some ([], s)
  | AtEnd :: pat' =>
    match s with
    | [] => matchAt pat' s
    | _ => None
    end
  | Rep p lo hi group :: pat' =>
    (fix try (extra : nat) : option (list jsstring * jsstring) :=
       let attempt :=
         match run p (lo + extra) s with
         | Some (a, r) =>
           match matchAt pat' r with
           | Some (caps, rest) => Some (if group then a :: caps else caps, rest)
           | None => None
           end
         | None => None
         end in
       match attempt with
       | Some found => Some found
       | None =>
         match extra with
         | O => None
         | S extra' => try extra'
         end
       end) (hi - lo)
  end.

(** A replacement string: text and references [$n]. *)
Inductive piece :=
  | Text (t : jsstring)
  | Group (n : nat).

Fixpoint expand (template : list piece) (caps : list jsstring) : jsstring :=
  match template with
  | [] => []
  | Text t :: rest => t ++ expand rest caps
  | Group n :: rest =>
    default (js "$" ++ num_to_string (Some (Z.of_nat n))) (caps !! (n - 1))
    ++ expand rest caps
  end.

(** [s.replace(/pat/, template)]: the leftmost match is replaced. *)
Fixpoint replace (pat : list atom) (template : list piece) (s : jsstring)
    : jsstring :=
  match matchAt pat s with
  | Some (caps, rest) => expand template caps ++ rest
  | None =>
    match s with
    | [] => []
    | c :: s' => c :: replace pat template s'
    end
  end.

Definition d (lo hi : nat) : atom := Rep is_digit lo hi true.
Definition lit (c : char) : atom := Rep (N.eqb c) 1 1 false.

(** [v.slice(0, n)] for a non-negative [n]. *)
Definition slice0 (n : nat) (v : jsstring) : jsstring := take n v.

Definition maskCpf (v : jsstring) : jsstring :=
  let v := if (11 <? length v)%nat then slice0 11 v else v in
  let v := replace [d 3 3; d 1 1] [Group 1; Text (js "."); Group 2] v in
  let v := replace [d 3 3; lit 46; d 3 3; d 1 1]
             [Group 1; Text (js "."); Group 2; Text (js "."); Group 3] v in
  replace [d 3 3; lit 46; d 3 3; lit 46; d 3 3; d 1 1]
    [Group 1; Text (js "."); Group 2; Text (js "."); Group 3; Text (js "-");
     Group 4] v.

Definition maskTelefone (v : jsstring) : jsstring :=
  let v := if (11 <? length v)%nat then slice0 11 v else v in
  if (length v <=? 10)%nat then
    replace [lit 45; AtEnd] []
      (replace [d 2 2; d 4 4; d 0 4]
         [Text (js "("); Group 1; Text (js ") "); Group 2; Text (js "-"); Group 3] v)
  else
    replace [d 2 2; d 5 5; d 0 4]
      [Text (js "("); Group 1; Text (js ") "); Group 2; Text (js "-"); Group 3] v.

Definition maskCep (v : jsstring) : jsstring :=
  let v := if (8 <? length v)%nat then slice0 8 v else v in
  replace [d 5 5; d 1 3] [Group 1; Text (js "-"); Group 2] v.

(** The listener: the value the element has after an input event, given
    its id and the value it had. An element that is none of the three
    fields is left alone; [v] is the local variable of the listener. *)
Definition onInput (id value : jsstring) : jsstring :=
  if negb (bool_decide (id ∈ [js "cpf"; js "telefone"; js "cep"])) then value else
  let v := strip_non_digits value in
  let '(v, value) :=
    if bool_decide (id = js "cpf") then (maskCpf v, maskCpf v) else (v, value) in
  let '(v, value) :=
    if bool_decide (id = js "telefone") then (maskTelefone v, maskTelefone v)
    else (v, value) in
  let '(v, value) :=
    if bool_decide (id = js "cep") then (maskCep v, maskCep v) else (v, value) in
  value.

(** The least number of code units a match of the pattern takes. *)
Fixpoint minLen (pat : list atom) : nat :=
  match pat with
  | [] => 0
  | Rep _ lo _ _ :: pat' => lo + minLen pat'
  | AtEnd :: pat' => minLen pat'
  end.

(** The number of digits a field keeps. *)
Definition limit (id : jsstring) : nat :=
  if bool_decide (id = js "cep") then 8 else 11.

End Masks.

(** ** Templates (js/templates.js) *)

Module Templates.

(** [\w] *)
Definition is_word (c : char) : bool :=
  (is_digit c || (65 <=? c) && (c <=? 90) || (97 <=? c) && (c <=? 122)
   || (c =? 95))%N.

(** The longest run of [\w] at the head of [s], and what follows it. *)
Fixpoint word (s : jsstring) : jsstring * jsstring :=
  match s with
  | c :: s' =>
    if is_word c then let '(w, r) := word s' in (c :: w, r) else ([], s)
  | [] => ([], [])
  end.

(** A match of [/\{\{(\w+)\}\}/] at the head of [s]: the key and the
    length of the match. *)
Definition placeholder (s : jsstring) : option (jsstring * nat) :=
  match s with
  | open1 :: open2 :: s' =>
    if ((open1 =? 123) && (open2 =? 123))%N then
      match word s' with
      | (c :: key, close1 :: close2 :: _) =>
        if ((close1 =? 125) && (close2 =? 125))%N
        then Some (c :: key, 4 + length (c :: key)) else None
      | _ => None
      end
    else None
  | _ => None
  end.

(** The data object as the callback reads it: [data key] is [None] when
    [data[key]] is [undefined], else the string the replacement takes. *)
Definition data := jsstring → option jsstring.

(** [html.replace(/\{\{(\w+)\}\}/g, callback)]: the matches are found
    from left to right, each search starting after the previous match;
    [skip] counts the code units of a match still to pass over. *)
Fixpoint interpolate (d : data) (skip : nat) (html : jsstring) : jsstring :=
  match html with
  | [] => []
  | c :: html' =>
    match skip with
    | S skip' => interpolate d skip' html'
    | O =>
      match placeholder html with
      | Some (key, len) =>
        default (take len html) (d key) ++ interpolate d (len - 1) html'
      | None => c :: interpolate d 0 html'
      end
    end
  end.

(** [this.templates] *)
Record engine := {
  templates : gmap jsstring jsstring;
}.

(** [registerTemplate(name, html)] *)
Definition registerTemplate (name html : jsstring) (e : engine) : engine :=
  {| templates := <[name := html]> (templates e) |}.

(** [render(name, data)] *)
Definition render (e : engine) (name : jsstring) (d : data) : jsstring :=
  match templates e !! name with
  | None => []
  | Some html => interpolate d 0 html
  end.

(** The double quote of the template texts. *)
Definition q : jsstring := [34%N].

(** The templates [registerDefaultTemplates] registers, in its order
    (the two components it also registers are functions of their props
    and are not part of this model). *)
Definition errorMessage : jsstring :=
  js "
    <div class=" ++ q ++ js "alert alert-danger" ++ q ++ js " role=" ++ q
  ++ js "alert" ++ q ++ js ">
      <strong>Erro!</strong> {{message}}
    </div>
  ".

Definition successMessage : jsstring :=
  js "
    <div class=" ++ q ++ js "alert alert-success" ++ q ++ js " role=" ++ q
  ++ js "alert" ++ q ++ js ">
      <strong>Sucesso!</strong> {{message}}
    </div>
  ".

Definition warningMessage : jsstring :=
  js "
    <div class=" ++ q ++ js "alert alert-warning" ++ q ++ js " role=" ++ q
  ++ js "alert" ++ q ++ js ">
      <strong>Atenção!</strong> {{message}}
    </div>
  ".

Definition formFieldError : jsstring :=
  js "
    <div class=" ++ q ++ js "form-field form-field--error" ++ q ++ js ">
      <label for=" ++ q ++ js "{{fieldId}}" ++ q ++ js ">{{label}}</label>
      <input id=" ++ q ++ js "{{fieldId}}" ++ q ++ js " name=" ++ q
  ++ js "{{fieldName}}" ++ q ++ js " type=" ++ q ++ js "{{type}}" ++ q
  ++ js " {{attributes}}>
      <span class=" ++ q ++ js "form-field__error" ++ q ++ js ">{{error}}</span>
    </div>
  ".

Definition registerDefaultTemplates (e : engine) : engine :=
  registerTemplate (js "form-field-error") formFieldError
    (registerTemplate (js "warning-message") warningMessage
       (registerTemplate (js "success-message") successMessage
          (registerTemplate (js "error-message") errorMessage e))).

(** The text of a message template before and after its placeholder. *)
Definition before (html : jsstring) : jsstring :=
  take (length html - length (js "{{message}}
    </div>
  ")) html.

Definition after : jsstring := js "
    </div>
  ".

End Templates.

(** ** Page switching (js/spa.js) *)

Module Spa.

(** The object and what it acts on: [this.pages], [this.currentPage],
    the inner HTML of the container when there is one, the entries
    pushed on the session history, the [pageLoaded] events dispatched,
    and the number of clicks whose default action was prevented. *)
Record state := {
  pages : gmap jsstring jsstring;
  currentPage : option jsstring;
  container : option jsstring;
  pushed : list jsstring;
  pageLoaded : list jsstring;
  prevented : nat;
}.

(** [new SimpleSPA()] on a page whose container holds [html]. *)
Definition construct (html : option jsstring) : state :=
  {| pages := ∅; currentPage := None; container := html; pushed := [];
     pageLoaded := []; prevented := 0 |}.

(** [s.startsWith(p)] *)
Definition startsWith (p s : jsstring) : bool := bool_decide (p `prefix_of` s).

(** [registerPage(path, content)] *)
Definition registerPage (path content : jsstring) (s : state) : state :=
  {| pages := <[path := content]> (pages s); currentPage := currentPage s;
     container := container s; pushed := pushed s;
     pageLoaded := pageLoaded s; prevented := prevented s |}.

(** [loadPage(path, pushState)] *)
Definition loadPage (path : jsstring) (pushState : bool) (s : state) : state :=
  match pages s !! path with
  | Some content =>
    {| pages := pages s;
       currentPage := Some path;
       container := (λ _, content) <$> container s;
       pushed := if pushState then pushed s ++ [path] else pushed s;
       pageLoaded := pageLoaded s ++ [path];
       prevented := prevented s |}
  | None => s
  end.

(** [navigate(path)] *)
Definition navigate (path : jsstring) (s : state) : state := loadPage path true s.

(** The test of the click listener on the link's [href] attribute
    ([None] when the link has none). *)
Definition intercepted (href : option jsstring) : bool :=
  match href with
  | Some href =>
    truthy href && negb (startsWith (js "http") href)
    && negb (startsWith (js "#") href) && negb (startsWith (js "mailto:") href)
  | None => false
  end.

Definition preventDefault (s : state) : state :=
  {| pages := pages s; currentPage := currentPage s;
     container := container s; pushed := pushed s;
     pageLoaded := pageLoaded s; prevented := S (prevented s) |}.

(** What happens in the window: a page is registered, a click lands
    inside a link with the given [href] attribute (or outside any link),
    or the session history moves to an entry whose state has the given
    [page] (or has none). *)
Inductive event :=
  | Register (path content : jsstring)
  | Click (link : option (option jsstring))
  | PopState (page : option jsstring).

Definition handle (e : event) (s : state) : state :=
  match e with
  | Register path content => registerPage path content s
  | Click None => s
  | Click (Some href) =>
    if intercepted href then navigate (default [] href) (preventDefault s)
    else s
  | PopState (Some page) => if truthy page then loadPage page false s else s
  | PopState None => s
  end.

Definition run (events : list event) (s : state) : state :=
  foldl (λ s e, handle e s) s events.

(** Whether an event is a click the listener takes over. *)
Definition takenOver (e : event) : bool :=
  match e with
  | Click (Some href) => intercepted href
  | _ => false
  end.

Definition registers (e : event) : bool :=
  match e with
  | Register _ _ => true
  | _ => false
  end.

(** What every run keeps. *)
Record inv (s : state) : Prop := {
  inv_current : currentPage s = last (pageLoaded s);
  inv_loaded : Forall (λ path, is_Some (pages s !! path)) (pageLoaded s);
  inv_pushed : pushed s `sublist_of` pageLoaded s;
}.

End Spa.

(** * Properties *)

(** ** Strings and numbers *)

Section js_facts.
Local Open Scope Z_scope.

Lemma is_digit_range c : is_digit c = true ↔ (48 ≤ c ≤ 57)%N.
Proof. unfold is_digit. rewrite andb_true_iff, !N.leb_le. tauto. Qed.

Lemma parseInt_digit c :
  is_digit c = true → parseInt [c] = Some (Z.of_N c - 48).
Proof.
  intros Hc. apply is_digit_range in Hc.
  assert (Hcases : Exists (eq c) [48; 49; 50; 51; 52; 53; 54; 55; 56; 57]%N).
  { rewrite Exists_exists. exists c. split; [|done].
    rewrite !elem_of_cons. lia. }
  repeat (apply Exists_cons in Hcases as [->|Hcases]; [by vm_compute|]).
  by apply Exists_nil in Hcases.
Qed.

Lemma strip_non_digits_digits s : Forall (λ c, is_digit c = true) (strip_non_digits s).
Proof. apply Forall_forall. intros c Hc. by apply list_elem_of_filter in Hc as [? _]. Qed.

Lemma strip_non_digits_truthy s : strip_non_digits s ≠ [] → truthy s = true.
Proof. by destruct s. Qed.

End js_facts.

Import Rules FV Wf Pass.

Ltac unfold_M :=
  cbv [mbind M_bind mret M_ret get modify lift throw] in *.

(** ** The national identifier rule *)

Section cpf_facts.
Local Open Scope Z_scope.

Lemma repeated_digit_test_replicate d :
  is_digit d = true → repeated_digit_test (replicate 11 d) = true.
Proof.
  intros Hd. cbn. rewrite Hd. cbn. by rewrite !N.eqb_refl.
Qed.

Lemma repeated_digit_test_spec s :
  length s = 11%nat →
  repeated_digit_test s = true → ∃ d, s = replicate 11 d.
Proof.
  intros Hlen Ht. destruct s as [|c rest]; [done|]. exists c.
  cbn in Ht. apply andb_true_iff in Ht as [_ Hall].
  rewrite forallb_forall in Hall.
  cbn in Hlen. injection Hlen as Hlen.
  change (replicate 11 c) with (c :: replicate 10 c). f_equal.
  rewrite <- Hlen. clear Hlen. induction rest as [|x rest IH]; [done|].
  cbn. rewrite <- (proj1 (N.eqb_eq c x)) by (apply Hall; left; done).
  f_equal. apply IH. intros y Hy. apply Hall. by right.
Qed.

(** C2. Every value that normalizes to eleven copies of one digit is
    rejected by the national identifier rule with the "invalid" message. *)
Theorem cpf_repeated now value arg d :
  is_digit d = true →
  strip_non_digits value = replicate 11 d →
  cpf now value arg = Some (js "CPF inválido.").
Proof.
  intros Hd Hs. unfold cpf.
  rewrite strip_non_digits_truthy by (by rewrite Hs).
  rewrite Hs, repeated_digit_test_replicate by done. done.
Qed.

Lemma substring_single (s : jsstring) (i : nat) c :
  s !! i = Some c → substring s (Z.of_nat i) (Z.of_nat i + 1) = [c].
Proof.
  intros Hi. pose proof (lookup_lt_Some _ _ _ Hi) as Hlt.
  unfold substring.
  rewrite (Z.max_l (Z.of_nat i) 0), (Z.max_l (Z.of_nat i + 1) 0) by lia.
  rewrite (Z.min_l (Z.of_nat i)), (Z.min_l (Z.of_nat i + 1)) by lia.
  rewrite Z.min_l, Z.max_r by lia.
  replace (Z.of_nat i + 1 - Z.of_nat i) with 1 by lia.
  rewrite Nat2Z.id. change (Z.to_nat 1) with 1%nat.
  by rewrite (drop_S _ _ _ Hi).
Qed.

Lemma digits_lookup (s : jsstring) (i : nat) c :
  s !! i = Some c → Spec.digit (Spec.digits s) (S i) = Z.of_N c - 48.
Proof.
  intros Hi. unfold Spec.digit, Spec.digits.
  replace (S i - 1)%nat with i by lia.
  apply nth_lookup_Some with (d := 0). by rewrite list_lookup_fmap, Hi.
Qed.

Lemma parseInt_substring (s : jsstring) (i : nat) :
  Forall (λ c, is_digit c = true) s → (i < length s)%nat →
  parseInt (substring s (Z.of_nat i) (Z.of_nat i + 1))
  = Some (Spec.digit (Spec.digits s) (S i)).
Proof.
  intros Hs Hi. destruct (lookup_lt_is_Some_2 _ _ Hi) as [c Hc].
  rewrite (substring_single _ _ _ Hc), (digits_lookup _ _ _ Hc).
  apply parseInt_digit. by eapply Forall_lookup_1 in Hs.
Qed.

(** The summation loops of the rule compute the weighted sum. *)
Lemma sum_loop (s : jsstring) (w : Z) (k j : nat) (a : Z) :
  Forall (λ c, is_digit c = true) s → (j + k ≤ length s)%nat →
  for_steps k (Z.of_nat j + 1) (Z.of_nat (j + k))
    (λ i sum, add sum (mul (parseInt (substring s (i - 1) i)) (Some (w - i))))
    (Some a)
  = Some (a + foldr Z.add 0
            ((λ i, Spec.digit (Spec.digits s) i * (w - Z.of_nat i)) <$> seq (S j) k)).
Proof.
  intros Hs. revert j a. induction k as [|k IH]; intros j a Hle.
  - cbn. f_equal. lia.
  - cbn [for_steps]. rewrite (proj2 (Z.leb_le _ _)) by lia.
    replace (Z.of_nat j + 1 - 1) with (Z.of_nat j) by lia.
    rewrite parseInt_substring by (done || lia). cbn [mul add].
    replace (Z.of_nat j + 1 + 1) with (Z.of_nat (S j) + 1) by lia.
    replace (j + S k)%nat with (S j + k)%nat by lia.
    rewrite IH by lia. f_equal. cbn [seq fmap list_fmap foldr].
    replace (Z.of_nat (S j)) with (Z.of_nat j + 1) by lia. lia.
Qed.

Lemma weighted_sum_loop (s : jsstring) (n : nat) (w : Z) :
  Forall (λ c, is_digit c = true) s → (n ≤ length s)%nat →
  for_range 1 (Z.of_nat n)
    (λ i sum, add sum (mul (parseInt (substring s (i - 1) i)) (Some (w - i))))
    (Some 0)
  = Some (Spec.weighted_sum (Spec.digits s) n w).
Proof.
  intros Hs Hn. unfold for_range.
  replace (Z.to_nat (Z.of_nat n - 1 + 1)) with n by lia.
  apply (sum_loop s w n 0 0 Hs). lia.
Qed.

Lemma digit_nonneg (s : jsstring) i :
  Forall (λ c, is_digit c = true) s → 0 ≤ Spec.digit (Spec.digits s) i.
Proof.
  intros Hs. unfold Spec.digit, Spec.digits.
  destruct (decide (i - 1 < length s)%nat) as [Hi|Hi].
  - destruct (lookup_lt_is_Some_2 _ _ Hi) as [c Hc].
    rewrite (nth_lookup_Some _ _ 0 (Z.of_N c - 48)) by (by rewrite list_lookup_fmap, Hc).
    eapply Forall_lookup_1 in Hs; [|done]. apply is_digit_range in Hs. lia.
  - rewrite nth_overflow; [done|]. rewrite length_fmap. lia.
Qed.

Lemma weighted_sum_nonneg (s : jsstring) (n : nat) (w : Z) :
  Forall (λ c, is_digit c = true) s → Z.of_nat n ≤ w →
  0 ≤ Spec.weighted_sum (Spec.digits s) n w.
Proof.
  intros Hs Hw. unfold Spec.weighted_sum.
  assert (Hall : Forall (λ i, (i ≤ n)%nat) (seq 1 n)).
  { apply Forall_forall. intros i Hi. apply elem_of_seq in Hi. lia. }
  induction Hall as [|i l Hi _ IH]; cbn; [done|].
  pose proof (digit_nonneg s i Hs). nia.
Qed.

(** One checksum test of the rule, against the check digit of the
    specification. *)
Lemma check_test (s : jsstring) (n : nat) (w : Z) :
  Forall (λ c, is_digit c = true) s → (n < length s)%nat → Z.of_nat n ≤ w →
  let ds := Spec.digits s in
  let sum := Some (Spec.weighted_sum ds n w) in
  let remainder := rem (mul sum (Some 10)) (Some 11) in
  let remainder :=
    if strict_eq remainder (Some 10) || strict_eq remainder (Some 11)
    then Some 0 else remainder in
  strict_ne remainder (parseInt (substring s (Z.of_nat n) (Z.of_nat n + 1)))
  = negb (bool_decide (Spec.check_digit ds n w = Spec.digit ds (S n))).
Proof.
  intros Hs Hn Hw. cbn zeta. rewrite parseInt_substring by done.
  unfold Spec.check_digit. cbn [mul rem Z.eqb].
  rewrite Z.rem_mod_nonneg
    by (pose proof (weighted_sum_nonneg s n w Hs Hw); lia).
  set (r := (Spec.weighted_sum (Spec.digits s) n w * 10) `mod` 11).
  unfold strict_ne. cbn [strict_eq]. f_equal.
  repeat case_bool_decide; cbn [strict_eq];
    destruct (r =? 10) eqn:E1, (r =? 11) eqn:E2; cbn [orb strict_eq]; lia.
Qed.

Lemma cpf_eleven_digits now value arg :
  let s := strip_non_digits value in
  let ds := Spec.digits s in
  length s = 11%nat →
  cpf now value arg =
    if repeated_digit_test s then Some (js "CPF inválido.")
    else if bool_decide (Spec.check_digit ds 9 11 = Spec.digit ds 10) then
      if bool_decide (Spec.check_digit ds 10 12 = Spec.digit ds 11) then None
      else Some (js "CPF inválido.")
    else Some (js "CPF inválido.").
Proof.
  intros s ds Hlen.
  pose proof (strip_non_digits_digits value) as Hdig. fold s in Hdig.
  unfold cpf. rewrite strip_non_digits_truthy by (fold s; by destruct s).
  fold s. rewrite Hlen. cbn [Nat.eqb negb].
  destruct (repeated_digit_test s); [done|]. cbn zeta.
  pose proof (weighted_sum_loop s 9 11 Hdig) as L1.
  pose proof (weighted_sum_loop s 10 12 Hdig) as L2.
  pose proof (check_test s 9 11 Hdig) as T1.
  pose proof (check_test s 10 12 Hdig) as T2.
  cbn zeta in T1, T2.
  change (Z.of_nat 9) with 9 in *. change (Z.of_nat 10) with 10 in *.
  change (9 + 1) with 10 in *. change (10 + 1) with 11 in *.
  rewrite L1, T1, L2, T2 by lia. fold ds.
  by repeat case_bool_decide.
Qed.

Lemma not_repeated (s : jsstring) :
  length s = 11%nat → (¬ ∃ d, Spec.digits s = replicate 11 d) →
  repeated_digit_test s = false.
Proof.
  intros Hlen Hne. destruct (repeated_digit_test s) eqn:E; [|done].
  destruct (repeated_digit_test_spec s Hlen E) as [d ->].
  destruct Hne. by exists (Z.of_N d - 48).
Qed.

(** C1. On a value with eleven digits after normalization the rule
    fails with the "invalid" message when the first check digit (weights
    [11 - i] over digits 1..9) differs from digit 10, or the second
    (weights [12 - i] over digits 1..10) differs from digit 11; when both
    agree and the digits are not all identical it passes, as does
    "52998224725". *)
Theorem cpf_check_digits now value arg :
  let ds := Spec.digits (strip_non_digits value) in
  length ds = 11%nat →
  (Spec.check_digit ds 9 11 ≠ Spec.digit ds 10 →
     cpf now value arg = Some (js "CPF inválido."))
  ∧ (Spec.check_digit ds 10 12 ≠ Spec.digit ds 11 →
     cpf now value arg = Some (js "CPF inválido."))
  ∧ (Spec.check_digit ds 9 11 = Spec.digit ds 10 →
     Spec.check_digit ds 10 12 = Spec.digit ds 11 →
     (¬ ∃ d, ds = replicate 11 d) →
     cpf now value arg = None)
  ∧ cpf now (js "52998224725") arg = None.
Proof.
  intros ds Hlen. unfold ds, Spec.digits in Hlen. rewrite length_fmap in Hlen.
  rewrite (cpf_eleven_digits now value arg Hlen). fold ds.
  repeat split.
  - intros Hne. destruct (repeated_digit_test _); [done|].
    by rewrite bool_decide_eq_false_2.
  - intros Hne. destruct (repeated_digit_test _); [done|].
    case_bool_decide; [|done]. by rewrite bool_decide_eq_false_2.
  - intros H1 H2 Hrep. rewrite not_repeated by done.
    by rewrite !bool_decide_eq_true_2.
Qed.

(** The check digits of "529.982.247-25". *)
Lemma cpf_check_digits_witness :
  let ds := Spec.digits (strip_non_digits (js "529.982.247-25")) in
  length ds = 11%nat ∧ Spec.check_digit ds 9 11 = Spec.digit ds 10
  ∧ cpf 0 (js "529.982.247-25") NaN = None.
Proof.
  intros ds. assert (Hlen : length ds = 11%nat) by reflexivity.
  split; [exact Hlen|]. split; [reflexivity|].
  destruct (cpf_check_digits 0 (js "529.982.247-25") NaN Hlen) as (_ & _ & Hpass & _).
  apply Hpass; [reflexivity..|].
  intros [d Hd]. vm_compute in Hd. congruence.
Defined.

End cpf_facts.

(** ** Length, postal code and the empty value *)

Section rule_facts.
Local Open Scope Z_scope.

Lemma minlength_message_truthy n :
  truthy (js "Este campo deve conter no mínimo " ++ num_to_string n
          ++ js " caracteres.") = true.
Proof. done. Qed.

(** C3, amended. [minlength] fails, with the "at least N characters"
    message, exactly when the value is non-empty and shorter than [n]; an
    empty value passes whatever [n] is. "abc" passes and "ab" fails for a
    bound of 3. *)
Theorem minlength_fails_iff now v n :
  (is_error (minlength now v (Some n)) = true
   ↔ v ≠ [] ∧ Z.of_nat (length v) < n)
  ∧ (minlength now v (Some n) = None
     ∨ minlength now v (Some n)
       = Some (js "Este campo deve conter no mínimo " ++ num_to_string (Some n)
               ++ js " caracteres."))
  ∧ minlength now (js "abc") (Some 3) = None
  ∧ is_error (minlength now (js "ab") (Some 3)) = true.
Proof.
  split; [|split; [|done]].
  - unfold minlength. cbn [lt].
    destruct v as [|c v]; cbn [truthy andb]; [split; [done|by intros [? _]]|].
    destruct (Z.ltb_spec (Z.of_nat (length (c :: v))) n) as [Hlt|Hge].
    + cbn [is_error]. rewrite minlength_message_truthy. naive_solver.
    + split; [done|]. intros [_ ?]. lia.
  - unfold minlength. destruct (_ && _); auto.
Qed.

(** C3 as stated fails on the empty value: it is shorter than 1 and
    passes. *)
Lemma minlength_empty_counterexample :
  ¬ (is_error (minlength 0 (js "") (Some 1)) = true
     ↔ Z.of_nat (length (js "")) < 1).
Proof. intros [_ Hfail]. by specialize (Hfail eq_refl). Qed.

(** C4, amended. A non-empty value passes the postal code rule exactly
    when eight digits remain after normalization, and fails with the
    "8 digits" message otherwise; the empty value passes. *)
Theorem cep_passes_iff now v arg :
  (v ≠ [] → (cep now v arg = None ↔ length (strip_non_digits v) = 8%nat))
  ∧ (v ≠ [] → length (strip_non_digits v) ≠ 8%nat →
     cep now v arg = Some (js "CEP deve conter 8 dígitos."))
  ∧ cep now [] arg = None
  ∧ cep now (js "01310-100") arg = None
  ∧ cep now (js "0131-100") arg = Some (js "CEP deve conter 8 dígitos.").
Proof.
  assert (Hcep : v ≠ [] → cep now v arg =
    if bool_decide (length (strip_non_digits v) = 8%nat) then None
    else Some (js "CEP deve conter 8 dígitos.")).
  { intros Hv. unfold cep. destruct v; [done|]. cbn [truthy negb].
    case_bool_decide as Hl.
    - by rewrite Hl.
    - by rewrite (proj2 (Nat.eqb_neq _ _) Hl). }
  repeat split; try done.
  - intros Hp. rewrite Hcep in Hp by done. by case_bool_decide.
  - intros Hl. by rewrite Hcep, bool_decide_eq_true_2.
  - intros Hv Hl. by rewrite Hcep, bool_decide_eq_false_2.
Qed.

(** "01310-100" keeps eight digits. *)
Lemma cep_passes_iff_witness :
  js "01310-100" ≠ [] ∧
  (cep 0 (js "01310-100") NaN = None
   ↔ length (strip_non_digits (js "01310-100")) = 8%nat).
Proof.
  assert (Hne : js "01310-100" ≠ []) by (by vm_compute).
  split; [exact Hne|].
  exact (proj1 (cep_passes_iff 0 (js "01310-100") NaN) Hne).
Defined.

(** C4 as stated fails on the empty value: no digit remains and it
    passes. *)
Lemma cep_empty_counterexample :
  ¬ (cep 0 (js "") NaN = None ↔ length (strip_non_digits (js "")) = 8%nat).
Proof. intros [Hpass _]. by specialize (Hpass eq_refl). Qed.

Section with_host.
Context `{DateHost}.

(** The rules registered by [registerDefaultValidators]. *)
Lemma registerDefaultValidators_spec s :
  registerDefaultValidators s = Some (tt, set_validators
    (<[js "estado" := estado]> (<[js "required" := required]>
    (<[js "minlength" := minlength]> (<[js "nasc" := nasc]>
    (<[js "cep" := cep]> (<[js "telefone" := telefone]>
    (<[js "cpf" := cpf]> (<[js "email" := email]> (validators s)))))))))
    s).
Proof.
  destruct s.
  cbv [registerDefaultValidators registerValidator mbind M_bind modify
       set_validators validators formId controls containers alerts fields
       errors localStorage trace].
  reflexivity.
Qed.

(** C10. Of the rules registered by [registerDefaultValidators] only
    [required] and [estado] reject the empty value; [email], [cpf],
    [telefone], [cep], [nasc] and [minlength] return no error on it. *)
Theorem empty_value_rejected_only_by_required_and_estado s s' name fn now arg :
  FV.validators s = ∅ →
  FV.registerDefaultValidators s = Some (tt, s') →
  FV.validators s' !! name = Some fn →
  (is_error (fn now [] arg) = true → name = js "required" ∨ name = js "estado")
  ∧ (name ∈ [js "email"; js "cpf"; js "telefone"; js "cep"; js "nasc";
              js "minlength"] → fn now [] arg = None)
  ∧ (name = js "required" ∨ name = js "estado" → is_error (fn now [] arg) = true).
Proof.
  intros Hempty Hreg Hfn. rewrite registerDefaultValidators_spec in Hreg.
  injection Hreg as <-. cbn [validators set_validators] in Hfn.
  rewrite Hempty in Hfn.
  repeat (apply lookup_insert_Some in Hfn as [[<- <-]|[? Hfn]]);
    [..|by rewrite lookup_empty in Hfn].
  all: repeat split.
  all: first
    [ intros _; vm_compute; first [done | by left | by right]
    | by (intros Hx; vm_compute in Hx)
    | by (intros Hx; apply (bool_decide_pack _) in Hx; vm_compute in Hx)
    | by (intros [Hx|Hx]; vm_compute in Hx) ].
Qed.

End with_host.

End rule_facts.

(** ** The birth date rule *)

Local Open Scope Z_scope.

Section utc.
Import UTC.

Lemma DayFromYear_mono a b : a ≤ b → DayFromYear a ≤ DayFromYear b.
Proof. unfold DayFromYear. Z.div_mod_to_equations. lia. Qed.

Lemma DayFromYear_lower y : 1970 ≤ y → 365 * (y - 1970) ≤ DayFromYear y.
Proof. unfold DayFromYear. Z.div_mod_to_equations. lia. Qed.

Lemma DayFromYear_upper y : 1970 ≤ y → DayFromYear y ≤ 366 * (y - 1970).
Proof. unfold DayFromYear. Z.div_mod_to_equations. lia. Qed.

Lemma DayFromYear_lower_neg y : y ≤ 1970 → 366 * (y - 1970) ≤ DayFromYear y.
Proof. unfold DayFromYear. Z.div_mod_to_equations. lia. Qed.

Lemma DayFromYear_upper_neg y : y ≤ 1970 → DayFromYear y ≤ 365 * (y - 1970).
Proof. unfold DayFromYear. Z.div_mod_to_equations. lia. Qed.

Lemma year_search_spec steps d y :
  DayFromYear (y - Z.of_nat steps) ≤ d → d < DayFromYear (y + 1) →
  DayFromYear (year_search steps d y) ≤ d
  ∧ d < DayFromYear (year_search steps d y + 1).
Proof.
  revert y. induction steps as [|k IH]; intros y Hlo Hhi; cbn [year_search].
  - by rewrite Z.sub_0_r in Hlo.
  - destruct (Z.leb_spec (DayFromYear y) d) as [Hle|Hgt]; [done|].
    apply IH.
    + replace (y - 1 - Z.of_nat k) with (y - Z.of_nat (S k)) by lia. done.
    + by replace (y - 1 + 1) with y by lia.
Qed.

Lemma YearFromDay_spec d :
  DayFromYear (YearFromDay d) ≤ d < DayFromYear (YearFromDay d + 1).
Proof.
  unfold YearFromDay. destruct (Z.leb_spec 0 d) as [Hd|Hd].
  - set (hi := 1970 + d `div` 365). set (lo := 1970 + d `div` 366).
    assert (Hsteps : 0 ≤ hi - lo ∧ 1970 ≤ lo ∧ 366 * (lo - 1970) ≤ d
                     ∧ d < 365 * (hi + 1 - 1970))
      by (unfold hi, lo; Z.div_mod_to_equations; lia).
    clearbody hi lo. apply year_search_spec.
    + rewrite Z2Nat.id by lia. replace (hi - (hi - lo)) with lo by lia.
      etrans; [apply DayFromYear_upper|]; lia.
    + eapply Z.lt_le_trans; [|apply DayFromYear_lower]; lia.
  - set (hi := 1970 + d `div` 366 + 1). set (lo := 1970 + d `div` 365).
    assert (Hsteps : 0 ≤ hi - lo ∧ lo ≤ 1970 ∧ hi + 1 ≤ 1970 + 1
                     ∧ 365 * (lo - 1970) ≤ d
                     ∧ d < 366 * (hi - 1970))
      by (unfold hi, lo; Z.div_mod_to_equations; lia).
    clearbody hi lo. apply year_search_spec.
    + rewrite Z2Nat.id by lia. replace (hi - (hi - lo)) with lo by lia.
      etrans; [apply DayFromYear_upper_neg|]; lia.
    + destruct (decide (hi + 1 ≤ 1970)).
      * eapply Z.lt_le_trans; [|apply DayFromYear_lower_neg]; lia.
      * replace (hi + 1) with 1971 by lia.
        assert (DayFromYear 1971 = 365) as -> by reflexivity. lia.
Qed.

Lemma YearFromTime_mono a b : a ≤ b → YearFromTime a ≤ YearFromTime b.
Proof.
  intros Hab. unfold YearFromTime.
  assert (Hd : Day a ≤ Day b) by (unfold Day, msPerDay; Z.div_mod_to_equations; lia).
  pose proof (YearFromDay_spec (Day a)) as [Ha _].
  pose proof (YearFromDay_spec (Day b)) as [_ Hb].
  destruct (Z.le_gt_cases (YearFromDay (Day a)) (YearFromDay (Day b))) as [|Hgt]; [done|].
  pose proof (DayFromYear_mono (YearFromDay (Day b) + 1) (YearFromDay (Day a))). lia.
Qed.

End utc.

Section nasc_facts.
Context `{DateHost}.

(** A birth year less than eighteen years before the current year is
    rejected, whatever the month and day. *)
Lemma nasc_under_18 now value arg t :
  value ≠ [] → Date_parse value = Some t →
  getFullYear now - getFullYear t < 18 →
  nasc now value arg = Some (js "Você deve ter pelo menos 18 anos.").
Proof.
  intros Hv Ht Hage. unfold nasc. destruct value; [done|]. cbn [truthy negb].
  rewrite Ht. cbn [fmap option_fmap option_map sub lt].
  by rewrite (proj2 (Z.ltb_lt _ _) Hage).
Qed.

(** A date after the clock reading never gets the "future" message when
    years grow with time: its year is not before the current one, so the
    age test has already rejected it. *)
Lemma nasc_future_reports_age now value arg t :
  (∀ a b, a ≤ b → getFullYear a ≤ getFullYear b) →
  value ≠ [] → Date_parse value = Some t → now < t →
  nasc now value arg = Some (js "Você deve ter pelo menos 18 anos.").
Proof.
  intros Hmono Hv Ht Hfuture. apply (nasc_under_18 now value arg t); [done..|].
  specialize (Hmono now t). lia.
Qed.

Lemma nasc_never_reports_future now value arg :
  (∀ a b, a ≤ b → getFullYear a ≤ getFullYear b) →
  nasc now value arg ≠ Some (js "Data de nascimento não pode ser no futuro.").
Proof.
  intros Hmono. unfold nasc. destruct (truthy value); [|done]. cbn [negb].
  destruct (Date_parse value) as [t|]; cbn [fmap option_fmap option_map sub lt gt].
  - destruct (Z.ltb_spec (getFullYear now - getFullYear t) 18) as [|Hage].
    + by vm_compute.
    + destruct (Z.ltb_spec now t) as [Hlt|]; [|done].
      specialize (Hmono now t). lia.
  - done.
Qed.

End nasc_facts.

(** C5, at a date in the future: on 2026-11-02 the value "2999-01-01"
    parses to a date after the clock reading and is rejected with the
    age message, not with the "future" message. *)
Theorem nasc_future_date_reports_age :
  UTC.parse_iso_date (js "2999-01-01") = Some 32472144000000
  ∧ Sample.now < 32472144000000
  ∧ nasc (H := UTC.host) Sample.now (js "2999-01-01") NaN
    = Some (js "Você deve ter pelo menos 18 anos.")
  ∧ nasc (H := UTC.host) Sample.now (js "2999-01-01") NaN
    ≠ Some (js "Data de nascimento não pode ser no futuro.").
Proof. by vm_compute. Qed.

(** In the UTC host no value at all gets the "future" message. *)
Lemma nasc_utc_never_reports_future now value arg :
  nasc (H := UTC.host) now value arg
  ≠ Some (js "Data de nascimento não pode ser no futuro.").
Proof. apply nasc_never_reports_future. apply YearFromTime_mono. Qed.

Local Close Scope Z_scope.

(** ** The error presenter *)

Section presenter.

Lemma removeFirst_none cls ns :
  filter (λ n, Dom.matches cls n = true) ns = [] → Dom.removeFirst cls ns = ns.
Proof.
  induction ns as [|n ns IH]; [done|]. cbn [Dom.removeFirst]. rewrite filter_cons.
  destruct (decide (Dom.matches cls n = true)) as [E|E]; [done|].
  apply not_true_is_false in E. rewrite E. intros Hf. by rewrite IH.
Qed.

Lemma removeFirst_filter cls ns :
  filter (λ n, Dom.matches cls n = true) (Dom.removeFirst cls ns)
  = tail (filter (λ n, Dom.matches cls n = true) ns).
Proof.
  induction ns as [|n ns IH]; [done|]. cbn [Dom.removeFirst]. rewrite filter_cons.
  destruct (decide (Dom.matches cls n = true)) as [E|E].
  - by rewrite E.
  - rewrite (not_true_is_false _ E), filter_cons, decide_False by done. done.
Qed.

Lemma removeFirst_app_fresh cls ns n :
  Dom.matches cls n = true →
  filter (λ n, Dom.matches cls n = true) ns = [] →
  Dom.removeFirst cls (ns ++ [n]) = ns.
Proof.
  intros Hn. induction ns as [|m ns IH]; cbn [Dom.removeFirst app].
  - by rewrite Hn.
  - rewrite filter_cons.
    destruct (decide (Dom.matches cls m = true)) as [E|E]; [done|].
    rewrite (not_true_is_false _ E). intros Hf. by rewrite IH.
Qed.

Lemma single_display_removed cls ns :
  length (filter (λ n, Dom.matches cls n = true) ns) ≤ 1 →
  filter (λ n, Dom.matches cls n = true) (Dom.removeFirst cls ns) = [].
Proof.
  intros Hle. rewrite removeFirst_filter.
  destruct (filter _ ns) as [|? [|? ?]]; cbn in *; [done..|lia].
Qed.

Lemma showFieldError_unregistered fieldId message s :
  fields s !! fieldId = None → showFieldError fieldId message s = Some (tt, s).
Proof. intros Hf. unfold showFieldError. unfold_M. by rewrite Hf. Qed.

Lemma showFieldError_registered fieldId message s ref c p :
  fields s !! fieldId = Some ref → controls s !! ref = Some c →
  containers s !! Dom.parentElement c = Some p →
  showFieldError fieldId message s = Some (tt, shown fieldId message ref c p s).
Proof.
  intros Hf Hc Hp. unfold showFieldError. unfold_M. rewrite Hf, Hc.
  unfold_M. by rewrite Hp.
Qed.

Lemma clearFieldError_unregistered fieldId s :
  fields s !! fieldId = None → clearFieldError fieldId s = Some (tt, s).
Proof. intros Hf. unfold clearFieldError. unfold_M. by rewrite Hf. Qed.

Lemma clearFieldError_registered fieldId s ref c p :
  fields s !! fieldId = Some ref → controls s !! ref = Some c →
  containers s !! Dom.parentElement c = Some p →
  clearFieldError fieldId s = Some (tt, cleared fieldId ref c p s).
Proof.
  intros Hf Hc Hp. unfold clearFieldError. unfold_M. rewrite Hf, Hc.
  unfold_M. by rewrite Hp.
Qed.

Lemma error_node_matches message :
  Dom.matches (js "form-field__error")
    {| Dom.nodeClasses := {[js "form-field__error"]};
       Dom.textContent := message;
       Dom.nodeAttrs := {[js "role" := js "alert"]} |} = true.
Proof. unfold Dom.matches. apply bool_decide_eq_true_2. set_solver. Qed.

Lemma difference_again (X Y : gset jsstring) : X ∖ Y ∖ Y = X ∖ Y.
Proof. set_solver. Qed.

Lemma shown_shown fieldId message s ref c p :
  controls s !! ref = Some c →
  containers s !! Dom.parentElement c = Some p →
  length (errorDisplays p) ≤ 1 →
  let s1 := shown fieldId message ref c p s in
  ∃ c1 p1, controls s1 !! ref = Some c1
    ∧ containers s1 !! Dom.parentElement c1 = Some p1
    ∧ shown fieldId message ref c1 p1 s1 = s1.
Proof.
  intros Hc Hp Hone s1.
  pose proof (lookup_lt_Some _ _ _ Hc) as Hlc.
  pose proof (lookup_lt_Some _ _ _ Hp) as Hlp.
  eexists _, _. split; [|split].
  - cbn. by apply list_lookup_insert_eq.
  - cbn. by apply list_lookup_insert_eq.
  - unfold s1, shown, set_containers, set_controls, set_errors. cbn.
    rewrite insert_insert_eq, !list_insert_insert_eq.
    unfold Dom.setAttribute, Dom.setClassList. cbn.
    rewrite insert_insert_eq, <- !(assoc_L (∪)), !union_idemp_L.
    rewrite removeFirst_app_fresh
      by (apply error_node_matches || by apply single_display_removed).
    done.
Qed.

Lemma cleared_cleared fieldId s ref c p :
  controls s !! ref = Some c →
  containers s !! Dom.parentElement c = Some p →
  length (errorDisplays p) ≤ 1 →
  let s1 := cleared fieldId ref c p s in
  ∃ c1 p1, controls s1 !! ref = Some c1
    ∧ containers s1 !! Dom.parentElement c1 = Some p1
    ∧ cleared fieldId ref c1 p1 s1 = s1.
Proof.
  intros Hc Hp Hone s1.
  pose proof (lookup_lt_Some _ _ _ Hc) as Hlc.
  pose proof (lookup_lt_Some _ _ _ Hp) as Hlp.
  eexists _, _. split; [|split].
  - cbn. by apply list_lookup_insert_eq.
  - cbn. by apply list_lookup_insert_eq.
  - unfold s1, cleared, set_containers, set_controls, set_errors. cbn.
    rewrite delete_delete_eq, !list_insert_insert_eq.
    unfold Dom.setAttribute, Dom.setClassList. cbn.
    rewrite insert_insert_eq.
    rewrite removeFirst_none by (by apply single_display_removed).
    by rewrite !difference_again.
Qed.

(** C9, amended. On a field the presenter can act on, whose container
    shows at most one error display, a second [showFieldError] with the
    same message and a second [clearFieldError] change nothing. *)
Theorem presenter_idempotent s fieldId message :
  presentable s fieldId →
  ∃ s1 s2,
    showFieldError fieldId message s = Some (tt, s1)
    ∧ showFieldError fieldId message s1 = Some (tt, s1)
    ∧ clearFieldError fieldId s = Some (tt, s2)
    ∧ clearFieldError fieldId s2 = Some (tt, s2).
Proof.
  unfold presentable. intros Hp.
  destruct (fields s !! fieldId) as [ref|] eqn:Hf.
  - destruct (controls s !! ref) as [c|] eqn:Hc; [|done].
    destruct (containers s !! Dom.parentElement c) as [p|] eqn:Hpar; [|done].
    destruct (shown_shown fieldId message s ref c p Hc Hpar Hp)
      as (c1 & p1 & Hc1 & Hp1 & Hs1).
    destruct (cleared_cleared fieldId s ref c p Hc Hpar Hp)
      as (c2 & p2 & Hc2 & Hp2 & Hs2).
    exists (shown fieldId message ref c p s), (cleared fieldId ref c p s).
    split; [by apply showFieldError_registered|].
    split; [by rewrite (showFieldError_registered _ _ _ ref c1 p1), Hs1|].
    split; [by apply clearFieldError_registered|].
    by rewrite (clearFieldError_registered _ _ ref c2 p2), Hs2.
  - exists s, s. by rewrite showFieldError_unregistered, clearFieldError_unregistered.
Qed.

End presenter.

(** ** A validation pass *)

Section pass_facts.

Lemma set_trace_id s : set_trace (trace s) s = s.
Proof. by destruct s. Qed.

Lemma callValidator_invoke now name value arg s :
  callValidator now name value arg s =
    match Pass.invoke (validators s) now name value arg with
    | Some r => Some (r, set_trace (trace s ++ [(name, r)]) s)
    | None => None
    end.
Proof.
  unfold callValidator, Pass.invoke. unfold_M.
  by destruct (validators s !! name).
Qed.

Lemma validateField_pass now i s f :
  controls s !! i = Some f →
  validateField now i s =
    match Pass.rulesRun (validators s) now f with
    | Some (calls, error) =>
      Pass.present (Dom.id f) error (set_trace (trace s ++ calls) s)
    | None => None
    end.
Proof.
  intros Hc. unfold validateField, Pass.rulesRun.
  cbv [mbind M_bind mret M_ret get modify lift throw option_bind]. rewrite Hc.
  destruct (Dom.hasAttribute f (js "required")).
  - rewrite callValidator_invoke.
    destruct (Pass.invoke (validators s) now (js "required") _ _) as [r0|]; [|done].
    cbn [validators set_trace].
    destruct (negb (is_error (if is_error r0 then r0 else None)) && truthy (Dom.value f)).
    + destruct (kindRule _ _) as [rule|].
      * rewrite callValidator_invoke. cbn [validators set_trace trace].
        destruct (Pass.invoke (validators s) now rule _ _) as [r1|]; [|done].
        destruct (negb (is_error r1) && _).
        -- rewrite callValidator_invoke. cbn [validators set_trace trace].
           destruct (Pass.invoke (validators s) now (js "minlength") _ _) as [r2|]; [|done].
           by rewrite <- !(assoc_L (++)).
        -- by rewrite <- !(assoc_L (++)).
      * destruct (negb (is_error _) && _).
        -- rewrite callValidator_invoke. cbn [validators set_trace trace].
           destruct (Pass.invoke (validators s) now (js "minlength") _ _) as [r2|]; [|done].
           by rewrite <- !(assoc_L (++)).
        -- done.
    + done.
  - cbn [is_error negb andb].
    destruct (truthy (Dom.value f)).
    + destruct (kindRule _ _) as [rule|].
      * rewrite callValidator_invoke.
        destruct (Pass.invoke (validators s) now rule _ _) as [r1|]; [|done].
        destruct (negb (is_error r1) && _).
        -- rewrite callValidator_invoke. cbn [validators set_trace trace].
           destruct (Pass.invoke (validators s) now (js "minlength") _ _) as [r2|]; [|done].
           by rewrite <- !(assoc_L (++)).
        -- done.
      * cbn [is_error negb andb].
        destruct (Dom.hasAttribute f (js "minlength")).
        -- rewrite callValidator_invoke.
           destruct (Pass.invoke (validators s) now (js "minlength") _ _) as [r2|]; [|done].
           done.
        -- by rewrite app_nil_r, set_trace_id.
    + by rewrite app_nil_r, set_trace_id.
Qed.

Lemma kindRule_in fieldType fieldId rule :
  kindRule fieldType fieldId = Some rule → rule ∈ kindRules.
Proof.
  unfold kindRule, kindRules. intros Hk.
  repeat (case_bool_decide; [injection Hk as <-; by repeat constructor|]). done.
Qed.

Lemma kindRules_builtin rule : rule ∈ kindRules → rule ∈ builtin.
Proof.
  unfold kindRules, builtin. rewrite !elem_of_cons, !elem_of_nil.
  intros [->|[->|[->|[->|[->|[->|[]]]]]]]; tauto.
Qed.

Lemma invoke_total vs now name value arg :
  Forall (λ n, is_Some (vs !! n)) builtin → name ∈ builtin →
  ∃ fn, vs !! name = Some fn ∧ invoke vs now name value arg = Some (fn now value arg).
Proof.
  intros Hvs Hin. rewrite Forall_forall in Hvs.
  destruct (Hvs _ Hin) as [fn Hfn]. exists fn. split; [done|].
  unfold invoke. by rewrite Hfn.
Qed.

Lemma failures_cons_error name r calls :
  is_error r = true → failures ((name, r) :: calls) = (name, r) :: failures calls.
Proof. intros Hr. unfold failures. by rewrite filter_cons, decide_True. Qed.

Lemma failures_cons_pass name r calls :
  is_error r = false → failures ((name, r) :: calls) = failures calls.
Proof.
  intros Hr. unfold failures. rewrite filter_cons, decide_False; [done|].
  cbn. by rewrite Hr.
Qed.

Ltac shape_goal :=
  lazymatch goal with
  | |- _ ∧ _ => split; shape_goal
  | |- _ ∨ _ => first [left; solve [shape_goal] | right; solve [shape_goal]]
  | |- ∃ _, _ => eexists; shape_goal
  | |- _ =>
    first [ reflexivity | eassumption
          | by rewrite ?failures_cons_pass by eassumption
          | by (erewrite failures_cons_error by eassumption;
                rewrite ?failures_cons_pass by eassumption) ]
  end.

Ltac shape_case Hreq req kind minl :=
  eexists _, _; split; [reflexivity|]; split;
  [ exists req, kind, minl; rewrite Hreq; cbn [app]; shape_goal
  | cbn [app]; rewrite ?failures_cons_pass by eassumption; shape_goal ].

Lemma rulesRun_shape vs now f :
  Forall (λ n, is_Some (vs !! n)) builtin →
  ∃ calls error, rulesRun vs now f = Some (calls, error) ∧ pass_shape f calls error.
Proof.
  intros Hvs. unfold rulesRun. cbv [mbind option_bind].
  destruct (invoke_total vs now (js "required") (Dom.value f) NaN Hvs)
    as (fr & _ & ->); [by repeat constructor|].
  destruct (invoke_total vs now (js "minlength") (Dom.value f)
              (parseInt (default [] (Dom.attributes f !! js "minlength"))) Hvs)
    as (fm & _ & ->); [by repeat constructor|].
  set (r0 := fr now (Dom.value f) NaN).
  set (r2 := fm now (Dom.value f) _).
  destruct (Dom.hasAttribute f (js "required")) eqn:Hreq.
  - destruct (is_error r0) eqn:E0.
    + rewrite E0. cbn [negb andb]. shape_case Hreq [(js "required", r0)] (@nil (jsstring * result)) (@nil (jsstring * result)).
    + cbn [is_error negb andb].
      destruct (truthy (Dom.value f)) eqn:Hv; cbn [andb].
      * destruct (kindRule _ _) as [rule|] eqn:Hk.
        -- pose proof (kindRule_in _ _ _ Hk) as Hin.
           destruct (invoke_total vs now rule (Dom.value f) NaN Hvs
                       (kindRules_builtin _ Hin)) as (fk & _ & ->).
           set (r1 := fk now (Dom.value f) NaN).
           destruct (is_error r1) eqn:E1; cbn [negb andb].
           ++ shape_case Hreq [(js "required", r0)] [(rule, r1)] (@nil (jsstring * result)).
           ++ destruct (Dom.hasAttribute f (js "minlength")) eqn:Hmin;
              destruct (is_error r2) eqn:E2.
              ** shape_case Hreq [(js "required", r0)] [(rule, r1)] [(js "minlength", r2)].
              ** shape_case Hreq [(js "required", r0)] [(rule, r1)] [(js "minlength", r2)].
              ** shape_case Hreq [(js "required", r0)] [(rule, r1)] (@nil (jsstring * result)).
              ** shape_case Hreq [(js "required", r0)] [(rule, r1)] (@nil (jsstring * result)).
        -- cbn [is_error negb andb].
           destruct (Dom.hasAttribute f (js "minlength")) eqn:Hmin;
             destruct (is_error r2) eqn:E2.
           ++ shape_case Hreq [(js "required", r0)] (@nil (jsstring * result)) [(js "minlength", r2)].
           ++ shape_case Hreq [(js "required", r0)] (@nil (jsstring * result)) [(js "minlength", r2)].
           ++ shape_case Hreq [(js "required", r0)] (@nil (jsstring * result)) (@nil (jsstring * result)).
           ++ shape_case Hreq [(js "required", r0)] (@nil (jsstring * result)) (@nil (jsstring * result)).
      * shape_case Hreq [(js "required", r0)] (@nil (jsstring * result)) (@nil (jsstring * result)).
  - cbn [is_error negb andb].
    destruct (truthy (Dom.value f)) eqn:Hv; cbn [andb].
    + destruct (kindRule _ _) as [rule|] eqn:Hk.
      * pose proof (kindRule_in _ _ _ Hk) as Hin.
        destruct (invoke_total vs now rule (Dom.value f) NaN Hvs
                    (kindRules_builtin _ Hin)) as (fk & _ & ->).
        set (r1 := fk now (Dom.value f) NaN).
        destruct (is_error r1) eqn:E1; cbn [negb andb].
        -- shape_case Hreq (@nil (jsstring * result)) [(rule, r1)] (@nil (jsstring * result)).
        -- destruct (Dom.hasAttribute f (js "minlength")) eqn:Hmin;
             destruct (is_error r2) eqn:E2.
           ++ shape_case Hreq (@nil (jsstring * result)) [(rule, r1)] [(js "minlength", r2)].
           ++ shape_case Hreq (@nil (jsstring * result)) [(rule, r1)] [(js "minlength", r2)].
           ++ shape_case Hreq (@nil (jsstring * result)) [(rule, r1)] (@nil (jsstring * result)).
           ++ shape_case Hreq (@nil (jsstring * result)) [(rule, r1)] (@nil (jsstring * result)).
      * cbn [is_error negb andb].
        destruct (Dom.hasAttribute f (js "minlength")) eqn:Hmin;
          destruct (is_error r2) eqn:E2.
        -- shape_case Hreq (@nil (jsstring * result)) (@nil (jsstring * result)) [(js "minlength", r2)].
        -- shape_case Hreq (@nil (jsstring * result)) (@nil (jsstring * result)) [(js "minlength", r2)].
        -- shape_case Hreq (@nil (jsstring * result)) (@nil (jsstring * result)) (@nil (jsstring * result)).
        -- shape_case Hreq (@nil (jsstring * result)) (@nil (jsstring * result)) (@nil (jsstring * result)).
    + shape_case Hreq (@nil (jsstring * result)) (@nil (jsstring * result)) (@nil (jsstring * result)).
Qed.

End pass_facts.

(** ** Well-formed states are kept *)

Section invariant.

(** The control and container behind a field of a well-formed state. *)
Lemma wf_registered s fieldId ref :
  wf s → fields s !! fieldId = Some ref →
  ∃ c p, controls s !! ref = Some c ∧ Dom.id c = fieldId
    ∧ containers s !! Dom.parentElement c = Some p
    ∧ length (errorDisplays p) ≤ 1.
Proof.
  intros Hwf Hf.
  pose proof (wf_fields _ Hwf _ _ Hf) as Hid. cbn in Hid.
  destruct (controls s !! ref) as [c|] eqn:Hc; [|done].
  injection Hid as Hid.
  pose proof (Forall_lookup_1 _ _ _ _ (wf_controls _ Hwf) Hc) as [_ Hlt].
  destruct (lookup_lt_is_Some_2 _ _ Hlt) as [p Hp].
  exists c, p. repeat split; try done.
  exact (Forall_lookup_1 _ _ _ _ (wf_displays _ Hwf) Hp).
Qed.

Lemma wf_control_registered s i f :
  wf s → controls s !! i = Some f → is_Some (fields s !! Dom.id f).
Proof.
  intros Hwf Hc. by destruct (Forall_lookup_1 _ _ _ _ (wf_controls _ Hwf) Hc).
Qed.

Lemma wf_presentable s fieldId : wf s → presentable s fieldId.
Proof.
  intros Hwf. unfold presentable.
  destruct (fields s !! fieldId) as [ref|] eqn:Hf; [|done].
  destruct (wf_registered s fieldId ref Hwf Hf) as (c & p & -> & _ & -> & Hone).
  done.
Qed.

Lemma wf_set_trace s t : wf s → wf (set_trace t s).
Proof. by intros []. Qed.

(** Replacing a control by one of the same id and parent keeps the
    references of the object valid. *)
Lemma wf_replace_control s ref c c' :
  wf s → controls s !! ref = Some c →
  Dom.id c' = Dom.id c → Dom.parentElement c' = Dom.parentElement c →
  wf (set_controls (<[ref := c']> (controls s)) s).
Proof.
  intros Hwf Hc Hid Hpar. destruct Hwf. split; cbn; try done.
  - intros fieldId r Hr. specialize (wf_fields0 _ _ Hr). cbn in *.
    destruct (decide (r = ref)) as [->|Hne].
    + rewrite list_lookup_insert_eq by (by eapply lookup_lt_Some).
      rewrite Hc in wf_fields0. cbn in *. congruence.
    + by rewrite list_lookup_insert_ne.
  - apply Forall_insert; [done|].
    rewrite Hid, Hpar. exact (Forall_lookup_1 _ _ _ _ wf_controls0 Hc).
Qed.

Lemma wf_replace_container s i p' :
  wf s → length (errorDisplays p') ≤ 1 →
  wf (set_containers (<[i := p']> (containers s)) s).
Proof.
  intros Hwf Hone. destruct Hwf. split; cbn; try done.
  - by rewrite length_insert.
  - by apply Forall_insert.
Qed.

Lemma wf_set_errors s e :
  wf s → dom e ⊆ dom (fields s) → wf (set_errors e s).
Proof. intros [] He. by split. Qed.

Lemma wf_shown s fieldId message ref c p :
  wf s → fields s !! fieldId = Some ref → controls s !! ref = Some c →
  containers s !! Dom.parentElement c = Some p →
  wf (shown fieldId message ref c p s).
Proof.
  intros Hwf Hf Hc Hp. unfold shown.
  set (s0 := set_errors _ s). change (controls s) with (controls s0).
  set (s1 := set_controls _ s0). change (containers s) with (containers s1).
  apply wf_replace_container.
  - apply (wf_replace_control _ ref c); [|done..].
    apply wf_set_errors; [done|]. rewrite dom_insert_L.
    pose proof (wf_errors _ Hwf). apply elem_of_dom_2 in Hf. set_solver.
  - unfold errorDisplays. cbn.
    rewrite filter_app, removeFirst_filter, length_app.
    rewrite filter_cons, decide_True, filter_nil by apply error_node_matches.
    pose proof (Forall_lookup_1 _ _ _ _ (wf_displays _ Hwf) Hp) as Hone.
    unfold errorDisplays in Hone.
    destruct (filter _ (Dom.descendants p)) as [|? [|? ?]]; cbn in *; lia.
Qed.

Lemma wf_cleared s fieldId ref c p :
  wf s → fields s !! fieldId = Some ref → controls s !! ref = Some c →
  containers s !! Dom.parentElement c = Some p →
  wf (cleared fieldId ref c p s).
Proof.
  intros Hwf Hf Hc Hp. unfold cleared.
  set (s0 := set_errors _ s). change (controls s) with (controls s0).
  set (s1 := set_controls _ s0). change (containers s) with (containers s1).
  apply wf_replace_container.
  - apply (wf_replace_control _ ref c); [|done..].
    apply wf_set_errors; [done|]. rewrite dom_delete_L.
    pose proof (wf_errors _ Hwf). set_solver.
  - unfold errorDisplays. cbn. rewrite removeFirst_filter.
    pose proof (Forall_lookup_1 _ _ _ _ (wf_displays _ Hwf) Hp) as Hone.
    unfold errorDisplays in Hone.
    destruct (filter _ (Dom.descendants p)) as [|? [|? ?]]; cbn in *; lia.
Qed.

#[export] Instance presented_refl : Reflexive presented.
Proof. by intros s. Qed.

#[export] Instance presented_trans : Transitive presented.
Proof. intros s1 s2 s3 [] []. split; congruence. Qed.

Lemma input_presented c a v cl :
  a = js "aria-invalid" →
  input (Dom.setAttribute a v (Dom.setClassList cl c)) = input c.
Proof.
  intros ->. unfold input. cbn. by rewrite delete_insert_eq.
Qed.

Lemma presented_shown s fieldId message ref c p :
  controls s !! ref = Some c →
  presented s (shown fieldId message ref c p s).
Proof.
  intros Hc. split; cbn; try done.
  - rewrite list_fmap_insert, input_presented by done.
    apply list_insert_id. by rewrite list_lookup_fmap, Hc.
  - by rewrite length_insert.
Qed.

Lemma presented_cleared s fieldId ref c p :
  controls s !! ref = Some c →
  presented s (cleared fieldId ref c p s).
Proof.
  intros Hc. split; cbn; try done.
  - rewrite list_fmap_insert, input_presented by done.
    apply list_insert_id. by rewrite list_lookup_fmap, Hc.
  - by rewrite length_insert.
Qed.

(** The presenter call that ends a pass, on a registered field. *)
Lemma present_step fieldId error s :
  wf s → is_Some (fields s !! fieldId) →
  ∃ s', present fieldId error s = Some (negb (is_error error), s')
    ∧ wf s' ∧ presented s s'
    ∧ errors s' =
        (if is_error error then <[fieldId := default [] error]> (errors s)
         else delete fieldId (errors s)).
Proof.
  intros Hwf [ref Hf].
  destruct (wf_registered s fieldId ref Hwf Hf) as (c & p & Hc & _ & Hp & _).
  assert (Hclear : ∃ s', (clearFieldError fieldId;; mret true) s = Some (true, s')
    ∧ wf s' ∧ presented s s' ∧ errors s' = delete fieldId (errors s)).
  { exists (cleared fieldId ref c p s). unfold mbind, M_bind.
    rewrite (clearFieldError_registered _ _ ref c p) by done.
    split; [done|]. split; [by apply wf_cleared|].
    split; [by apply presented_cleared|done]. }
  unfold present. destruct error as [message|]; [|done]. cbn [is_error default].
  destruct (truthy message); [|done].
  exists (shown fieldId message ref c p s). unfold mbind, M_bind.
  rewrite (showFieldError_registered _ _ _ ref c p) by done.
  split; [done|]. split; [by apply wf_shown|].
  split; [by apply presented_shown|done].
Qed.

(** One field validated in a well-formed state. *)
Lemma validateField_step now i s f :
  wf s → controls s !! i = Some f →
  ∃ calls error s',
    rulesRun (validators s) now f = Some (calls, error)
    ∧ pass_shape f calls error
    ∧ validateField now i s = Some (negb (is_error error), s')
    ∧ wf s' ∧ presented (set_trace (trace s ++ calls) s) s'
    ∧ errors s' =
        (if is_error error then <[Dom.id f := default [] error]> (errors s)
         else delete (Dom.id f) (errors s)).
Proof.
  intros Hwf Hc.
  destruct (rulesRun_shape (validators s) now f (wf_validators _ Hwf))
    as (calls & error & Hrun & Hshape).
  destruct (present_step (Dom.id f) error (set_trace (trace s ++ calls) s))
    as (s' & Hp & Hwf' & Hpres & Herr).
  { by apply wf_set_trace. }
  { exact (wf_control_registered s i f Hwf Hc). }
  exists calls, error, s'. rewrite (validateField_pass now i s f Hc), Hrun.
  done.
Qed.

(** A pass reads a control through [input] only. *)
Lemma rulesRun_input vs now c c' :
  input c = input c' → rulesRun vs now c = rulesRun vs now c'.
Proof.
  unfold input. intros [= Hid Hname Hvalue Htype Htag Hattrs].
  assert (Hlook : ∀ a, a ≠ js "aria-invalid" →
            Dom.attributes c !! a = Dom.attributes c' !! a).
  { intros a Ha. by rewrite <- (lookup_delete_ne (Dom.attributes c) (js "aria-invalid") a),
      <- (lookup_delete_ne (Dom.attributes c') (js "aria-invalid") a), Hattrs. }
  unfold rulesRun, Dom.hasAttribute.
  rewrite Hid, Hvalue, Htype, Htag, !(Hlook (js "required")), !(Hlook (js "minlength"))
    by (by vm_compute).
  done.
Qed.

Lemma presented_lookup s s' i :
  presented s s' → input <$> controls s' !! i = input <$> controls s !! i.
Proof. intros Hp. by rewrite <- !list_lookup_fmap, (same_inputs _ _ Hp). Qed.

Lemma presented_verdict now s s' i :
  presented s s' → verdict now s' i = verdict now s i.
Proof.
  intros Hp. pose proof (presented_lookup s s' i Hp) as Hi.
  unfold verdict, passes. rewrite (same_validators _ _ Hp).
  destruct (controls s' !! i) as [c'|], (controls s !! i) as [c|]; try done.
  cbn in *. assert (Hin : input c' = input c) by congruence.
  by rewrite (rulesRun_input _ _ _ _ Hin).
Qed.

Lemma presented_id s s' i :
  presented s s' → Dom.id <$> controls s' !! i = Dom.id <$> controls s !! i.
Proof.
  intros Hp. pose proof (presented_lookup s s' i Hp) as Hi.
  destruct (controls s' !! i) as [c'|], (controls s !! i) as [c|]; try done.
  cbn in *. assert (Hin : input c' = input c) by congruence.
  unfold input in Hin. by injection Hin as ->.
Qed.

Lemma presented_length s s' :
  presented s s' → length (controls s') = length (controls s).
Proof.
  intros Hp. by rewrite <- (length_fmap input), (same_inputs _ _ Hp), length_fmap.
Qed.

Lemma validated_refl s : validated s s.
Proof. exists []. by rewrite app_nil_r, set_trace_id. Qed.

Lemma validated_trans s1 s2 s3 :
  validated s1 s2 → validated s2 s3 → validated s1 s3.
Proof.
  intros [c1 H1] [c2 H2]. exists (c1 ++ c2).
  destruct H1, H2. split; cbn in *; try congruence.
  by rewrite same_trace1, same_trace0, (assoc_L (++)).
Qed.

Lemma validated_presented s s' :
  validated s s' → presented (set_trace (trace s') s) s'.
Proof. intros [calls []]. by split. Qed.

Lemma forallb_pointwise {A} (f g : A → bool) l :
  (∀ x, f x = g x) → forallb f l = forallb g l.
Proof. intros Hfg. induction l as [|x l IH]; cbn; [done|]. by rewrite Hfg, IH. Qed.

Lemma bool_decide_ext_if {A} (P Q : Prop) `{Decision P, Decision Q} (x y : A) :
  (P ↔ Q) → (if bool_decide P then x else y) = (if bool_decide Q then x else y).
Proof. intros HPQ. by rewrite (bool_decide_ext P Q HPQ). Qed.

(** The loop of [validateForm]: the conjunction of the verdicts, and,
    when all pass, every validated field without a recorded error. *)
Lemma validateEach_spec now inputs acc s :
  wf s → Forall (λ i, i < length (controls s)) inputs →
  ∃ s', validateEach now inputs acc s
          = Some (acc && forallb (verdict now s) inputs, s')
    ∧ wf s' ∧ validated s s'
    ∧ (forallb (verdict now s) inputs = true →
       ∀ fieldId, errors s' !! fieldId =
         if bool_decide (Some fieldId ∈ (λ i, Dom.id <$> controls s !! i) <$> inputs)
         then None else errors s !! fieldId).
Proof.
  revert acc s. induction inputs as [|i inputs IH]; intros acc s Hwf Hin.
  - exists s. cbn [validateEach forallb]. rewrite andb_true_r.
    split; [done|]. split; [done|].
    split; [apply validated_refl|]. intros _ fieldId.
    by rewrite bool_decide_eq_false_2 by apply not_elem_of_nil.
  - apply Forall_cons in Hin as [Hi Hin].
    destruct (lookup_lt_is_Some_2 _ _ Hi) as [f Hf].
    destruct (validateField_step now i s f Hwf Hf)
      as (calls & error & s1 & Hrun & _ & Hv & Hwf1 & Hp1 & Herr1).
    assert (Hval1 : validated s s1) by (by exists calls).
    apply validated_presented in Hval1 as Hps.
    destruct (IH (if negb (negb (is_error error)) then false else acc) s1 Hwf1)
      as (s' & Hloop & Hwf' & Hval' & Herr').
    { by rewrite (presented_length _ _ Hps). }
    exists s'. cbn [validateEach]. unfold mbind, M_bind at 1. rewrite Hv, Hloop.
    assert (Hverd : ∀ j, verdict now s1 j = verdict now s j).
    { intros j. by rewrite (presented_verdict now _ _ j Hps). }
    assert (Hids : ∀ j, Dom.id <$> controls s1 !! j = Dom.id <$> controls s !! j).
    { intros j. by rewrite (presented_id _ _ j Hps). }
    rewrite (forallb_pointwise _ _ inputs Hverd) in *.
    assert (Hvi : verdict now s i = negb (is_error error)).
    { unfold verdict, passes. by rewrite Hf; cbn; rewrite Hrun. }
    cbn [forallb]. rewrite Hvi.
    split; [by destruct (is_error error), acc|].
    split; [done|]. split; [by eapply validated_trans|].
    intros Hall fieldId. apply andb_true_iff in Hall as [He Hall].
    rewrite (Herr' Hall fieldId), Herr1.
    assert (Hl : ((λ j, Dom.id <$> controls s1 !! j) <$> inputs)
                 = ((λ j, Dom.id <$> controls s !! j) <$> inputs))
      by (apply list_fmap_ext; intros; apply Hids).
    rewrite Hl. destruct (is_error error); [done|].
    cbn [fmap list_fmap]. rewrite Hf. cbn [fmap option_fmap option_map].
    destruct (decide (fieldId = Dom.id f)) as [->|Hne].
    + rewrite lookup_delete_eq, (bool_decide_eq_true_2 (_ ∈ _ :: _)) by left.
      by case_bool_decide.
    + rewrite lookup_delete_ne by done.
      apply bool_decide_ext_if. rewrite elem_of_cons. naive_solver.
Qed.

End invariant.

(** ** One field *)

Section field.




End field.

(** ** The form pass and the submission store *)

Section form.

Lemma forallb_lookup_seq {A} (p : A → bool) (pre l : list A) :
  forallb (λ i, from_option p false ((pre ++ l) !! i)) (seq (length pre) (length l))
  = forallb p l.
Proof.
  revert pre. induction l as [|x l IH]; intros pre; [done|].
  cbn [length seq forallb]. rewrite list_lookup_middle by done. cbn [from_option].
  f_equal. specialize (IH (pre ++ [x])).
  rewrite length_app, <- (assoc_L (++)) in IH. cbn in IH.
  by rewrite Nat.add_1_r in IH.
Qed.

Lemma forallb_verdict now s :
  forallb (verdict now s) (seq 0 (length (controls s)))
  = forallb (passes (validators s) now) (controls s).
Proof. apply (forallb_lookup_seq _ []). Qed.

(** [validateForm] in a well-formed state: it returns whether every
    control passes, and then no error is recorded. *)
Lemma validateForm_spec now s :
  wf s →
  ∃ s1, validateForm now s
          = Some (forallb (passes (validators s) now) (controls s), s1)
    ∧ wf s1 ∧ validated s s1
    ∧ (forallb (passes (validators s) now) (controls s) = true → errors s1 = ∅).
Proof.
  intros Hwf.
  destruct (validateEach_spec now (seq 0 (length (controls s))) true s Hwf)
    as (s1 & Hrun & Hwf1 & Hval & Herr).
  { apply Forall_forall. intros i Hi. apply elem_of_seq in Hi. lia. }
  rewrite forallb_verdict in *. exists s1.
  split; [done|]. split; [done|]. split; [done|].
  intros Hall. apply map_eq. intros fieldId. rewrite lookup_empty, (Herr Hall).
  case_bool_decide as Hin; [done|].
  destruct (errors s !! fieldId) as [m|] eqn:He; [|done]. destruct Hin.
  assert (Hdom : fieldId ∈ dom (fields s)).
  { apply (wf_errors _ Hwf). by apply elem_of_dom_2 in He. }
  apply elem_of_dom in Hdom as [ref Hf].
  destruct (wf_registered s fieldId ref Hwf Hf) as (c & p & Hc & Hid & _).
  apply list_elem_of_fmap. exists ref. rewrite Hc. cbn. rewrite Hid.
  split; [done|]. apply elem_of_seq. apply lookup_lt_Some in Hc. lia.
Qed.

(** *** The submission store *)

Section store.
Context `{DateHost}.

Lemma storage_keys_differ (formName : jsstring) :
  formName ++ js "-current" ≠ formName ++ js "-submissions".
Proof. intros Heq. apply app_inv_head in Heq. by vm_compute in Heq. Qed.

Lemma slice_last_short {A} (n : nat) (l : list A) :
  length l ≤ n → slice_last n l = l.
Proof. intros Hle. unfold slice_last. by replace (length l - n) with 0 by lia. Qed.

Lemma slice_last_slice_app {A} (n : nat) (l k : list A) :
  slice_last n (slice_last n l ++ k) = slice_last n (l ++ k).
Proof.
  unfold slice_last. rewrite !length_app, length_drop.
  destruct (decide (length l ≤ n)) as [Hle|Hgt].
  - replace (length l - n) with 0 by lia. rewrite drop_0. f_equal. lia.
  - replace (length l - (length l - n) + length k - n) with (length k) by lia.
    destruct (decide (length k ≤ n)) as [Hk|Hk].
    + rewrite !drop_app_le by (rewrite ?length_drop; lia).
      rewrite drop_drop. f_equal. f_equal. lia.
    + rewrite !drop_app_ge by (rewrite ?length_drop; lia).
      rewrite length_drop. f_equal. lia.
Qed.

Lemma slice_last_app {A} (n : nat) (l k : list A) :
  n ≤ length k → slice_last n (l ++ k) = slice_last n k.
Proof.
  intros Hle. unfold slice_last. rewrite length_app.
  rewrite drop_app_ge by lia. f_equal. lia.
Qed.

Lemma saveFormData_spec now data s :
  loadable (localStorage s !! (formName s ++ js "-submissions")) →
  saveFormData now data s = Some (tt,
    set_localStorage
      (<[formName s ++ js "-current" := JObj data]>
        (<[formName s ++ js "-submissions" :=
             JArr (slice_last 10 (stored s ++ [submission (now, data)]))]>
           (localStorage s))) s).
Proof.
  intros Hload. unfold saveFormData, stored, getSubmissionHistory.
  cbv [mbind M_bind mret M_ret get modify throw].
  set (key := formName s ++ js "-submissions") in *.
  assert (Hcut : ∀ l : list json,
    (if 10 <? length l then slice_last 10 l else l) = slice_last 10 l).
  { intros l. destruct (Nat.ltb_spec 10 (length l)); [done|].
    by rewrite slice_last_short by lia. }
  destruct (localStorage s !! key) as [v|]; cbn in Hload.
  - destruct v; cbn [json_truthy] in *; rewrite ?Hload, ?Hcut; done.
  - by rewrite Hcut.
Qed.

Lemma saveFormData_history now data s s' :
  saveFormData now data s = Some (tt, s') →
  loadable (localStorage s !! (formName s ++ js "-submissions")) →
  formName s' = formName s
  ∧ stored s' = slice_last 10 (stored s ++ [submission (now, data)])
  ∧ getSubmissionHistory s' = JArr (stored s')
  ∧ localStorage s' !! (formName s ++ js "-current") = Some (JObj data)
  ∧ loadable (localStorage s' !! (formName s' ++ js "-submissions")).
Proof.
  intros Hsave Hload. rewrite saveFormData_spec in Hsave by done.
  injection Hsave as <-. set (s1 := set_localStorage _ s).
  assert (Hname : formName s1 = formName s) by done.
  assert (Hget : getSubmissionHistory s1
    = JArr (slice_last 10 (stored s ++ [submission (now, data)]))).
  { unfold getSubmissionHistory. rewrite Hname. unfold s1.
    cbn [localStorage set_localStorage].
    by rewrite lookup_insert_ne, lookup_insert_eq by apply storage_keys_differ. }
  assert (Hst : stored s1 = slice_last 10 (stored s ++ [submission (now, data)])).
  { unfold stored at 1. by rewrite Hget. }
  split; [done|]. split; [done|]. split; [by rewrite Hst|].
  rewrite Hname. unfold s1. cbn [localStorage set_localStorage].
  rewrite lookup_insert_eq. split; [done|].
  by rewrite lookup_insert_ne, lookup_insert_eq by apply storage_keys_differ.
Qed.

Lemma saveAll_history saves s :
  loadable (localStorage s !! (formName s ++ js "-submissions")) →
  saves ≠ [] →
  ∃ s', saveAll saves s = Some (tt, s')
    ∧ getSubmissionHistory s'
      = JArr (slice_last 10 (stored s ++ (submission <$> saves))).
Proof.
  revert s. induction saves as [|[now data] rest IH]; intros s Hload Hne; [done|].
  cbn [saveAll]. unfold mbind, M_bind at 1. cbn [fst snd].
  rewrite saveFormData_spec by done.
  set (s1 := set_localStorage _ s).
  destruct (saveFormData_history now data s s1) as (Hname & Hst & Hget & _ & Hload1);
    [by apply saveFormData_spec|done|].
  destruct rest as [|save rest].
  - exists s1. split; [done|]. by rewrite Hget, Hst.
  - destruct (IH s1 Hload1) as (s' & Hrun & Hhist); [done|].
    exists s'. split; [done|].
    rewrite Hhist, Hst, slice_last_slice_app, <- (assoc_L (++)). done.
Qed.

(** C7. A save appends one record, the data with its timestamp, to the
    history stored for the form, keeps the ten most recent entries and
    stores the data alone under the [-current] key; the keys start with
    the form's id when it has one. After ten or more saves (so after
    eleven or more) the history is exactly the records of the last ten,
    in order. *)
Theorem history_keeps_last_ten now data saves s :
  loadable (localStorage s !! (formName s ++ js "-submissions")) →
  (∃ s', saveFormData now data s = Some (tt, s')
     ∧ getSubmissionHistory s'
       = JArr (slice_last 10 (stored s ++ [submission (now, data)]))
     ∧ (length (stored s) < 10 →
        getSubmissionHistory s' = JArr (stored s ++ [submission (now, data)]))
     ∧ localStorage s' !! (formName s ++ js "-current") = Some (JObj data))
  ∧ (truthy (formId s) = true → formName s = formId s)
  ∧ (10 ≤ length saves →
     ∃ s', saveAll saves s = Some (tt, s')
       ∧ getSubmissionHistory s' = JArr (submission <$> slice_last 10 saves)
       ∧ length (submission <$> slice_last 10 saves) = 10).
Proof.
  intros Hload. split; [|split].
  - eexists. split; [by apply saveFormData_spec|].
    edestruct saveFormData_history as (_ & Hst & Hget & Hcur & _);
      [by apply saveFormData_spec|done|].
    rewrite Hget, Hst. split; [done|]. split; [|done].
    intros Hlt. by rewrite slice_last_short by (rewrite length_app; cbn; lia).
  - unfold formName. by intros ->.
  - intros Hlen. destruct (saveAll_history saves s Hload) as (s' & Hrun & Hhist).
    { destruct saves; [cbn in Hlen; lia|done]. }
    exists s'. split; [done|]. rewrite Hhist.
    rewrite slice_last_app by (by rewrite length_fmap).
    unfold slice_last. rewrite length_fmap, fmap_drop. split; [done|].
    rewrite length_drop, length_fmap. lia.
Qed.

(** *** Submitting the form *)

Lemma formData_input cs cs' :
  input <$> cs' = input <$> cs → formData cs' = formData cs.
Proof.
  unfold formData. generalize (∅ : gmap jsstring json).
  revert cs'. induction cs as [|c cs IH]; intros [|c' cs'] acc Heq; try done.
  rewrite !fmap_cons in Heq. injection Heq as _ Hn Hv _ _ _ Hcs. cbn [foldl].
  rewrite Hn, Hv. by apply IH.
Qed.

Lemma validated_frame s s' :
  validated s s' →
  formName s' = formName s ∧ localStorage s' = localStorage s
  ∧ alerts s' = alerts s ∧ formData (controls s') = formData (controls s).
Proof.
  intros [calls [Hid Hin _ Hal _ _ Hst _]]. cbn in *. unfold formName.
  by rewrite Hid, (formData_input _ _ Hin).
Qed.

Lemma stored_ext s s' :
  formId s' = formId s → localStorage s' = localStorage s → stored s' = stored s.
Proof.
  intros Hid Hst. unfold stored, getSubmissionHistory, formName.
  by rewrite Hid, Hst.
Qed.

Lemma handleValidFormSubmit_spec now s :
  loadable (localStorage s !! (formName s ++ js "-submissions")) →
  ∃ s', handleValidFormSubmit now s = Some (tt, s')
    ∧ saveFormData now (formData (controls s)) s
      = Some (tt, set_localStorage (localStorage s') s)
    ∧ formId s' = formId s
    ∧ alerts s' = S (alerts s)
    ∧ Dom.value <$> controls s' = Dom.defaultValue <$> controls s
    ∧ errors s' = ∅.
Proof.
  intros Hload. unfold handleValidFormSubmit.
  cbv [mbind M_bind mret M_ret get modify showSuccessMessage reset].
  rewrite saveFormData_spec by done. eexists. split; [done|].
  cbn. split; [done|]. split; [done|]. split; [done|]. split; [|done].
  rewrite <- list_fmap_compose. by apply list_fmap_ext.
Qed.

(** C8. The submit listener persists only when [validateForm] returns
    true, which it does exactly when every control passes; at that point
    no error is recorded, and none is after the submission is stored.
    When a control fails, the store is left as it was. *)
Theorem submission_only_when_valid now s :
  wf s →
  ∃ valid s1,
    validateForm now s = Some (valid, s1)
    ∧ (valid = true
       ↔ Forall (λ f, passes (validators s) now f = true) (controls s))
    ∧ localStorage s1 = localStorage s
    ∧ (valid = false → onSubmit now s = Some (tt, s1))
    ∧ (valid = true →
       errors s1 = ∅
       ∧ ∃ s2, onSubmit now s = Some (tt, s2)
           ∧ handleValidFormSubmit now s1 = Some (tt, s2)
           ∧ errors s2 = ∅
           ∧ stored s2
             = slice_last 10
                 (stored s ++ [submission (now, formData (controls s))])).
Proof.
  intros Hwf. destruct (validateForm_spec now s Hwf) as (s1 & Hv & Hwf1 & Hval & Herr).
  destruct (validated_frame _ _ Hval) as (Hname & Hstore & _ & Hdata).
  exists (forallb (passes (validators s) now) (controls s)), s1.
  split; [done|]. split.
  { rewrite forallb_forall, Forall_forall. by setoid_rewrite list_elem_of_In. }
  split; [done|]. unfold onSubmit, mbind, M_bind. rewrite Hv.
  split; [by intros ->|]. intros Hall. rewrite Hall. split; [auto|].
  destruct (handleValidFormSubmit_spec now s1 (wf_storage _ Hwf1))
    as (s2 & Hsub & Hsave & Hid2 & _ & _ & Hclear).
  exists s2. split; [done|]. split; [done|]. split; [done|].
  destruct (saveFormData_history _ _ _ _ Hsave (wf_storage _ Hwf1))
    as (_ & Hst & _).
  rewrite <- (stored_ext (set_localStorage (localStorage s2) s1) s2) in Hst by done.
  rewrite Hst, Hdata. rewrite (stored_ext s s1); [done| |done].
  by destruct Hval as [calls []].
Qed.

End store.

End form.

(** ** Listeners keep the state well-formed *)

Section reach.
Context `{DateHost}.

Lemma attachFields_snoc cs c :
  attachFields (cs ++ [c]) = <[Dom.id c := length cs]> (attachFields cs).
Proof.
  unfold attachFields. rewrite imap_app, foldl_app. cbn.
  by rewrite Nat.add_0_r.
Qed.

Lemma attachFields_wf cs :
  map_Forall (λ fieldId ref, Dom.id <$> cs !! ref = Some fieldId) (attachFields cs)
  ∧ Forall (λ c, is_Some (attachFields cs !! Dom.id c)) cs.
Proof.
  induction cs as [|c cs [IH1 IH2]] using rev_ind; [by split|].
  rewrite attachFields_snoc. split.
  - apply map_Forall_insert_2.
    + by rewrite list_lookup_middle.
    + eapply map_Forall_impl; [exact IH1|]. intros fieldId ref Href. cbn in *.
      destruct (cs !! ref) as [c'|] eqn:Hc; [|done].
      by rewrite (lookup_app_l_Some _ _ _ _ Hc).
  - apply Forall_app. split.
    + eapply Forall_impl; [exact IH2|]. intros c' Hc'. cbn in *.
      rewrite lookup_insert_is_Some. destruct (decide (Dom.id c = Dom.id c')); auto.
    + apply Forall_singleton. by rewrite lookup_insert_eq.
Qed.

(** The constructor establishes well-formedness on a page whose controls
    sit in containers of the page, each with at most one error display,
    and whose stored history is absent or an array. *)
Lemma construct_wf form_id cs ps storage :
  Forall (λ c, Dom.parentElement c < length ps) cs →
  Forall (λ p, length (errorDisplays p) ≤ 1) ps →
  loadable (storage !! (formName (blank form_id cs ps storage) ++ js "-submissions")) →
  ∃ s, construct form_id cs ps storage = Some s ∧ wf s.
Proof.
  intros Hcs Hps Hst. unfold construct. unfold mbind, M_bind.
  rewrite registerDefaultValidators_spec.
  eexists. split; [reflexivity|].
  destruct (attachFields_wf cs) as [Hf Hc].
  split; cbn [fields controls containers errors validators localStorage
              set_fields set_validators blank snd].
  - done.
  - apply Forall_forall. intros c Hin. split.
    + by apply (proj1 (Forall_forall _ _) Hc).
    + by apply (proj1 (Forall_forall _ _) Hcs).
  - set_solver.
  - done.
  - unfold builtin.
    repeat (apply Forall_cons; split;
            [rewrite !lookup_insert_is_Some'; naive_solver|]).
    apply Forall_nil_2.
  - done.
Qed.

Lemma wf_registerValidator s name fn :
  wf s → ∃ s', registerValidator name fn s = Some (tt, s') ∧ wf s'.
Proof.
  intros [? ? ? ? Hv ?]. eexists. split; [reflexivity|]. split; try done. cbn.
  eapply Forall_impl; [exact Hv|]. intros n Hn. cbn in *.
  rewrite lookup_insert_is_Some. destruct (decide (name = n)); auto.
Qed.

(** Every listener runs to completion in a well-formed state and leaves
    a well-formed state. *)
Lemma dispatch_wf now e s :
  wf s →
  match e with
  | Blur i | Input i _ => i < length (controls s)
  | Submit => True
  end →
  ∃ s', dispatch now e s = Some (tt, s') ∧ wf s'.
Proof.
  intros Hwf Htarget. destruct e as [i|i v|]; cbn [dispatch].
  - destruct (lookup_lt_is_Some_2 _ _ Htarget) as [f Hf].
    destruct (validateField_step now i s f Hwf Hf)
      as (calls & error & s' & _ & _ & Hv & Hwf' & _).
    exists s'. unfold onBlur, mbind, M_bind. by rewrite Hv.
  - destruct (lookup_lt_is_Some_2 _ _ Htarget) as [f Hf].
    unfold onInput. cbv [mbind M_bind mret M_ret get modify lift]. rewrite Hf.
    set (s1 := set_controls _ s).
    assert (Hwf1 : wf s1) by (by apply (wf_replace_control s i f)).
    case_bool_decide as He; [|by exists s1].
    destruct He as [m He].
    assert (Hdom : Dom.id f ∈ dom (fields s1)).
    { apply (wf_errors _ Hwf1). by apply elem_of_dom_2 in He. }
    apply elem_of_dom in Hdom as [ref Href].
    destruct (wf_registered s1 _ ref Hwf1 Href) as (c & p & Hc & _ & Hp & _).
    exists (cleared (Dom.id f) ref c p s1).
    rewrite (clearFieldError_registered _ _ ref c p) by done.
    split; [done|]. by apply wf_cleared.
  - destruct (validateForm_spec now s Hwf) as (s1 & Hv & Hwf1 & _).
    unfold onSubmit, mbind, M_bind. rewrite Hv.
    destruct (forallb _ _); [|by exists s1].
    destruct (handleValidFormSubmit_spec now s1 (wf_storage _ Hwf1))
      as (s2 & Hhandle & _).
    exists s2. split; [done|].
    unfold handleValidFormSubmit in Hhandle.
    cbv [mbind M_bind mret M_ret get modify showSuccessMessage reset] in Hhandle.
    rewrite saveFormData_spec in Hhandle by apply (wf_storage _ Hwf1).
    injection Hhandle as <-. destruct Hwf1 as [Hf Hc He Hd Hvs Hs].
    split; cbn; try done.
    + intros fieldId ref Href. specialize (Hf _ _ Href). cbn in *.
      rewrite list_lookup_fmap. by destruct (controls s1 !! ref).
    + rewrite Forall_fmap. eapply Forall_impl; [exact Hc|]. done.
    + by rewrite lookup_insert_ne, lookup_insert_eq by apply storage_keys_differ.
Qed.

End reach.

(** ** The theorems on the sample page *)

Section sample.

#[local] Existing Instance UTC.host.

(** "111.111.111-11" is rejected. *)
Lemma cpf_repeated_witness :
  is_digit 49 = true
  ∧ strip_non_digits (js "111.111.111-11") = replicate 11 49%N
  ∧ cpf 0%Z (js "111.111.111-11") NaN = Some (js "CPF inválido.").
Proof.
  assert (Hd : is_digit 49 = true) by reflexivity.
  assert (Hs : strip_non_digits (js "111.111.111-11") = replicate 11 49%N)
    by (vm_compute; reflexivity).
  split; [exact Hd|]. split; [exact Hs|].
  exact (cpf_repeated 0%Z (js "111.111.111-11") NaN 49%N Hd Hs).
Defined.

(** [required], as registered on a fresh object, rejects the empty value. *)
Lemma empty_value_rejected_only_by_required_and_estado_witness :
  let s := blank (js "cadastroForm") [] [] ∅ in
  ∃ s', validators s = ∅
    ∧ registerDefaultValidators s = Some (tt, s')
    ∧ validators s' !! js "required" = Some required
    ∧ is_error (required 0%Z [] NaN) = true
    ∧ (js "required" = js "required" ∨ js "required" = js "estado").
Proof.
  intros s.
  assert (He : validators s = ∅) by reflexivity.
  destruct (registerDefaultValidators s) as [[[] s']|] eqn:Hr;
    [|by rewrite registerDefaultValidators_spec in Hr].
  assert (Hf : validators s' !! js "required" = Some required).
  { rewrite registerDefaultValidators_spec in Hr. injection Hr as <-.
    cbn [validators set_validators].
    rewrite lookup_insert_ne by (by vm_compute). apply lookup_insert_eq. }
  assert (Herr : is_error (required 0%Z [] NaN) = true) by reflexivity.
  exists s'. split; [exact He|]. split; [reflexivity|]. split; [exact Hf|].
  split; [exact Herr|].
  exact (proj1 (empty_value_rejected_only_by_required_and_estado
                  s s' (js "required") required 0%Z NaN He Hr Hf) Herr).
Defined.

(** The name field of the filled form. *)
Lemma presenter_idempotent_witness :
  presentable Sample.filled (js "nome")
  ∧ ∃ s1 s2,
      showFieldError (js "nome") (js "x") Sample.filled = Some (tt, s1)
      ∧ showFieldError (js "nome") (js "x") s1 = Some (tt, s1)
      ∧ clearFieldError (js "nome") Sample.filled = Some (tt, s2)
      ∧ clearFieldError (js "nome") s2 = Some (tt, s2).
Proof.
  assert (Hp : presentable Sample.filled (js "nome"))
    by (apply (bool_decide_unpack _); vm_compute; exact I).
  split; [exact Hp|].
  exact (presenter_idempotent Sample.filled (js "nome") (js "x") Hp).
Defined.

(** C9 as stated fails on a page whose container already holds two
    error displays: the first call replaces one of them, the second call
    the other, so the texts shown differ after the second call. *)
Lemma presenter_idempotent_counterexample :
  ∃ s1 s2,
    showFieldError (js "nome") (js "x") Sample.stale = Some (tt, s1)
    ∧ showFieldError (js "nome") (js "x") s1 = Some (tt, s2)
    ∧ Sample.displayed s2 ≠ Sample.displayed s1.
Proof.
  eexists _, _.
  split; [eapply showFieldError_registered; vm_compute; reflexivity|].
  split; [eapply showFieldError_registered; vm_compute; reflexivity|].
  vm_compute. discriminate.
Qed.


(** Eleven saves on the filled form. *)
Lemma history_keeps_last_ten_witness :
  loadable (localStorage Sample.filled
            !! (formName Sample.filled ++ js "-submissions"))
  ∧ 10 ≤ length Sample.saves
  ∧ ∃ s', saveAll (H := UTC.host) Sample.saves Sample.filled = Some (tt, s')
      ∧ getSubmissionHistory s'
        = JArr (submission (H := UTC.host) <$> slice_last 10 Sample.saves)
      ∧ length (submission (H := UTC.host) <$> slice_last 10 Sample.saves) = 10.
Proof.
  assert (Hl : loadable (localStorage Sample.filled
                         !! (formName Sample.filled ++ js "-submissions")))
    by (apply (bool_decide_unpack _); vm_compute; exact I).
  assert (Hn : 10 ≤ length Sample.saves) by (vm_compute; lia).
  split; [exact Hl|]. split; [exact Hn|].
  exact (proj2 (proj2 (history_keeps_last_ten (H := UTC.host) Sample.now ∅
                         Sample.saves Sample.filled Hl)) Hn).
Defined.

(** Submitting the filled form stores one record and leaves no error. *)
Lemma submission_only_when_valid_witness :
  wf Sample.filled
  ∧ ∃ s1 s2,
      validateForm Sample.now Sample.filled = Some (true, s1)
      ∧ errors s1 = ∅
      ∧ onSubmit (H := UTC.host) Sample.now Sample.filled = Some (tt, s2)
      ∧ errors s2 = ∅
      ∧ length (stored s2) = 1.
Proof.
  assert (Hwf : wf Sample.filled)
    by (apply (bool_decide_unpack _); vm_compute; exact I).
  split; [exact Hwf|].
  destruct (submission_only_when_valid (H := UTC.host) Sample.now Sample.filled Hwf)
    as (valid & s1 & Hv & Hiff & _ & _ & Hvalid).
  assert (Hall : valid = true).
  { apply Hiff. apply (bool_decide_unpack _). vm_compute. exact I. }
  subst valid. destruct (Hvalid eq_refl) as (He1 & s2 & Hs & _ & He2 & Hst).
  exists s1, s2. repeat split; try assumption.
  rewrite Hst. reflexivity.
Defined.

End sample.

(** ** The rules as sets of values *)

Import Lang Store Outcome.

Section regex_facts.

Lemma nullable_matches r : nullable r = true ↔ matches r [].
Proof.
  split.
  - induction r; cbn; intros Hn; try done.
    + constructor.
    + apply andb_true_iff in Hn as [H1 H2].
      change (@nil N) with (@nil N ++ []). constructor; auto.
    + apply orb_true_iff in Hn as [H1|H2]; [apply matches_alt_l|apply matches_alt_r]; auto.
    + constructor.
  - intros Hm. remember [] as s eqn:Hs.
    induction Hm; cbn; subst; try done.
    + apply app_eq_nil in Hs as [-> ->]. rewrite IHHm1, IHHm2; done.
    + by rewrite IHHm.
    + rewrite IHHm by done. apply orb_true_r.
Qed.

Lemma matches_star_cons r c s :
  matches (Star r) (c :: s) →
  ∃ s1 s2, s = s1 ++ s2 ∧ matches r (c :: s1) ∧ matches (Star r) s2.
Proof.
  intros Hm. remember (Star r) as r' eqn:Hr. remember (c :: s) as t eqn:Ht.
  revert s Ht. induction Hm as [| | | | | |r0 s1 s2 Hm1 _ Hm2 IH2];
    intros s0 Ht; try done.
  injection Hr as ->. destruct s1 as [|c' s1].
  - cbn in Ht. by apply IH2.
  - injection Ht as -> <-. by exists s1, s2.
Qed.

Lemma matches_seq_inv r1 r2 s :
  matches (Seq r1 r2) s ↔ ∃ s1 s2, s = s1 ++ s2 ∧ matches r1 s1 ∧ matches r2 s2.
Proof.
  split.
  - intros Hm. inversion Hm; subst. eauto.
  - intros (s1 & s2 & -> & H1 & H2). by constructor.
Qed.

Lemma deriv_matches c r s : matches (deriv c r) s ↔ matches r (c :: s).
Proof.
  revert s. induction r as [| |p|r1 IH1 r2 IH2|r1 IH1 r2 IH2|r IH]; intros s; cbn [deriv].
  - split; intros Hm; inversion Hm.
  - split; intros Hm; inversion Hm.
  - destruct (p c) eqn:Hp; split; intros Hm; inversion Hm; subst.
    + by constructor.
    + constructor.
    + congruence.
  - assert (Hseq : matches (Seq (deriv c r1) r2) s
      ↔ ∃ s1 s2, s = s1 ++ s2 ∧ matches r1 (c :: s1) ∧ matches r2 s2).
    { split.
      - intros Hm. inversion Hm; subst. eexists _, _. split; [done|].
        split; [by apply IH1|done].
      - intros (s1 & s2 & -> & H1 & H2). constructor; [by apply IH1|done]. }
    assert (Hgoal : matches (Seq r1 r2) (c :: s)
      ↔ (∃ s1 s2, s = s1 ++ s2 ∧ matches r1 (c :: s1) ∧ matches r2 s2)
        ∨ (matches r1 [] ∧ matches r2 (c :: s))).
    { split.
      - intros Hm. apply matches_seq_inv in Hm as (s1 & s2 & Heq & H1 & H2).
        destruct s1 as [|c' s1]; cbn in Heq.
        + subst. by right.
        + injection Heq as <- ->. left. by exists s1, s2.
      - intros [(s1 & s2 & -> & H1 & H2)|[H1 H2]].
        + change (c :: s1 ++ s2) with ((c :: s1) ++ s2). by constructor.
        + change (c :: s) with ([] ++ c :: s). by constructor. }
    rewrite Hgoal. destruct (nullable r1) eqn:Hn.
    + split.
      * intros Hm. inversion Hm; subst.
        -- left. by apply Hseq.
        -- right. split; [by apply nullable_matches|by apply IH2].
      * intros [H|[H1 H2]].
        -- apply matches_alt_l. by apply Hseq.
        -- apply matches_alt_r. by apply IH2.
    + rewrite Hseq. split; [auto|]. intros [H|[H1 _]]; [done|].
      apply nullable_matches in H1. congruence.
  - split; intros Hm; inversion Hm; subst.
    + apply matches_alt_l. by apply IH1.
    + apply matches_alt_r. by apply IH2.
    + apply matches_alt_l. by apply IH1.
    + apply matches_alt_r. by apply IH2.
  - split.
    + intros Hm. inversion Hm; subst.
      change (c :: s1 ++ s2) with ((c :: s1) ++ s2).
      constructor; [by apply IH|done].
    + intros Hm. apply matches_star_cons in Hm as (s1 & s2 & -> & H1 & H2).
      constructor; [by apply IH|done].
Qed.

Lemma test_anchored_matches r s : test_anchored r s = true ↔ matches r s.
Proof.
  unfold test_anchored. revert r. induction s as [|c s IH]; intros r; cbn.
  - apply nullable_matches.
  - rewrite IH. apply deriv_matches.
Qed.


Lemma matches_class_inv p s : matches (Class p) s ↔ ∃ c, s = [c] ∧ p c = true.
Proof.
  split.
  - intros Hm. inversion Hm; subst. eauto.
  - intros (c & -> & Hp). by constructor.
Qed.

Lemma matches_star_class p s :
  matches (Star (Class p)) s ↔ Forall (λ c, p c = true) s.
Proof.
  split.
  - intros Hm. remember (Star (Class p)) as r eqn:Hr.
    induction Hm as [| | | | | |r0 s1 s2 Hm1 _ Hm2 IH2]; try done.
    injection Hr as ->. apply matches_class_inv in Hm1 as (c & -> & Hp).
    constructor; [done|]. by apply IH2.
  - induction 1 as [|c s Hc _ IH]; [constructor|].
    change (c :: s) with ([c] ++ s). constructor; [by constructor|done].
Qed.

Lemma matches_plus_class p s :
  matches (Plus (Class p)) s ↔ s ≠ [] ∧ Forall (λ c, p c = true) s.
Proof.
  unfold Plus. rewrite matches_seq_inv. split.
  - intros (s1 & s2 & -> & H1 & H2).
    apply matches_class_inv in H1 as (c & -> & Hp).
    apply matches_star_class in H2. split; [done|]. by constructor.
  - intros [Hne Hall]. destruct s as [|c s]; [done|].
    apply Forall_cons in Hall as [Hc Hs]. exists [c], s.
    split; [done|]. split; [by constructor|by apply matches_star_class].
Qed.

Lemma matches_lit c s : matches (Lit c) s ↔ s = [c].
Proof.
  unfold Lit. rewrite matches_class_inv. split.
  - intros (c' & -> & Hc). by apply N.eqb_eq in Hc as ->.
  - intros ->. exists c. by rewrite N.eqb_refl.
Qed.

Lemma not_space_at_plain s :
  matches (Plus not_space_at) s ↔ s ≠ [] ∧ Forall plain s.
Proof.
  unfold not_space_at. rewrite matches_plus_class.
  apply and_iff_compat_l, Forall_proper; [|done]. intros c. unfold plain.
  rewrite negb_true_iff, orb_false_iff, N.eqb_neq. done.
Qed.

(** X1. The e-mail rule accepts exactly the empty value and the values
    [local@domain.tld] whose three parts are non-empty and hold neither
    white space nor [@] (the domain and the last part may hold dots). *)
Theorem email_accepts now value arg :
  email now value arg = None
  ↔ value = []
    ∨ ∃ loc domain tld,
        value = loc ++ [64%N] ++ domain ++ [46%N] ++ tld
        ∧ loc ≠ [] ∧ domain ≠ [] ∧ tld ≠ []
        ∧ Forall plain loc ∧ Forall plain domain ∧ Forall plain tld.
Proof.
  unfold email. destruct value as [|c value]; [by split; auto|].
  cbn [truthy andb]. set (v := c :: value).
  assert (Hm : matches emailRegex v
    ↔ ∃ loc domain tld,
        v = loc ++ [64%N] ++ domain ++ [46%N] ++ tld
        ∧ loc ≠ [] ∧ domain ≠ [] ∧ tld ≠ []
        ∧ Forall plain loc ∧ Forall plain domain ∧ Forall plain tld).
  { unfold emailRegex. rewrite matches_seq_inv. split.
    - intros (loc & s1 & -> & Hloc & H1).
      apply matches_seq_inv in H1 as (at_ & s2 & -> & Hat & H2).
      apply matches_seq_inv in H2 as (domain & s3 & -> & Hdom & H3).
      apply matches_seq_inv in H3 as (dot & tld & -> & Hdot & Htld).
      apply matches_lit in Hat as ->. apply matches_lit in Hdot as ->.
      apply not_space_at_plain in Hloc as [? ?].
      apply not_space_at_plain in Hdom as [? ?].
      apply not_space_at_plain in Htld as [? ?].
      by exists loc, domain, tld.
    - intros (loc & domain & tld & -> & ? & ? & ? & ? & ? & ?).
      exists loc, ([64%N] ++ domain ++ [46%N] ++ tld). split; [done|].
      split; [by apply not_space_at_plain|].
      constructor; [by apply matches_lit|].
      constructor; [by apply not_space_at_plain|].
      constructor; [by apply matches_lit|by apply not_space_at_plain]. }
  rewrite <- Hm, <- test_anchored_matches.
  destruct (test_anchored emailRegex v); cbn; split; auto; try done.
  by intros [|].
Qed.

End regex_facts.

Section required_facts.

Lemma trimStart_nil s : trimStart s = [] ↔ Forall (λ c, is_space c = true) s.
Proof.
  induction s as [|c s IH]; cbn; [by split|].
  destruct (is_space c) eqn:Hc.
  - rewrite IH. split; [by constructor|]. by intros [_ ?]%Forall_cons.
  - split; [done|]. intros [? _]%Forall_cons. congruence.
Qed.

Lemma trimStart_suffix s : ∃ pre, s = pre ++ trimStart s ∧ Forall (λ c, is_space c = true) pre.
Proof.
  induction s as [|c s (pre & Hs & Hpre)]; cbn; [by exists []|].
  destruct (is_space c) eqn:Hc.
  - exists (c :: pre). split; [by rewrite Hs at 1|by constructor].
  - by exists [].
Qed.

Lemma trim_nil s : trim s = [] ↔ Forall (λ c, is_space c = true) s.
Proof.
  unfold trim. split.
  - intros Ht. apply (f_equal (λ l : jsstring, rev l)) in Ht; cbn beta in Ht. rewrite rev_involutive in Ht. cbn in Ht.
    apply trimStart_nil in Ht. apply Forall_rev in Ht. rewrite rev_involutive in Ht.
    destruct (trimStart_suffix s) as (pre & Hs & Hpre). rewrite Hs.
    by apply Forall_app.
  - intros Hs. apply trimStart_nil in Hs. by rewrite Hs.
Qed.

(** X2. The required rule fails, with its message, exactly on the values
    that hold nothing but white space (the empty value among them). *)
Theorem required_rejects_blank now value arg :
  (required now value arg = Some (js "Este campo é obrigatório.")
   ↔ Forall (λ c, is_space c = true) value)
  ∧ (required now value arg = None
     ↔ ∃ c, c ∈ value ∧ is_space c = false).
Proof.
  assert (Hr : required now value arg =
    if bool_decide (Forall (λ c, is_space c = true) value)
    then Some (js "Este campo é obrigatório.") else None).
  { unfold required. destruct value as [|c value]; [done|]. cbn [truthy negb orb].
    apply bool_decide_ext_if. apply trim_nil. }
  rewrite Hr. case_bool_decide as Hall; split; split; try done.
  - intros (c & Hin & Hc). rewrite Forall_forall in Hall.
    specialize (Hall c Hin). congruence.
  - intros _. apply not_Forall_Exists in Hall; [|apply _].
    apply Exists_exists in Hall as (c & Hin & Hc).
    exists c. split; [done|]. by apply not_true_is_false.
Qed.

End required_facts.

Section nasc_sets.
Context `{DateHost}.

Local Open Scope Z_scope.

(** X3. When the host's years grow with time, the birth-date rule
    accepts exactly the empty value, the values that do not parse to a
    date, and the dates whose year lies at least eighteen before the
    current year; month and day play no part, and an unparseable date is
    accepted. *)
Theorem nasc_accepts now value arg :
  (∀ a b, a ≤ b → getFullYear a ≤ getFullYear b) →
  nasc now value arg = None
  ↔ value = [] ∨ Date_parse value = NaN
    ∨ ∃ t, Date_parse value = Some t ∧ 18 ≤ getFullYear now - getFullYear t.
Proof.
  intros Hmono. unfold nasc. destruct value as [|c value]; [by split; auto|].
  cbn [truthy negb]. destruct (Date_parse (c :: value)) as [t|];
    cbn [fmap option_fmap option_map sub lt gt].
  - destruct (Z.ltb_spec (getFullYear now - getFullYear t) 18) as [Hage|Hage].
    + split; [done|]. intros [?|[?|(t' & [= <-] & ?)]]; try done. lia.
    + destruct (Z.ltb_spec now t) as [Hlt|Hge].
      * specialize (Hmono now t). lia.
      * split; [|done]. intros _. right. right. by exists t.
  - split; [|done]. intros _. by right; left.
Qed.

Local Close Scope Z_scope.

End nasc_sets.

Section nasc_sample.

Lemma nasc_accepts_witness :
  nasc (H := UTC.host) Sample.now (js "31/12/2020") NaN = None
  ↔ js "31/12/2020" = [] ∨ UTC.parse_iso_date (js "31/12/2020") = NaN
    ∨ ∃ t, UTC.parse_iso_date (js "31/12/2020") = Some t
        ∧ (18 ≤ UTC.YearFromTime Sample.now - UTC.YearFromTime t)%Z.
Proof.
  apply (nasc_accepts (H := UTC.host) Sample.now (js "31/12/2020") NaN).
  apply YearFromTime_mono.
Defined.

End nasc_sample.

(** ** The registry and the rules a pass runs *)

Section registry_facts.

(** Every invocation of a pass is of a built-in name, and its result is
    what the rule registered under that name returns on the value. *)
Lemma rulesRun_calls vs now f calls error :
  rulesRun vs now f = Some (calls, error) →
  Forall (λ call, call.1 ∈ builtin
                  ∧ ∃ (fn : validator) arg,
                      vs !! call.1 = Some fn
                      ∧ call.2 = fn now (Dom.value f) arg) calls.
Proof.
  unfold rulesRun, invoke. cbv [mbind option_bind]. intros Hrun.
  assert (Hb : ∀ n, n ∈ kindRules ∨ n = js "required" ∨ n = js "minlength" →
               n ∈ builtin).
  { intros n [Hn | [-> | ->]]; [by apply kindRules_builtin|by repeat constructor..]. }
  assert (Hcall : ∀ name (fn : validator) arg,
    vs !! name = Some fn →
    name ∈ kindRules ∨ name = js "required" ∨ name = js "minlength" →
    (λ call : jsstring * result, call.1 ∈ builtin
       ∧ ∃ (fn : validator) arg, vs !! call.1 = Some fn
           ∧ call.2 = fn now (Dom.value f) arg) (name, fn now (Dom.value f) arg)).
  { intros name fn arg Hfn Hn. split; [by apply Hb|]. by exists fn, arg. }
  repeat match type of Hrun with
  | context [ if negb (is_error ?e) && ?b then _ else _ ] =>
      destruct (negb (is_error e) && b)
  | context [ Dom.hasAttribute f ?a ] => destruct (Dom.hasAttribute f a)
  | context [ vs !! ?n ] =>
      let fn := fresh "fn" in let E := fresh "E" in
      destruct (vs !! n) as [fn|] eqn:E; cbn [fmap option_fmap option_map] in Hrun
  | context [ kindRule ?t ?i ] =>
      let rule := fresh "rule" in let E := fresh "Ek" in
      destruct (kindRule t i) as [rule|] eqn:E; [apply kindRule_in in E|]
  end; try done.
  all: injection Hrun as <- <-.
  all: repeat (apply Forall_app; split).
  all: repeat first [apply Forall_nil_2 | apply Forall_cons; split].
  all: try (eapply Hcall; [eassumption|]; auto).
Qed.

Lemma set_validators_show vs fieldId message s :
  showFieldError fieldId message (set_validators vs s)
  = (λ r, (r.1, set_validators vs r.2)) <$> showFieldError fieldId message s.
Proof.
  unfold showFieldError. cbv [mbind M_bind mret M_ret get modify lift throw].
  cbn [fields controls containers set_validators].
  destruct (fields s !! fieldId) as [ref|]; [|done].
  destruct (controls s !! ref) as [c|]; [|done].
  by destruct (containers s !! Dom.parentElement c).
Qed.

Lemma set_validators_clear vs fieldId s :
  clearFieldError fieldId (set_validators vs s)
  = (λ r, (r.1, set_validators vs r.2)) <$> clearFieldError fieldId s.
Proof.
  unfold clearFieldError. cbv [mbind M_bind mret M_ret get modify lift throw].
  cbn [fields controls containers set_validators].
  destruct (fields s !! fieldId) as [ref|]; [|done].
  destruct (controls s !! ref) as [c|]; [|done].
  by destruct (containers s !! Dom.parentElement c).
Qed.

Lemma set_validators_present vs fieldId error s :
  present fieldId error (set_validators vs s)
  = (λ r, (r.1, set_validators vs r.2)) <$> present fieldId error s.
Proof.
  unfold present.
  assert (Hc : (clearFieldError fieldId;; mret true) (set_validators vs s)
    = (λ r : bool * state, (r.1, set_validators vs r.2))
        <$> (clearFieldError fieldId;; mret true) s).
  { unfold mbind, M_bind. rewrite set_validators_clear.
    by destruct (clearFieldError fieldId s) as [[[] ?]|]. }
  destruct error as [message|]; [|done]. destruct (truthy message); [|done].
  unfold mbind, M_bind. rewrite set_validators_show.
  by destruct (showFieldError fieldId message s) as [[[] ?]|].
Qed.

(** The presenter touches neither the registry nor the trace. *)
Lemma show_frame fieldId message s r :
  showFieldError fieldId message s = Some r →
  validators r.2 = validators s ∧ trace r.2 = trace s.
Proof.
  unfold showFieldError. cbv [mbind M_bind mret M_ret get modify lift throw].
  destruct (fields s !! fieldId) as [ref|]; [|by intros [= <-]].
  destruct (controls s !! ref) as [c|]; [|done].
  destruct (containers s !! Dom.parentElement c); [|done]. by intros [= <-].
Qed.

Lemma clear_frame fieldId s r :
  clearFieldError fieldId s = Some r →
  validators r.2 = validators s ∧ trace r.2 = trace s.
Proof.
  unfold clearFieldError. cbv [mbind M_bind mret M_ret get modify lift throw].
  destruct (fields s !! fieldId) as [ref|]; [|by intros [= <-]].
  destruct (controls s !! ref) as [c|]; [|done].
  destruct (containers s !! Dom.parentElement c); [|done]. by intros [= <-].
Qed.

Lemma present_frame fieldId error s r :
  present fieldId error s = Some r →
  validators r.2 = validators s ∧ trace r.2 = trace s.
Proof.
  unfold present, mbind, M_bind.
  assert (Hc : match clearFieldError fieldId s with
               | Some (_, s') => (mret true : M bool) s' | None => None end = Some r →
               validators r.2 = validators s ∧ trace r.2 = trace s).
  { destruct (clearFieldError fieldId s) as [[[] t]|] eqn:E; [|done].
    intros [= <-]. exact (clear_frame _ _ _ E). }
  destruct error as [message|]; [|done]. destruct (truthy message); [|done].
  destruct (showFieldError fieldId message s) as [[[] t]|] eqn:E; [|done].
  intros [= <-]. exact (show_frame _ _ _ _ E).
Qed.

Lemma validateField_unknown now i s :
  controls s !! i = None → validateField now i s = None.
Proof.
  intros Hc. unfold validateField. cbv [mbind M_bind get lift throw].
  by rewrite Hc.
Qed.

(** X4. A rule registered under a name other than the eight built-in
    names is never run: with it in the registry, [validateField] returns
    the same verdict and leaves the same state. *)
Theorem custom_name_never_runs now i s name (fn : validator) :
  name ∉ builtin →
  validateField now i (set_validators (<[name := fn]> (validators s)) s)
  = (λ r, (r.1, set_validators (<[name := fn]> (validators r.2)) r.2))
      <$> validateField now i s.
Proof.
  intros Hname. set (vs := <[name := fn]> (validators s)).
  assert (Hrun : ∀ f, rulesRun vs now f = rulesRun (validators s) now f).
  { intros f. unfold rulesRun, invoke.
    assert (Hl : ∀ n, n ∈ builtin → vs !! n = validators s !! n).
    { intros n Hn. apply lookup_insert_ne. by intros ->. }
    rewrite !(Hl (js "required")), !(Hl (js "minlength")) by (by repeat constructor).
    destruct (kindRule _ _) as [rule|] eqn:Hk; [|done].
    by rewrite (Hl rule) by (by apply kindRules_builtin, (kindRule_in _ _ _ Hk)). }
  destruct (controls s !! i) as [f|] eqn:Hf.
  - rewrite (validateField_pass now i _ f), (validateField_pass now i s f) by done.
    cbn [validators set_validators]. rewrite Hrun.
    destruct (rulesRun (validators s) now f) as [[calls error]|]; [|done].
    change (set_trace (trace (set_validators vs s) ++ calls) (set_validators vs s))
      with (set_validators vs (set_trace (trace s ++ calls) s)).
    rewrite set_validators_present.
    destruct (present _ _ _) as [[b t]|] eqn:Hp; [|done]. cbn.
    destruct (present_frame _ _ _ _ Hp) as [Hv _]. cbn in Hv.
    unfold vs. by rewrite Hv.
  - by rewrite !validateField_unknown.
Qed.

Lemma custom_name_never_runs_witness :
  (js "senha" ∉ builtin)
  ∧ validateField Sample.now 0
      (set_validators (<[js "senha" := λ _ _ _, Some (js "fraca")]>
                         (validators Sample.filled)) Sample.filled)
    = (λ r, (r.1, set_validators (<[js "senha" := λ _ _ _, Some (js "fraca")]>
                                    (validators r.2)) r.2))
        <$> validateField Sample.now 0 Sample.filled.
Proof.
  assert (Hn : js "senha" ∉ builtin).
  { apply (bool_decide_unpack _). vm_compute. exact I. }
  split; [exact Hn|]. by apply custom_name_never_runs.
Defined.

(** X5. The rules a pass invokes are looked up in the registry at the
    time of the pass, under built-in names only: every invocation
    [validateField] makes is of a built-in name and returns what the rule
    now registered under that name returns on the field's value, so a
    rule registered over a built-in name replaces it. *)
Theorem validateField_runs_registered_rules now i s f :
  wf s → controls s !! i = Some f →
  ∃ b s' calls,
    validateField now i s = Some (b, s')
    ∧ trace s' = trace s ++ calls
    ∧ Forall (λ call, call.1 ∈ builtin
                      ∧ ∃ (fn : validator) arg,
                          validators s !! call.1 = Some fn
                          ∧ call.2 = fn now (Dom.value f) arg) calls.
Proof.
  intros Hwf Hf.
  destruct (validateField_step now i s f Hwf Hf)
    as (calls & error & s' & Hrun & _ & Hv & _ & Hp & _).
  exists (negb (is_error error)), s', calls. split; [done|].
  split; [apply (same_trace _ _ Hp)|]. by apply (rulesRun_calls _ _ _ _ _ Hrun).
Qed.

Lemma validateField_runs_registered_rules_witness :
  ∃ b s' calls,
    validateField Sample.now 0 Sample.filled = Some (b, s')
    ∧ trace s' = trace Sample.filled ++ calls
    ∧ Forall (λ call, call.1 ∈ builtin
                      ∧ ∃ (fn : validator) arg,
                          validators Sample.filled !! call.1 = Some fn
                          ∧ call.2 = fn Sample.now
                                       (Dom.value (Sample.nome (js "Maria"))) arg)
        calls.
Proof.
  apply (validateField_runs_registered_rules Sample.now 0 Sample.filled
           (Sample.nome (js "Maria"))).
  - apply (bool_decide_unpack _). vm_compute. exact I.
  - vm_compute. reflexivity.
Defined.

End registry_facts.

Section estado_facts.

Lemma estado_truthy now value arg : truthy value = true → estado now value arg = None.
Proof.
  intros Hv. unfold estado. rewrite Hv. cbn.
  by rewrite bool_decide_eq_false_2 by (by destruct value).
Qed.

Lemma rulesRun_estado vs now f calls error :
  vs !! js "estado" = Some estado →
  rulesRun vs now f = Some (calls, error) →
  Forall (λ call, call.1 = js "estado" → call.2 = None) calls.
Proof.
  intros He. unfold rulesRun, invoke. cbv [mbind option_bind].
  assert (Hr : js "required" ≠ js "estado") by (by vm_compute).
  assert (Hm : js "minlength" ≠ js "estado") by (by vm_compute).
  assert (Hkind : ∀ rule (fk : validator),
    truthy (Dom.value f) = true → vs !! rule = Some fk →
    rule = js "estado" → fk now (Dom.value f) NaN = None).
  { intros rule fk Hv Hk ->. rewrite He in Hk. injection Hk as <-.
    by apply estado_truthy. }
  destruct (Dom.hasAttribute f (js "required"));
    [destruct (vs !! js "required") as [fr|]; [|done];
     cbn [fmap option_fmap option_map]|].
  all: destruct (negb _ && truthy _) eqn:Hgo;
    [apply andb_true_iff in Hgo as [_ Hv]
    |by intros [= <- <-]; repeat constructor].
  all: destruct (kindRule _ _) as [rule|];
    [destruct (vs !! rule) as [fk|] eqn:Hk; [|done];
     cbn [fmap option_fmap option_map];
     specialize (Hkind rule fk Hv Hk)|].
  all: destruct (negb _ && Dom.hasAttribute _ _);
    [destruct (vs !! js "minlength") as [fm|]; [|done]|].
  all: intros [= <- <-].
  all: repeat first [apply Forall_app; split | apply Forall_cons; split
                    | apply Forall_nil_2]; cbn; done.
Qed.

(** X6. The state rule as registered by default never reports: whenever
    [validateField] runs it, the value is not empty, so the branch that
    returns its message is not reached. *)
Theorem estado_rule_never_fails now i s f :
  wf s → controls s !! i = Some f →
  validators s !! js "estado" = Some estado →
  ∃ b s' calls,
    validateField now i s = Some (b, s')
    ∧ trace s' = trace s ++ calls
    ∧ Forall (λ call, call.1 = js "estado" → call.2 = None) calls.
Proof.
  intros Hwf Hf He.
  destruct (validateField_step now i s f Hwf Hf)
    as (calls & error & s' & Hrun & _ & Hv & _ & Hp & _).
  exists (negb (is_error error)), s', calls. split; [done|].
  split; [apply (same_trace _ _ Hp)|]. by apply (rulesRun_estado _ _ _ _ _ He Hrun).
Qed.

Lemma estado_rule_never_fails_witness :
  ∃ b s' calls,
    validateField Sample.now 0 estadoPage = Some (b, s')
    ∧ trace s' = trace estadoPage ++ calls
    ∧ Forall (λ call, call.1 = js "estado" → call.2 = None) calls.
Proof.
  eapply (estado_rule_never_fails Sample.now 0 estadoPage).
  - apply (bool_decide_unpack _). vm_compute. exact I.
  - vm_compute. reflexivity.
  - vm_compute. reflexivity.
Defined.

End estado_facts.

(** ** What the page shows after a pass *)

Section display.

(** X7. After [validateField] the page agrees with the verdict. On an
    error the message is recorded for the field, the control registered
    under the field's id carries [is-invalid] and [aria-invalid="true"],
    its container carries [form-field--error] and shows exactly one error
    display, with the message; otherwise nothing is recorded, the marks
    are absent, [aria-invalid] is ["false"] and no error display is
    left. *)
Theorem validateField_display now i s f ref :
  wf s → controls s !! i = Some f → fields s !! Dom.id f = Some ref →
  ∃ calls error s' c' p',
    rulesRun (validators s) now f = Some (calls, error)
    ∧ validateField now i s = Some (negb (is_error error), s')
    ∧ controls s' !! ref = Some c'
    ∧ containers s' !! Dom.parentElement c' = Some p'
    ∧ if is_error error then
        errors s' !! Dom.id f = error
        ∧ markedInvalid c' p'
        ∧ Dom.textContent <$> errorDisplays p' = [default [] error]
      else
        errors s' !! Dom.id f = None
        ∧ markedValid c' p'
        ∧ errorDisplays p' = [].
Proof.
  intros Hwf Hf Href.
  destruct (validateField_step now i s f Hwf Hf)
    as (calls & error & s0 & Hrun & _ & _).
  rewrite (validateField_pass now i s f Hf), Hrun.
  set (s1 := set_trace (trace s ++ calls) s).
  assert (Hwf1 : wf s1) by (by apply wf_set_trace).
  destruct (wf_registered s1 _ ref Hwf1 Href) as (c & p & Hc & _ & Hp & Hone).
  assert (Hlt : ref < length (controls s1)) by (by eapply lookup_lt_Some).
  assert (Hlp : Dom.parentElement c < length (containers s1))
    by (by eapply lookup_lt_Some).
  assert (Hclear : ∃ s' c' p',
    (clearFieldError (Dom.id f);; mret true) s1 = Some (true, s')
    ∧ controls s' !! ref = Some c'
    ∧ containers s' !! Dom.parentElement c' = Some p'
    ∧ errors s' !! Dom.id f = None ∧ markedValid c' p' ∧ errorDisplays p' = []).
  { unfold mbind, M_bind.
    rewrite (clearFieldError_registered _ _ ref c p) by done.
    eexists _, _, _. split; [done|]. unfold cleared.
    cbn [controls containers errors set_containers set_controls set_errors].
    split; [by apply list_lookup_insert_eq|].
    split; [by apply list_lookup_insert_eq|].
    split; [apply lookup_delete_eq|]. split.
    - unfold markedValid. cbn. split; [set_solver|].
      split; [apply lookup_insert_eq|set_solver].
    - unfold errorDisplays. cbn. by apply single_display_removed. }
  exists calls, error.
  destruct error as [message|]; cbn [is_error present]; [|by destruct Hclear as (?&?&?&?); eauto 10].
  destruct (truthy message) eqn:Hm; [|by destruct Hclear as (?&?&?&?); eauto 10].
  unfold mbind, M_bind.
  rewrite (showFieldError_registered _ _ _ ref c p) by done.
  eexists _, _, _. split; [done|]. split; [done|]. unfold shown.
  cbn [controls containers errors set_containers set_controls set_errors].
  split; [by apply list_lookup_insert_eq|].
  split; [by apply list_lookup_insert_eq|].
  split; [apply lookup_insert_eq|]. split.
  - unfold markedInvalid. cbn. split; [set_solver|].
    split; [apply lookup_insert_eq|set_solver].
  - unfold errorDisplays in *. cbn. rewrite filter_app, single_display_removed by done.
    rewrite filter_cons_True by apply error_node_matches. done.
Qed.

Lemma validateField_display_witness :
  ∃ calls error s' c' p',
    rulesRun (validators Sample.filled) Sample.now (Sample.nome (js "Maria"))
    = Some (calls, error)
    ∧ validateField Sample.now 0 Sample.filled = Some (negb (is_error error), s')
    ∧ controls s' !! 0 = Some c'
    ∧ containers s' !! Dom.parentElement c' = Some p'
    ∧ if is_error error then
        errors s' !! Dom.id (Sample.nome (js "Maria")) = error
        ∧ markedInvalid c' p'
        ∧ Dom.textContent <$> errorDisplays p' = [default [] error]
      else
        errors s' !! Dom.id (Sample.nome (js "Maria")) = None
        ∧ markedValid c' p'
        ∧ errorDisplays p' = [].
Proof.
  apply (validateField_display Sample.now 0 Sample.filled (Sample.nome (js "Maria")) 0).
  - apply (bool_decide_unpack _). vm_compute. exact I.
  - vm_compute. reflexivity.
  - vm_compute. reflexivity.
Defined.

End display.

(** ** The listeners *)

Section listeners.

(** X8. An input event runs no rule. It stores the typed value and
    leaves no error recorded for the control's id, whatever the value;
    the errors of the other fields stay. *)
Theorem onInput_clears_without_validating i v s f :
  wf s → controls s !! i = Some f →
  ∃ s', onInput i v s = Some (tt, s')
    ∧ trace s' = trace s
    ∧ errors s' = delete (Dom.id f) (errors s)
    ∧ Dom.value <$> controls s' = <[i := v]> (Dom.value <$> controls s).
Proof.
  intros Hwf Hf. unfold onInput.
  cbv [mbind M_bind mret M_ret get modify lift]. rewrite Hf.
  set (s1 := set_controls _ s).
  assert (Hwf1 : wf s1) by (by apply (wf_replace_control s i f)).
  assert (Hval : Dom.value <$> controls s1 = <[i := v]> (Dom.value <$> controls s)).
  { unfold s1. cbn. by rewrite list_fmap_insert. }
  case_bool_decide as He.
  - destruct He as [m He].
    assert (Hdom : Dom.id f ∈ dom (fields s1)).
    { apply (wf_errors _ Hwf1). by apply elem_of_dom_2 in He. }
    apply elem_of_dom in Hdom as [ref Href].
    destruct (wf_registered s1 _ ref Hwf1 Href) as (c & p & Hc & _ & Hp & _).
    exists (cleared (Dom.id f) ref c p s1).
    rewrite (clearFieldError_registered _ _ ref c p) by done.
    split; [done|]. split; [done|]. split; [done|].
    rewrite <- Hval. unfold cleared. cbn [controls set_containers set_controls].
    rewrite list_fmap_insert. apply list_insert_id.
    by rewrite list_lookup_fmap, Hc.
  - exists s1. split; [done|]. split; [done|]. split; [|done].
    symmetry. apply delete_id. cbn in He.
    by apply eq_None_not_Some.
Qed.

Lemma onInput_clears_without_validating_witness :
  ∃ s', onInput 0 (js "Ana") Sample.filled = Some (tt, s')
    ∧ trace s' = trace Sample.filled
    ∧ errors s' = delete (Dom.id (Sample.nome (js "Maria"))) (errors Sample.filled)
    ∧ Dom.value <$> controls s'
      = <[0 := js "Ana"]> (Dom.value <$> controls Sample.filled).
Proof.
  apply (onInput_clears_without_validating 0 (js "Ana") Sample.filled).
  - apply (bool_decide_unpack _). vm_compute. exact I.
  - vm_compute. reflexivity.
Defined.

End listeners.

Section fields_facts.

(** X9. [this.fields] maps an id to the last control that carries it:
    when two controls share an id, the presenter acts on the later one
    for both. *)
Theorem attachFields_last_wins cs fieldId i :
  attachFields cs !! fieldId = Some i
  ↔ Dom.id <$> cs !! i = Some fieldId
    ∧ ∀ j, i < j → Dom.id <$> cs !! j ≠ Some fieldId.
Proof.
  revert i. induction cs as [|c cs IH] using rev_ind; intros i.
  - unfold attachFields. cbn. rewrite lookup_empty. split; [done|]. by intros [? _].
  - rewrite attachFields_snoc.
    destruct (decide (Dom.id c = fieldId)) as [<-|Hne].
    + rewrite lookup_insert_eq. split.
      * intros [= <-]. split; [by rewrite list_lookup_middle|].
        intros j Hj. rewrite lookup_ge_None_2; [done|]. rewrite length_app. cbn. lia.
      * intros [Hi Hlast].
        destruct (decide (i = length cs)) as [->|Hi']; [done|].
        assert (Hlt : i < length cs).
        { destruct ((cs ++ [c]) !! i) eqn:E; [|done].
          apply lookup_lt_Some in E. rewrite length_app in E. cbn in E. lia. }
        exfalso. apply (Hlast (length cs) Hlt). by rewrite list_lookup_middle.
    + rewrite lookup_insert_ne by done. rewrite IH. split.
      * intros [Hi Hlast].
        assert (Hlt : i < length cs).
        { destruct (cs !! i) eqn:E; [|done]. by apply lookup_lt_Some in E. }
        split; [by rewrite lookup_app_l|].
        intros j Hj. destruct (decide (j < length cs)).
        -- rewrite lookup_app_l by done. by apply Hlast.
        -- destruct (decide (j = length cs)) as [->|].
           ++ rewrite list_lookup_middle by done. cbn. congruence.
           ++ rewrite lookup_ge_None_2; [done|]. rewrite length_app. cbn. lia.
      * intros [Hi Hlast].
        assert (Hlt : i < length cs).
        { destruct (decide (i < length cs)); [done|]. exfalso.
          destruct (decide (i = length cs)) as [->|].
          - rewrite list_lookup_middle in Hi by done. cbn in Hi. congruence.
          - rewrite lookup_ge_None_2 in Hi; [done|]. rewrite length_app. cbn. lia. }
        rewrite lookup_app_l in Hi by done. split; [done|].
        intros j Hj Hid. apply (Hlast j Hj).
        destruct (cs !! j) eqn:E; [|done].
        by rewrite (lookup_app_l_Some _ _ _ _ E).
Qed.

End fields_facts.

(** ** The whole form *)

Section form_errors.

Lemma recorded_input vs now c c' :
  input c = input c' → recorded vs now c = recorded vs now c'.
Proof. intros Hin. unfold recorded. by rewrite (rulesRun_input _ _ _ _ Hin). Qed.

Lemma validateEach_errors now inputs acc s :
  wf s → Forall (λ i, i < length (controls s)) inputs →
  NoDup ((λ i, Dom.id <$> controls s !! i) <$> inputs) →
  ∃ b s', validateEach now inputs acc s = Some (b, s')
    ∧ (∀ i f, i ∈ inputs → controls s !! i = Some f →
         errors s' !! Dom.id f = recorded (validators s) now f)
    ∧ (∀ fieldId, Some fieldId ∉ (λ i, Dom.id <$> controls s !! i) <$> inputs →
         errors s' !! fieldId = errors s !! fieldId).
Proof.
  revert acc s. induction inputs as [|i inputs IH]; intros acc s Hwf Hin Hnd.
  - exists acc, s. split; [done|]. split; [|done]. intros i f Hi. by apply elem_of_nil in Hi.
  - apply Forall_cons in Hin as [Hi Hin]. rewrite fmap_cons in Hnd.
    apply NoDup_cons in Hnd as [Hfresh Hnd].
    destruct (lookup_lt_is_Some_2 _ _ Hi) as [f Hf].
    destruct (validateField_step now i s f Hwf Hf)
      as (calls & error & s1 & Hrun & _ & Hv & Hwf1 & Hp1 & Herr1).
    assert (Hval1 : validated s s1) by (by exists calls).
    apply validated_presented in Hval1 as Hps.
    assert (Hids : ((λ j, Dom.id <$> controls s1 !! j) <$> inputs)
                 = ((λ j, Dom.id <$> controls s !! j) <$> inputs)).
    { apply list_fmap_ext. intros _ j _. by rewrite (presented_id _ _ j Hps). }
    destruct (IH (if negb (negb (is_error error)) then false else acc) s1 Hwf1)
      as (b & s' & Hloop & Hin' & Hout').
    { by rewrite (presented_length _ _ Hps). }
    { by rewrite Hids. }
    exists b, s'. cbn [validateEach]. unfold mbind, M_bind at 1. rewrite Hv, Hloop.
    split; [done|]. rewrite Hids in Hout'.
    assert (Hrec : errors s1 !! Dom.id f = recorded (validators s) now f).
    { rewrite Herr1. unfold recorded. rewrite Hrun. destruct error as [m|]; cbn.
      - destruct (truthy m); [apply lookup_insert_eq|apply lookup_delete_eq].
      - apply lookup_delete_eq. }
    split.
    + intros j g Hj Hg. apply elem_of_cons in Hj as [->|Hj].
      * assert (g = f) as -> by congruence.
        rewrite Hout'; [done|]. by rewrite Hf in Hfresh.
      * pose proof (presented_lookup _ _ j Hps) as Hlook.
        cbn [controls set_trace] in Hlook. rewrite Hg in Hlook.
        destruct (controls s1 !! j) as [g1|] eqn:Hg1; [|done].
        cbn in Hlook. assert (Hsame : input g1 = input g) by congruence.
        assert (Hid : Dom.id g1 = Dom.id g) by (unfold input in Hsame; congruence).
        rewrite <- Hid, (Hin' j g1 Hj Hg1), (same_validators _ _ Hps).
        by apply recorded_input.
    + intros fieldId Hout. rewrite fmap_cons, not_elem_of_cons in Hout.
      destruct Hout as [Hne Hout]. rewrite Hf in Hne. cbn in Hne.
      rewrite (Hout' _ Hout), Herr1.
      destruct (is_error error);
        [rewrite lookup_insert_ne|rewrite lookup_delete_ne]; congruence.
Qed.

(** X10. When the controls have distinct ids, [validateForm] leaves in
    [this.errors], for every control, the error of its own pass (and
    nothing for a control that passes), and it returns true exactly when
    [this.errors] is then empty. *)
Theorem validateForm_records_failures now s :
  wf s → NoDup (Dom.id <$> controls s) →
  ∃ b s', validateForm now s = Some (b, s')
    ∧ (∀ f, f ∈ controls s → errors s' !! Dom.id f = recorded (validators s) now f)
    ∧ (b = true ↔ errors s' = ∅).
Proof.
  intros Hwf Hnd.
  destruct (validateForm_spec now s Hwf) as (s' & Hv & Hwf' & Hval & Hnone).
  assert (Hseq : (λ i, Dom.id <$> controls s !! i) <$> seq 0 (length (controls s))
                 = Some <$> (Dom.id <$> controls s)).
  { apply list_eq. intros i. rewrite !list_lookup_fmap.
    destruct (decide (i < length (controls s))) as [Hi|Hi].
    - rewrite lookup_seq_lt by done. cbn.
      by destruct (lookup_lt_is_Some_2 _ _ Hi) as [f ->].
    - rewrite lookup_seq_ge by lia. by rewrite lookup_ge_None_2 by lia. }
  destruct (validateEach_errors now (seq 0 (length (controls s))) true s Hwf)
    as (b & s1 & Hloop & Hin & _).
  { apply Forall_forall. intros i Hi. apply elem_of_seq in Hi. lia. }
  { rewrite Hseq. apply NoDup_fmap; [|done]. by intros ?? [=]. }
  assert (Heq : Some (b, s1)
                = Some (forallb (passes (validators s) now) (controls s), s')).
  { by rewrite <- Hloop, <- Hv. }
  injection Heq as -> ->.
  exists (forallb (passes (validators s) now) (controls s)), s'.
  split; [done|].
  assert (Hall : ∀ f, f ∈ controls s →
            errors s' !! Dom.id f = recorded (validators s) now f).
  { intros f Hf. apply list_elem_of_lookup in Hf as [i Hf].
    apply (Hin i f); [|done]. apply elem_of_seq. apply lookup_lt_Some in Hf. lia. }
  split; [done|]. split; [done|]. intros Hempty.
  apply forallb_forall. intros f Hf%list_elem_of_In.
  specialize (Hall f Hf). rewrite Hempty, lookup_empty in Hall.
  unfold passes. unfold recorded in Hall.
  destruct (rulesRun_shape (validators s) now f (wf_validators _ Hwf))
    as (calls & error & Hrun & _).
  rewrite Hrun in *. by destruct error as [m|]; cbn in *; [destruct (truthy m)|].
Qed.

Lemma validateForm_records_failures_witness :
  ∃ b s', validateForm Sample.now Sample.untouched = Some (b, s')
    ∧ (∀ f, f ∈ controls Sample.untouched →
         errors s' !! Dom.id f = recorded (validators Sample.untouched) Sample.now f)
    ∧ (b = true ↔ errors s' = ∅).
Proof.
  apply (validateForm_records_failures Sample.now Sample.untouched).
  - apply (bool_decide_unpack _). vm_compute. exact I.
  - apply (bool_decide_unpack _). vm_compute. exact I.
Defined.

End form_errors.

(** ** Sessions: the constructor followed by events *)

Section sessions.
Context `{DateHost}.

Lemma construct_page form_id cs ps storage s :
  construct form_id cs ps storage = Some s →
  controls s = cs ∧ containers s = ps ∧ errors s = ∅
  ∧ localStorage s = storage ∧ trace s = [].
Proof.
  unfold construct. unfold mbind, M_bind.
  rewrite registerDefaultValidators_spec. by intros [= <-].
Qed.

Lemma presented_ids s s' :
  presented s s' → Dom.id <$> controls s' = Dom.id <$> controls s.
Proof.
  intros Hp. apply list_eq. intros i. rewrite !list_lookup_fmap.
  apply (presented_id _ _ i Hp).
Qed.

Lemma clearFieldError_ids fieldId s s' :
  clearFieldError fieldId s = Some (tt, s') →
  Dom.id <$> controls s' = Dom.id <$> controls s.
Proof.
  unfold clearFieldError. cbv [mbind M_bind mret M_ret get modify lift throw].
  destruct (fields s !! fieldId) as [ref|]; [|by intros [= <-]].
  destruct (controls s !! ref) as [c|] eqn:Hc; [|done].
  destruct (containers s !! Dom.parentElement c); [|done].
  intros [= <-]. cbn [controls set_containers set_controls set_errors].
  rewrite list_fmap_insert. apply list_insert_id. by rewrite list_lookup_fmap, Hc.
Qed.

(** No listener adds, removes or renames a control. *)
Lemma dispatch_ids now e s s' :
  wf s → targeted (length (controls s)) e →
  dispatch now e s = Some (tt, s') →
  Dom.id <$> controls s' = Dom.id <$> controls s.
Proof.
  intros Hwf Htarget. destruct e as [i|i v|]; cbn [dispatch targeted] in *.
  - destruct (lookup_lt_is_Some_2 _ _ Htarget) as [f Hf].
    destruct (validateField_step now i s f Hwf Hf)
      as (calls & error & s1 & _ & _ & Hv & _ & Hp & _).
    unfold onBlur, mbind, M_bind. rewrite Hv. intros [= <-].
    apply (presented_ids _ _ Hp).
  - destruct (lookup_lt_is_Some_2 _ _ Htarget) as [f Hf].
    unfold onInput. cbv [mbind M_bind mret M_ret get modify lift]. rewrite Hf.
    set (s1 := set_controls _ s).
    assert (Hids : Dom.id <$> controls s1 = Dom.id <$> controls s).
    { unfold s1. cbn. rewrite list_fmap_insert. apply list_insert_id.
      by rewrite list_lookup_fmap, Hf. }
    case_bool_decide; [|by intros [= <-]].
    intros Hclear%clearFieldError_ids. by rewrite Hclear.
  - destruct (validateForm_spec now s Hwf) as (s1 & Hv & Hwf1 & Hval & _).
    apply validated_presented in Hval. apply presented_ids in Hval.
    unfold onSubmit, mbind, M_bind. rewrite Hv.
    destruct (forallb _ _); [|by intros [= <-]].
    unfold handleValidFormSubmit.
    cbv [mbind M_bind mret M_ret get modify showSuccessMessage reset].
    rewrite saveFormData_spec by apply (wf_storage _ Hwf1).
    intros [= <-]. cbn [controls set_errors set_controls set_alerts set_localStorage].
    by rewrite <- list_fmap_compose.
Qed.

Lemma handleAll_wf events s :
  wf s → Forall (λ e, targeted (length (controls s)) e.2) events →
  ∃ s', handleAll events s = Some (tt, s') ∧ wf s'
    ∧ Dom.id <$> controls s' = Dom.id <$> controls s.
Proof.
  revert s. induction events as [|[now e] events IH]; intros s Hwf Hev.
  - by exists s.
  - apply Forall_cons in Hev as [He Hev]. cbn [snd] in He.
    destruct (dispatch_wf now e s Hwf) as (s1 & Hd & Hwf1).
    { by destruct e. }
    pose proof (dispatch_ids now e s s1 Hwf He Hd) as Hids.
    assert (Hlen : length (controls s1) = length (controls s)).
    { by rewrite <- (length_fmap Dom.id), Hids, length_fmap. }
    destruct (IH s1 Hwf1) as (s' & Hrun & Hwf' & Hids'); [by rewrite Hlen|].
    exists s'. cbn [handleAll]. unfold mbind, M_bind at 1. rewrite Hd.
    split; [done|]. split; [done|]. by rewrite Hids'.
Qed.

(** X11. On a page whose controls have their containers on the page, with
    at most one error display per container and a stored history that
    parses to an array (or to a falsy value, or is absent), the
    constructor succeeds and no sequence of blur, input and submit events
    on the form's controls makes a listener throw; the invariant holds
    after each, and the controls keep their ids. *)
Theorem listeners_never_throw form_id cs ps storage events :
  Forall (λ c, Dom.parentElement c < length ps) cs →
  Forall (λ p, length (errorDisplays p) ≤ 1) ps →
  loadable (storage !! (formName (blank form_id cs ps storage) ++ js "-submissions")) →
  Forall (λ e, targeted (length cs) e.2) events →
  ∃ s s', construct form_id cs ps storage = Some s
    ∧ handleAll events s = Some (tt, s')
    ∧ wf s'
    ∧ Dom.id <$> controls s' = Dom.id <$> cs.
Proof.
  intros Hcs Hps Hst Hev.
  destruct (construct_wf form_id cs ps storage Hcs Hps Hst) as (s & Hs & Hwf).
  destruct (construct_page _ _ _ _ _ Hs) as (Hc & _).
  destruct (handleAll_wf events s Hwf) as (s' & Hrun & Hwf' & Hids).
  { eapply Forall_impl; [exact Hev|]. intros e He. by rewrite Hc. }
  exists s, s'. by rewrite Hids, Hc.
Qed.

(** X12. Clearing the history removes the stored submissions and
    nothing else; the next save then succeeds, whatever was stored
    before, and leaves a history of exactly one record. *)
Theorem clear_then_save now data s :
  ∃ s1 s2,
    clearSubmissionHistory s = Some (tt, s1)
    ∧ getSubmissionHistory s1 = JArr []
    ∧ localStorage s1 !! (formName s ++ js "-current")
      = localStorage s !! (formName s ++ js "-current")
    ∧ saveFormData now data s1 = Some (tt, s2)
    ∧ getSubmissionHistory s2 = JArr [submission (now, data)].
Proof.
  set (s1 := set_localStorage
               (delete (formName s ++ js "-submissions") (localStorage s)) s).
  assert (Hname : formName s1 = formName s) by done.
  assert (Hnone : localStorage s1 !! (formName s1 ++ js "-submissions") = None).
  { rewrite Hname. apply lookup_delete_eq. }
  assert (Hload : loadable (localStorage s1 !! (formName s1 ++ js "-submissions")))
    by (by rewrite Hnone).
  assert (Hget : getSubmissionHistory s1 = JArr []).
  { unfold getSubmissionHistory. by rewrite Hnone. }
  eexists s1, _. split; [done|]. split; [done|].
  split; [by apply lookup_delete_ne, not_eq_sym, storage_keys_differ|].
  split; [by apply saveFormData_spec|].
  edestruct (saveFormData_history now data s1) as (_ & Hst & Hhist & _);
    [by apply saveFormData_spec|done|].
  rewrite Hhist, Hst. unfold stored. rewrite Hget. done.
Qed.

End sessions.

Section sessions_sample.

Lemma listeners_never_throw_witness :
  ∃ s s',
    construct (H := UTC.host) (js "cadastroForm")
      (Sample.controls [] [] [] []) Sample.containers ∅ = Some s
    ∧ handleAll (H := UTC.host)
        [(Sample.now, Input 0 (js "Ana")); (Sample.now, Blur 0);
         (Sample.now, Submit)] s = Some (tt, s')
    ∧ wf s'
    ∧ Dom.id <$> controls s' = Dom.id <$> Sample.controls [] [] [] [].
Proof.
  apply (listeners_never_throw (H := UTC.host)).
  - apply (bool_decide_unpack _). vm_compute. exact I.
  - apply (bool_decide_unpack _). vm_compute. exact I.
  - vm_compute. exact I.
  - repeat constructor; cbn; lia.
Defined.

End sessions_sample.

(** ** Loading saved data *)

Section load.

Lemma set_controls_id s : set_controls (controls s) s = s.
Proof. by destruct s. Qed.

Lemma restore_spec saved s :
  map_Forall (λ fieldId ref, Dom.id <$> controls s !! ref = Some fieldId) (fields s) →
  NoDup saved.*1 →
  restore saved s
  = Some (tt, set_controls
                (imap (restored (list_to_map saved) (fields s)) (controls s)) s).
Proof.
  revert s. induction saved as [|[k v] saved IH]; intros s Hfs Hnd.
  - cbn [restore list_to_map foldr]. unfold mret, M_ret. do 2 f_equal.
    rewrite <- (set_controls_id s) at 1. f_equal.
    apply list_eq. intros i. rewrite list_lookup_imap.
    destruct (controls s !! i); [|done]. cbn. unfold restored.
    by rewrite lookup_empty.
  - rewrite fmap_cons in Hnd. apply NoDup_cons in Hnd as [Hk Hnd]. cbn [fst] in Hk.
    assert (Hnone : (list_to_map saved : gmap jsstring json) !! k = None)
      by (by apply not_elem_of_list_to_map_1).
    cbn [restore list_to_map foldr uncurry].
    cbv [mbind M_bind mret M_ret get modify lift throw].
    destruct (fields s !! k) as [ref|] eqn:Href.
    + pose proof (Hfs _ _ Href) as Hc. cbn in Hc.
      destruct (controls s !! ref) as [c|] eqn:Hcr; [|done]. injection Hc as Hid.
      set (s1 := set_controls _ s).
      rewrite (IH s1); [|..|done].
      * unfold s1. cbn [controls fields set_controls fst snd]. do 2 f_equal.
        apply (f_equal (λ cs, set_controls cs s)).
        apply list_eq. intros j. rewrite !list_lookup_imap.
        destruct (decide (j = ref)) as [->|Hj].
        -- rewrite list_lookup_insert_eq by (by eapply lookup_lt_Some).
           rewrite Hcr. cbn. unfold restored. cbn [Dom.id Dom.setValue].
           rewrite Hid, Hnone, lookup_insert_eq.
           by rewrite bool_decide_eq_true_2.
        -- rewrite list_lookup_insert_ne by done.
           destruct (controls s !! j) as [cj|]; [|done]. cbn. apply (f_equal Some).
           unfold restored. destruct (decide (Dom.id cj = k)) as [->|Hne].
           ++ rewrite Hnone, lookup_insert_eq.
              rewrite bool_decide_eq_false_2; [done|]. congruence.
           ++ by rewrite lookup_insert_ne.
      * intros fieldId r Hr. unfold s1. cbn [controls fields set_controls] in *.
        specialize (Hfs _ _ Hr). cbn in Hfs.
        destruct (decide (r = ref)) as [->|Hne].
        -- rewrite list_lookup_insert_eq by (by eapply lookup_lt_Some).
           rewrite Hcr in Hfs. done.
        -- by rewrite list_lookup_insert_ne.
    + rewrite (IH s) by done. cbn [fst snd]. do 2 f_equal.
      apply (f_equal (λ cs, set_controls cs s)).
      apply list_eq. intros j. rewrite !list_lookup_imap.
      destruct (controls s !! j) as [cj|]; [|done]. cbn. apply (f_equal Some).
      unfold restored. destruct (decide (Dom.id cj = k)) as [->|Hne].
      * rewrite Hnone, lookup_insert_eq.
        rewrite bool_decide_eq_false_2; [done|]. congruence.
      * by rewrite lookup_insert_ne.
Qed.

Lemma loadFormData_object s m :
  wf s →
  localStorage s !! (formName s ++ js "-current") = Some (JObj m) →
  loadFormData s
  = Some (tt, set_controls (imap (restored m (fields s)) (controls s)) s).
Proof.
  intros Hwf Hm. unfold loadFormData. cbv [mbind M_bind get]. rewrite Hm.
  cbn [json_truthy entries]. rewrite restore_spec.
  - by rewrite list_to_map_to_list.
  - apply (wf_fields _ Hwf).
  - apply NoDup_fst_map_to_list.
Qed.

(** X13. Loading a saved object restores by id: the control that
    [this.fields] holds for an id takes the saved property of that name,
    converted to a string; a control without such a property, or one
    shadowed by a later control of the same id, is left as it is. The
    order in which the properties are visited does not matter, and
    nothing but values changes. *)
Theorem loadFormData_restores_by_id s m :
  wf s →
  localStorage s !! (formName s ++ js "-current") = Some (JObj m) →
  ∃ cs', loadFormData s = Some (tt, set_controls cs' s)
    ∧ length cs' = length (controls s)
    ∧ ∀ ref c, controls s !! ref = Some c →
        cs' !! ref =
          Some (if bool_decide (fields s !! Dom.id c = Some ref)
                then from_option (λ v, Dom.setValue (valueString v) c) c
                                 (m !! Dom.id c)
                else c).
Proof.
  intros Hwf Hm. eexists. split; [by apply loadFormData_object|].
  split; [by rewrite length_imap|].
  intros ref c Hc. rewrite list_lookup_imap, Hc. cbn. unfold restored.
  by destruct (m !! Dom.id c), (bool_decide _).
Qed.

Lemma formData_snoc cs c :
  formData (cs ++ [c])
  = if truthy (Dom.name c) then <[Dom.name c := JStr (Dom.value c)]> (formData cs)
    else formData cs.
Proof. unfold formData. by rewrite foldl_app. Qed.

Lemma formData_lookup cs i c :
  NoDup (Dom.name <$> cs) → cs !! i = Some c → truthy (Dom.name c) = true →
  formData cs !! Dom.name c = Some (JStr (Dom.value c)).
Proof.
  revert i. induction cs as [|c' cs IH] using rev_ind; intros i Hnd Hc Ht; [done|].
  rewrite fmap_app in Hnd. apply NoDup_app in Hnd as (Hnd & Hfresh & _).
  rewrite formData_snoc.
  destruct (decide (i < length cs)) as [Hi|Hi].
  - rewrite lookup_app_l in Hc by done.
    assert (Hne : Dom.name c' ≠ Dom.name c).
    { intros Heq. apply (Hfresh (Dom.name c)).
      - apply list_elem_of_fmap. exists c. split; [done|]. by eapply list_elem_of_lookup_2.
      - cbn. rewrite Heq. apply list_elem_of_here. }
    destruct (truthy (Dom.name c')); [rewrite lookup_insert_ne by done|]; by eapply IH.
  - assert (c' = c) as ->.
    { rewrite lookup_app_r in Hc by lia.
      destruct (i - length cs) as [|n]; simpl in Hc; [congruence|done]. }
    by rewrite Ht, lookup_insert_eq.
Qed.

End load.

Section round_trip.
Context `{DateHost}.

(** X14. A submission saves the values under the controls' names and
    resets the form; loading afterwards looks the saved properties up by
    id. When every control's name is its id, ids are distinct and not
    empty, and the form is valid, submitting and then loading gives every
    control the value it had before the submission. *)
Theorem submit_then_load_round_trip now s :
  wf s →
  forallb (passes (validators s) now) (controls s) = true →
  NoDup (Dom.id <$> controls s) →
  Forall (λ c, Dom.name c = Dom.id c ∧ truthy (Dom.id c) = true) (controls s) →
  ∃ s1 s2,
    onSubmit now s = Some (tt, s1)
    ∧ loadFormData s1 = Some (tt, s2)
    ∧ Dom.value <$> controls s2 = Dom.value <$> controls s.
Proof.
  intros Hwf Hall Hnd Hnames.
  destruct (dispatch_wf now Submit s Hwf I) as (s1 & Hd & Hwf1).
  cbn [dispatch] in Hd. exists s1. pose proof Hd as Hsub.
  unfold onSubmit, mbind, M_bind in Hd.
  destruct (validateForm_spec now s Hwf) as (s0 & Hv & Hwf0 & Hval & _).
  rewrite Hv, Hall in Hd.
  destruct (validated_frame _ _ Hval) as (Hname & _ & _ & Hdata).
  apply validated_presented in Hval as Hp.
  unfold handleValidFormSubmit in Hd.
  cbv [mbind M_bind mret M_ret get modify showSuccessMessage reset] in Hd.
  rewrite saveFormData_spec in Hd by apply (wf_storage _ Hwf0).
  injection Hd as Hs1.
  assert (Hcs1 : controls s1
    = (λ c, Dom.setValue (Dom.defaultValue c) c) <$> controls s0) by (by subst s1).
  assert (Hfs1 : fields s1 = fields s).
  { subst s1. cbn. apply (same_fields _ _ Hp). }
  assert (Hcur : localStorage s1 !! (formName s1 ++ js "-current")
                 = Some (JObj (formData (controls s)))).
  { subst s1. cbn [localStorage set_errors set_controls set_alerts set_localStorage].
    rewrite <- Hdata. apply lookup_insert_eq. }
  assert (Hin : ∀ j, input <$> controls s0 !! j = input <$> controls s !! j).
  { intros j. apply (presented_lookup _ _ j Hp). }
  eexists. split; [done|].
  split; [by apply loadFormData_object|].
  cbn [controls set_controls]. apply list_eq. intros j.
  rewrite !list_lookup_fmap, list_lookup_imap, Hcs1, list_lookup_fmap.
  specialize (Hin j).
  destruct (controls s0 !! j) as [c0|] eqn:Hc0, (controls s !! j) as [c|] eqn:Hc;
    try done.
  cbn in Hin. assert (Hsame : input c0 = input c) by congruence.
  unfold input in Hsame.
  assert (Hid : Dom.id c0 = Dom.id c) by congruence.
  pose proof (proj1 (Forall_forall _ _) Hnames c (list_elem_of_lookup_2 _ _ _ Hc))
    as [Hnc Htc].
  cbn. f_equal. unfold restored. cbn [Dom.id Dom.setValue].
  rewrite Hid, <- Hnc, (formData_lookup _ j c); try done.
  - rewrite bool_decide_eq_true_2; [done|].
    rewrite Hfs1, Hnc.
    destruct (wf_control_registered s j c Hwf Hc) as [r Hr]. rewrite Hr. f_equal.
    pose proof (wf_fields _ Hwf _ _ Hr) as Hrid. cbn in Hrid.
    eapply NoDup_lookup; [exact Hnd|..].
    + rewrite list_lookup_fmap. exact Hrid.
    + by rewrite list_lookup_fmap, Hc.
  - assert (Heq : Dom.name <$> controls s = Dom.id <$> controls s).
    { apply list_fmap_ext. intros ? c' Hc'%list_elem_of_lookup_2.
      by apply (proj1 (Forall_forall _ _) Hnames c'). }
    by rewrite Heq.
  - by rewrite Hnc.
Qed.

End round_trip.

Section round_trip_sample.

Lemma submit_then_load_round_trip_witness :
  ∃ s1 s2,
    onSubmit (H := UTC.host) Sample.now Sample.filled = Some (tt, s1)
    ∧ loadFormData s1 = Some (tt, s2)
    ∧ Dom.value <$> controls s2 = Dom.value <$> controls Sample.filled.
Proof.
  apply (submit_then_load_round_trip (H := UTC.host) Sample.now Sample.filled).
  - apply (bool_decide_unpack _). vm_compute. exact I.
  - vm_compute. reflexivity.
  - apply (bool_decide_unpack _). vm_compute. exact I.
  - apply (bool_decide_unpack _). vm_compute. exact I.
Defined.

Lemma loadFormData_restores_by_id_witness :
  ∃ cs', loadFormData saved = Some (tt, set_controls cs' saved)
    ∧ length cs' = 4.
Proof.
  destruct (loadFormData_restores_by_id saved {[js "nome" := JStr (js "Ana")]})
    as (cs' & Hl & Hlen & _).
  - apply (bool_decide_unpack _). vm_compute. exact I.
  - vm_compute. reflexivity.
  - exists cs'. split; [exact Hl|]. rewrite Hlen. vm_compute. reflexivity.
Defined.

End round_trip_sample.

(** ** Input masks *)

Import Masks.

Section mask_facts.

Lemma digit_not_lit c l :
  is_digit c = true → is_digit l = false → (l =? c)%N = false.
Proof. intros Hc Hl. apply N.eqb_neq. intros ->. congruence. Qed.

Lemma strip_digits ds :
  Forall (λ c, is_digit c = true) ds → strip_non_digits ds = ds.
Proof.
  intros Hd. unfold strip_non_digits. induction Hd as [|c ds Hc _ IH]; [done|].
  by rewrite filter_cons_True, IH.
Qed.

(** Symbolic evaluation on a string of named digits. *)
Ltac name_digits H :=
  repeat match type of H with
  | Forall _ (?c :: _) =>
    let Hc := fresh "Hd" in
    apply Forall_cons in H as [Hc H];
    pose proof (digit_not_lit _ 46%N Hc eq_refl);
    pose proof (digit_not_lit _ 45%N Hc eq_refl)
  end.

Ltac rewrite_digits :=
  repeat match goal with
  | H : is_digit _ = true |- _ => progress rewrite H
  | H : (_ =? _)%N = false |- _ => progress rewrite H
  end.

Ltac literals :=
  repeat match goal with
  | |- context [js ?s] =>
    let x := eval vm_compute in (js s) in change (js s) with x
  end.

Ltac constants :=
  repeat match goal with
  | |- context [is_digit (N.pos ?p)] =>
    let b := eval vm_compute in (is_digit (N.pos p)) in
    change (is_digit (N.pos p)) with b
  | |- context [(N.pos ?p =? N.pos ?q)%N] =>
    let b := eval vm_compute in (N.pos p =? N.pos q)%N in
    change (N.pos p =? N.pos q)%N with b
  end.

Lemma strip_cons c s :
  strip_non_digits (c :: s)
  = if is_digit c then c :: strip_non_digits s else strip_non_digits s.
Proof.
  unfold strip_non_digits. destruct (is_digit c) eqn:Hc.
  - by rewrite filter_cons_True.
  - rewrite filter_cons_False; [done|]. congruence.
Qed.

Lemma run_length p k s a r : run p k s = Some (a, r) → length s = k + length r.
Proof.
  revert s a r. induction k as [|k IH]; intros s a r; cbn.
  - by intros [= _ <-].
  - destruct s as [|c s]; [done|]. destruct (p c); [|done].
    destruct (run p k s) as [[a' r']|] eqn:Hrun; [|done].
    intros [= _ <-]. cbn. by rewrite (IH _ _ _ Hrun).
Qed.

Lemma matchAt_length pat s caps rest :
  matchAt pat s = Some (caps, rest) → minLen pat ≤ length s.
Proof.
  revert s caps rest. induction pat as [|[p lo hi group|] pat IH];
    intros s caps rest; cbn [matchAt minLen].
  - lia.
  - generalize (hi - lo). intros extra. induction extra as [|extra IHe].
    + destruct (run p (lo + 0) s) as [[a r]|] eqn:Hrun; [|done].
      destruct (matchAt pat r) as [[caps' rest']|] eqn:Hm; [|done].
      intros _. apply run_length in Hrun. apply IH in Hm. lia.
    + destruct (run p (lo + S extra) s) as [[a r]|] eqn:Hrun; [|exact IHe].
      destruct (matchAt pat r) as [[caps' rest']|] eqn:Hm; [|exact IHe].
      intros _. apply run_length in Hrun. apply IH in Hm. lia.
  - destruct s; [|done]. apply IH.
Qed.

(** A string shorter than every match is left as it is. *)
Lemma replace_short pat template s :
  length s < minLen pat → replace pat template s = s.
Proof.
  induction s as [|c s IH]; intros Hlen.
  - cbn. destruct (matchAt pat []) as [[caps rest]|] eqn:Hm; [|done].
    apply matchAt_length in Hm. cbn in *. lia.
  - cbn [replace]. destruct (matchAt pat (c :: s)) as [[caps rest]|] eqn:Hm.
    + apply matchAt_length in Hm. lia.
    + rewrite IH; [done|]. cbn in Hlen. lia.
Qed.

Lemma replace_head pat template s caps rest :
  matchAt pat s = Some (caps, rest) →
  replace pat template s = expand template caps ++ rest.
Proof. intros Hm. destruct s; cbn [replace]; by rewrite Hm. Qed.

(** [s.replace(/-$/, '')] drops a final hyphen. *)
Lemma replace_final_hyphen s :
  replace [Rep (N.eqb 45) 1 1 false; AtEnd] [] s
  = match last s with
    | Some c => if (45 =? c)%N then take (length s - 1) s else s
    | None => s
    end.
Proof.
  induction s as [|c s IH]; [done|]. cbn [replace matchAt].
  cbn -[N.eqb last take]. destruct s as [|c' s].
  - cbn -[N.eqb]. by destruct (45 =? c)%N.
  - assert (Hnone : match (if (45 =? c)%N then Some ([c], c' :: s) else None) with
                    | Some (_, r) =>
                      match match r with [] => Some ([], r) | _ :: _ => None end with
                      | Some (caps, rest) => Some (caps, rest)
                      | None => None
                      end
                    | None => None
                    end = (None : option (list jsstring * jsstring)))
      by (by destruct (45 =? c)%N).
    rewrite Hnone, IH. clear. rewrite last_cons_cons.
    destruct (last (c' :: s)) as [l|] eqn:Hl; [|done].
    destruct (45 =? l)%N; [|done].
    cbn [length]. by rewrite !Nat.sub_succ, !Nat.sub_0_r.
Qed.

#[local] Arguments replace : simpl never.

Ltac match_head :=
  lazy -[is_digit N.eqb];
  repeat (rewrite_digits; constants; lazy -[is_digit N.eqb]);
  reflexivity.

Ltac step :=
  match goal with
  | |- context [replace ?p ?t ?s] =>
    lazymatch s with
    | context [replace] => fail
    | _ =>
      first [ rewrite (replace_short p t s) by (cbn; lia)
            | rewrite (replace_final_hyphen s)
            | erewrite (replace_head p t s) by match_head ]
    end
  end;
  cbn -[is_digit N.eqb strip_non_digits]; rewrite_digits; constants;
  cbn -[is_digit N.eqb strip_non_digits].

Ltac strip_all :=
  repeat (rewrite strip_cons; rewrite_digits; constants); try reflexivity.

Lemma maskCpf_short ds :
  Forall (λ c, is_digit c = true) ds → length ds ≤ 11 →
  strip_non_digits (maskCpf ds) = ds.
Proof.
  intros Hd Hlen.
  do 12 (destruct ds as [|? ds];
         [by name_digits Hd; unfold maskCpf, d, lit; literals;
             cbn -[is_digit N.eqb strip_non_digits]; repeat step; strip_all|]).
  cbn in Hlen. lia.
Qed.

Lemma maskTelefone_short ds :
  Forall (λ c, is_digit c = true) ds → length ds ≤ 11 →
  strip_non_digits (maskTelefone ds) = ds.
Proof.
  intros Hd Hlen.
  do 12 (destruct ds as [|? ds];
         [by name_digits Hd; unfold maskTelefone, d, lit; literals;
             cbn -[is_digit N.eqb strip_non_digits]; repeat step; strip_all|]).
  cbn in Hlen. lia.
Qed.

Lemma maskCep_short ds :
  Forall (λ c, is_digit c = true) ds → length ds ≤ 8 →
  strip_non_digits (maskCep ds) = ds.
Proof.
  intros Hd Hlen.
  do 9 (destruct ds as [|? ds];
        [by name_digits Hd; unfold maskCep, d, lit; literals;
            cbn -[is_digit N.eqb strip_non_digits]; repeat step; strip_all|]).
  cbn in Hlen. lia.
Qed.

(** Each mask reads at most its first [n] digits. *)
Lemma cut_take (n : nat) (v : jsstring) :
  (if (n <? length v)%nat then slice0 n v else v) = take n v.
Proof.
  unfold slice0. destruct (n <? length v)%nat eqn:Hn; [done|].
  apply Nat.ltb_ge in Hn. by rewrite take_ge.
Qed.

Lemma cut_cut (n : nat) (v : jsstring) :
  (if (n <? length (take n v))%nat then slice0 n (take n v) else take n v)
  = take n v.
Proof. by rewrite cut_take, take_take, Nat.min_id. Qed.

Lemma maskCpf_take v : maskCpf v = maskCpf (take 11 v).
Proof. unfold maskCpf. by rewrite cut_cut, cut_take. Qed.

Lemma maskTelefone_take v : maskTelefone v = maskTelefone (take 11 v).
Proof. unfold maskTelefone. by rewrite cut_cut, cut_take. Qed.

Lemma maskCep_take v : maskCep v = maskCep (take 8 v).
Proof. unfold maskCep. by rewrite cut_cut, cut_take. Qed.

Lemma onInput_cpf value : onInput (js "cpf") value = maskCpf (strip_non_digits value).
Proof. done. Qed.

Lemma onInput_telefone value :
  onInput (js "telefone") value = maskTelefone (strip_non_digits value).
Proof. done. Qed.

Lemma onInput_cep value : onInput (js "cep") value = maskCep (strip_non_digits value).
Proof. done. Qed.

Lemma onInput_other id value :
  id ∉ [js "cpf"; js "telefone"; js "cep"] → onInput id value = value.
Proof. intros Hid. unfold onInput. by rewrite bool_decide_eq_false_2. Qed.

(** The digits of a masked value, for a field of the three. *)
Lemma onInput_digits id value :
  id ∈ [js "cpf"; js "telefone"; js "cep"] →
  strip_non_digits (onInput id value) = take (limit id) (strip_non_digits value).
Proof.
  intros Hid. pose proof (strip_non_digits_digits value) as Hd.
  assert (Hcut : ∀ n, Forall (λ c, is_digit c = true) (take n (strip_non_digits value))
                      ∧ length (take n (strip_non_digits value)) ≤ n).
  { intros n. split; [by apply Forall_take|]. rewrite length_take. lia. }
  rewrite !elem_of_cons in Hid. destruct Hid as [->|[->|[->|Hid]]].
  - rewrite onInput_cpf, maskCpf_take. by apply maskCpf_short; apply Hcut.
  - rewrite onInput_telefone, maskTelefone_take.
    by apply maskTelefone_short; apply Hcut.
  - rewrite onInput_cep, maskCep_take. by apply maskCep_short; apply Hcut.
  - by apply elem_of_nil in Hid.
Qed.

Lemma onInput_empty id value :
  id ∈ [js "cpf"; js "telefone"; js "cep"] →
  onInput id value = [] ↔ strip_non_digits value = [].
Proof.
  intros Hid. pose proof (onInput_digits id value Hid) as Hd. split.
  - intros Hnil. rewrite Hnil in Hd. cbn in Hd.
    destruct (strip_non_digits value) as [|c l]; [done|].
    unfold limit in Hd. by case_bool_decide.
  - intros Hnil. rewrite !elem_of_cons in Hid.
    destruct Hid as [->|[->|[->|Hid]]]; [..|by apply elem_of_nil in Hid].
    + by rewrite onInput_cpf, Hnil.
    + by rewrite onInput_telefone, Hnil.
    + by rewrite onInput_cep, Hnil.
Qed.

(** X15. The mask keeps the digits of the typed value, in order, up to
    the field's limit (eleven, or eight for the postal code), and adds
    only separators; it leaves the field empty exactly when the typed
    value holds no digit. *)
Theorem mask_keeps_digits id value :
  id ∈ [js "cpf"; js "telefone"; js "cep"] →
  strip_non_digits (onInput id value) = take (limit id) (strip_non_digits value)
  ∧ (onInput id value = [] ↔ strip_non_digits value = []).
Proof.
  intros Hid. split; [by apply onInput_digits|by apply onInput_empty].
Qed.

Lemma mask_keeps_digits_witness :
  strip_non_digits (onInput (js "cep") (js "01310-100 x 99"))
  = take (limit (js "cep")) (strip_non_digits (js "01310-100 x 99"))
  ∧ (onInput (js "cep") (js "01310-100 x 99") = []
     ↔ strip_non_digits (js "01310-100 x 99") = []).
Proof.
  apply (mask_keeps_digits (js "cep") (js "01310-100 x 99")).
  apply (bool_decide_unpack _). vm_compute. exact I.
Defined.

(** X16. Masking is idempotent: an input event on an already masked value
    changes nothing. *)
Theorem mask_idempotent id value :
  onInput id (onInput id value) = onInput id value.
Proof.
  destruct (decide (id ∈ [js "cpf"; js "telefone"; js "cep"])) as [Hid|Hid];
    [|by rewrite !onInput_other].
  pose proof (onInput_digits id value Hid) as Hd.
  rewrite !elem_of_cons in Hid.
  destruct Hid as [->|[->|[->|Hid]]]; [..|by apply elem_of_nil in Hid].
  - rewrite (onInput_cpf (onInput _ _)), Hd, !onInput_cpf.
    by rewrite <- maskCpf_take.
  - rewrite (onInput_telefone (onInput _ _)), Hd, !onInput_telefone.
    by rewrite <- maskTelefone_take.
  - rewrite (onInput_cep (onInput _ _)), Hd, !onInput_cep.
    by rewrite <- maskCep_take.
Qed.

(** X17. The shape of a complete entry: eleven digits of an identifier
    become [ddd.ddd.ddd-dd], ten and eleven digits of a telephone number
    [(dd) dddd-dddd] and [(dd) ddddd-dddd], eight digits of a postal code
    [ddddd-ddd]. *)
Theorem mask_complete_entry ds :
  Forall (λ c, is_digit c = true) ds →
  (length ds = 11 →
   onInput (js "cpf") ds
   = take 3 ds ++ js "." ++ take 3 (drop 3 ds) ++ js "." ++ take 3 (drop 6 ds)
     ++ js "-" ++ drop 9 ds)
  ∧ (length ds = 10 →
     onInput (js "telefone") ds
     = js "(" ++ take 2 ds ++ js ") " ++ take 4 (drop 2 ds) ++ js "-" ++ drop 6 ds)
  ∧ (length ds = 11 →
     onInput (js "telefone") ds
     = js "(" ++ take 2 ds ++ js ") " ++ take 5 (drop 2 ds) ++ js "-" ++ drop 7 ds)
  ∧ (length ds = 8 →
     onInput (js "cep") ds = take 5 ds ++ js "-" ++ drop 5 ds).
Proof.
  intros Hd.
  rewrite onInput_cpf, onInput_telefone, onInput_cep, (strip_digits ds Hd).
  repeat split; intros Hlen.
  - do 11 (destruct ds as [|? ds]; [done|]). destruct ds; [|done].
    name_digits Hd. unfold maskCpf, d, lit. literals.
    cbn -[is_digit N.eqb strip_non_digits]. by repeat step.
  - do 10 (destruct ds as [|? ds]; [done|]). destruct ds; [|done].
    name_digits Hd. unfold maskTelefone, d, lit. literals.
    cbn -[is_digit N.eqb strip_non_digits]. by repeat step.
  - do 11 (destruct ds as [|? ds]; [done|]). destruct ds; [|done].
    name_digits Hd. unfold maskTelefone, d, lit. literals.
    cbn -[is_digit N.eqb strip_non_digits]. by repeat step.
  - do 8 (destruct ds as [|? ds]; [done|]). destruct ds; [|done].
    name_digits Hd. unfold maskCep, d, lit. literals.
    cbn -[is_digit N.eqb strip_non_digits]. by repeat step.
Qed.

Lemma mask_complete_entry_witness :
  onInput (js "cpf") (js "52998224725") = js "529.982.247-25".
Proof.
  destruct (mask_complete_entry (js "52998224725")) as (Hcpf & _).
  - apply (bool_decide_unpack _). vm_compute. exact I.
  - rewrite Hcpf by reflexivity. vm_compute. reflexivity.
Defined.

(** The three rules read a value through its emptiness and its digits. *)
Lemma rules_read_digits now x y arg :
  truthy x = truthy y → strip_non_digits x = strip_non_digits y →
  cpf now x arg = cpf now y arg
  ∧ telefone now x arg = telefone now y arg
  ∧ cep now x arg = cep now y arg.
Proof. intros Ht Hs. unfold cpf, telefone, cep. by rewrite Ht, Hs. Qed.

Lemma masked_reads id value :
  id ∈ [js "cpf"; js "telefone"; js "cep"] →
  truthy (onInput id value) = truthy (take (limit id) (strip_non_digits value))
  ∧ strip_non_digits (onInput id value)
    = strip_non_digits (take (limit id) (strip_non_digits value)).
Proof.
  intros Hid. split.
  - pose proof (onInput_empty id value Hid) as He.
    destruct (onInput id value) as [|c v].
    + by rewrite (proj1 He eq_refl), take_nil.
    + destruct (strip_non_digits value) as [|c' l];
        [by pose proof (proj2 He eq_refl)|].
      unfold limit. by case_bool_decide.
  - rewrite (onInput_digits id value Hid), (strip_digits (take _ _)); [done|].
    apply Forall_take, strip_non_digits_digits.
Qed.

(** X18. A rule applied to the masked value gives what it gives on the
    first digits of the typed value: separators and anything that is not
    a digit play no part, and digits beyond the limit are not seen. *)
Theorem masked_value_validates_as_digits now value arg :
  cpf now (onInput (js "cpf") value) arg
  = cpf now (take 11 (strip_non_digits value)) arg
  ∧ telefone now (onInput (js "telefone") value) arg
    = telefone now (take 11 (strip_non_digits value)) arg
  ∧ cep now (onInput (js "cep") value) arg
    = cep now (take 8 (strip_non_digits value)) arg.
Proof.
  split; [|split].
  - destruct (masked_reads (js "cpf") value) as [Ht Hs]; [by repeat constructor|].
    by destruct (rules_read_digits now _ _ arg Ht Hs) as (? & _).
  - destruct (masked_reads (js "telefone") value) as [Ht Hs];
      [by repeat constructor|].
    by destruct (rules_read_digits now _ _ arg Ht Hs) as (_ & ? & _).
  - destruct (masked_reads (js "cep") value) as [Ht Hs]; [by repeat constructor|].
    by destruct (rules_read_digits now _ _ arg Ht Hs) as (_ & _ & ?).
Qed.

(** X19. Behind the mask the two length rules can only fail for too few
    digits: the telephone rule accepts the masked value exactly when the
    typed value holds no digit or at least ten, the postal-code rule
    exactly when it holds none or at least eight. *)
Theorem masked_length_rules now value arg :
  (telefone now (onInput (js "telefone") value) arg = None
   ↔ strip_non_digits value = [] ∨ 10 ≤ length (strip_non_digits value))
  ∧ (cep now (onInput (js "cep") value) arg = None
     ↔ strip_non_digits value = [] ∨ 8 ≤ length (strip_non_digits value)).
Proof.
  split.
  - destruct (masked_reads (js "telefone") value) as [Ht Hs];
      [by repeat constructor|].
    destruct (rules_read_digits now _ _ arg Ht Hs) as (_ & -> & _).
    change (limit (js "telefone")) with 11. unfold telefone.
    rewrite (strip_digits (take _ _)) by apply Forall_take, strip_non_digits_digits.
    rewrite length_take. destruct (strip_non_digits value) as [|c l]; [by split; auto|].
    cbn [take truthy negb length].
    destruct (_ <? 10)%nat eqn:H10; cbn [orb].
    + apply Nat.ltb_lt in H10. split; [done|]. intros [?|?]; [done|lia].
    + apply Nat.ltb_ge in H10.
      destruct (11 <? _)%nat eqn:H11; [apply Nat.ltb_lt in H11; lia|].
      split; [|done]. intros _. right. lia.
  - destruct (masked_reads (js "cep") value) as [Ht Hs]; [by repeat constructor|].
    destruct (rules_read_digits now _ _ arg Ht Hs) as (_ & _ & ->).
    change (limit (js "cep")) with 8. unfold cep.
    rewrite (strip_digits (take _ _)) by apply Forall_take, strip_non_digits_digits.
    rewrite length_take. destruct (strip_non_digits value) as [|c l]; [by split; auto|].
    cbn [take truthy negb length].
    destruct (_ =? 8)%nat eqn:H8; cbn [negb].
    + apply Nat.eqb_eq in H8. split; [|done]. intros _. right. lia.
    + apply Nat.eqb_neq in H8. split; [done|]. intros [?|?]; [done|lia].
Qed.

End mask_facts.

(** ** Templates *)

Import Templates.

Section template_facts.

Lemma interpolate_skip d k s : interpolate d k s = interpolate d 0 (drop k s).
Proof.
  revert k. induction s as [|c s IH]; intros [|k]; try done. cbn. apply IH.
Qed.

Lemma placeholder_length s key len :
  placeholder s = Some (key, len) → len = 4 + length key.
Proof.
  unfold placeholder. destruct s as [|o1 [|o2 s]]; try done.
  destruct (_ && _); [|done].
  destruct (word s) as [[|c w] [|c1 [|c2 r]]]; try done.
  destruct (_ && _); [|done]. by intros [= <- <-].
Qed.

Lemma interpolate_match d c s key len :
  placeholder (c :: s) = Some (key, len) →
  interpolate d 0 (c :: s)
  = default (take len (c :: s)) (d key) ++ interpolate d 0 (drop len (c :: s)).
Proof.
  intros Hp. cbn [interpolate]. rewrite Hp, interpolate_skip.
  apply placeholder_length in Hp as ->.
  by replace (4 + length key - 1) with (3 + length key) by lia.
Qed.

Lemma interpolate_unbound_upto d n s :
  (∀ key, d key = None) → length s ≤ n → interpolate d 0 s = s.
Proof.
  intros Hd. revert s. induction n as [|n IH]; intros [|c s] Hlen;
    try done; [cbn in Hlen; lia|].
  destruct (placeholder (c :: s)) as [[key len]|] eqn:Hp.
  - rewrite (interpolate_match _ _ _ _ _ Hp), Hd. cbn [default].
    pose proof (placeholder_length _ _ _ Hp) as ->.
    rewrite IH; [apply take_drop|]. cbn [length drop Nat.add] in *.
    rewrite length_drop. lia.
  - cbn [interpolate]. rewrite Hp, IH; [done|]. cbn in Hlen. lia.
Qed.

Lemma interpolate_text d pre s :
  Forall (λ c, c ≠ 123%N) pre →
  interpolate d 0 (pre ++ s) = pre ++ interpolate d 0 s.
Proof.
  induction 1 as [|c pre Hc _ IH]; [done|]. cbn [app interpolate].
  assert (Hp : placeholder (c :: pre ++ s) = None).
  { unfold placeholder. destruct (pre ++ s); [done|].
    apply N.eqb_neq in Hc. by rewrite Hc. }
  by rewrite Hp, IH.
Qed.

Lemma word_key key rest :
  Forall (λ c, is_word c = true) key →
  word (key ++ 125%N :: rest) = (key, 125%N :: rest).
Proof.
  induction 1 as [|c key Hc _ IH]; [done|]. cbn [app word].
  by rewrite Hc, IH.
Qed.

Lemma placeholder_key key post :
  key ≠ [] → Forall (λ c, is_word c = true) key →
  placeholder (js "{{" ++ key ++ js "}}" ++ post) = Some (key, 4 + length key).
Proof.
  intros Hne Hkey. change (js "{{") with [123%N; 123%N].
  change (js "}}") with [125%N; 125%N]. cbn [app placeholder].
  rewrite N.eqb_refl. cbn [andb]. rewrite (word_key key (125%N :: post) Hkey).
  destruct key as [|c key]; [done|]. by rewrite N.eqb_refl.
Qed.

Lemma interpolate_first d pre key post :
  Forall (λ c, c ≠ 123%N) pre →
  key ≠ [] → Forall (λ c, is_word c = true) key →
  interpolate d 0 (pre ++ js "{{" ++ key ++ js "}}" ++ post)
  = pre ++ default (js "{{" ++ key ++ js "}}") (d key) ++ interpolate d 0 post.
Proof.
  intros Hpre Hne Hkey. rewrite interpolate_text by done. f_equal.
  pose proof (placeholder_key key post Hne Hkey) as Hp.
  change (js "{{") with [123%N; 123%N] in *.
  change (js "}}") with [125%N; 125%N] in *. cbn [app] in *.
  rewrite (interpolate_match _ _ _ _ _ Hp).
  assert (Hsplit : ∀ (rest : jsstring),
    123%N :: 123%N :: key ++ 125%N :: 125%N :: rest
    = (123%N :: 123%N :: key ++ [125%N; 125%N]) ++ rest).
  { intros rest. cbn. by rewrite <- (assoc_L (++)). }
  rewrite Hsplit.
  assert (Hlen : length (123%N :: 123%N :: key ++ [125%N; 125%N]) = 4 + length key).
  { cbn. rewrite length_app. cbn. lia. }
  by rewrite <- Hlen, take_app_length, drop_app_length.
Qed.

(** X20. Rendering with no property defined gives the registered
    template back, every placeholder replaced by its own text; a name
    that is not registered renders to the empty string. *)
Theorem render_unbound e name d :
  (∀ key, d key = None) → render e name d = default [] (templates e !! name).
Proof.
  intros Hd. unfold render. destruct (templates e !! name) as [html|]; [|done].
  by apply (interpolate_unbound_upto d (length html)).
Qed.

Lemma render_unbound_witness :
  render (registerDefaultTemplates {| templates := ∅ |}) (js "form-field-error")
    (λ _, None)
  = default [] (templates (registerDefaultTemplates {| templates := ∅ |})
                  !! js "form-field-error").
Proof. by apply render_unbound. Defined.

(** X21. Rendering a template up to its first placeholder and beyond:
    the text before the placeholder (which holds no opening brace) is
    copied, the placeholder gives way to the property of its key as it
    is, and the search goes on after the placeholder, so the inserted
    text is neither searched for placeholders nor escaped; an undefined
    property leaves the placeholder in place. A registration under the
    same name replaces the template rendered. *)
Theorem render_first_placeholder e name d pre key post :
  Forall (λ c, c ≠ 123%N) pre →
  key ≠ [] → Forall (λ c, is_word c = true) key →
  render (registerTemplate name (pre ++ js "{{" ++ key ++ js "}}" ++ post) e) name d
  = pre ++ default (js "{{" ++ key ++ js "}}") (d key) ++ interpolate d 0 post.
Proof.
  intros Hpre Hne Hkey. unfold render, registerTemplate. cbn [templates].
  rewrite lookup_insert_eq. by apply interpolate_first.
Qed.

Lemma render_first_placeholder_witness :
  render (registerTemplate (js "error-message") errorMessage {| templates := ∅ |})
    (js "error-message") (λ _, Some (js "<b>{{x}}</b>"))
  = before errorMessage ++ js "<b>{{x}}</b>" ++ after.
Proof.
  assert (Hshape : errorMessage
    = before errorMessage ++ js "{{" ++ js "message" ++ js "}}" ++ after)
    by (vm_compute; reflexivity).
  rewrite Hshape at 1.
  rewrite (render_first_placeholder _ _ _ (before errorMessage) (js "message") after).
  - vm_compute. reflexivity.
  - apply (bool_decide_unpack _). vm_compute. exact I.
  - vm_compute. discriminate.
  - apply (bool_decide_unpack _). vm_compute. exact I.
Defined.

End template_facts.

(** ** Page switching *)

Import Spa.

Section spa_facts.

Lemma loadPage_inv path pushState s : inv s → inv (loadPage path pushState s).
Proof.
  intros [Hcur Hreg Hsub]. unfold loadPage.
  destruct (pages s !! path) as [content|] eqn:Hp; [|done].
  split; cbn.
  - by rewrite last_snoc.
  - apply Forall_app. split; [done|]. apply Forall_singleton. by rewrite Hp.
  - destruct pushState.
    + by apply sublist_app.
    + by apply sublist_inserts_r.
Qed.

Lemma handle_inv e s : inv s → inv (handle e s).
Proof.
  intros Hinv. destruct e as [path content|[href|]|[page|]]; cbn [handle]; try done.
  - destruct Hinv as [Hcur Hreg Hsub]. split; cbn; try done.
    eapply Forall_impl; [exact Hreg|]. intros p Hp. cbn in *.
    rewrite lookup_insert_is_Some. destruct (decide (path = p)); auto.
  - destruct (intercepted href); [|done]. apply loadPage_inv.
    by destruct Hinv.
  - destruct (truthy page); [|done]. by apply loadPage_inv.
Qed.

Lemma loadPage_frame path pushState s :
  prevented (loadPage path pushState s) = prevented s
  ∧ pages (loadPage path pushState s) = pages s
  ∧ (container (loadPage path pushState s) = None ↔ container s = None).
Proof.
  unfold loadPage. destruct (pages s !! path); cbn; [|done].
  split; [done|]. split; [done|]. by destruct (container s).
Qed.

Lemma run_snoc events e s : run (events ++ [e]) s = handle e (run events s).
Proof. unfold run. by rewrite foldl_app. Qed.

Lemma run_inv events s : inv s → inv (run events s).
Proof.
  intros Hs. induction events as [|e events IH] using rev_ind; [done|].
  rewrite run_snoc. by apply handle_inv.
Qed.

Lemma handle_frame e s :
  prevented (handle e s) = (if takenOver e then S (prevented s) else prevented s)
  ∧ (container (handle e s) = None ↔ container s = None).
Proof.
  destruct e as [path content|[href|]|[page|]]; cbn [handle takenOver]; try done.
  - destruct (intercepted href); [|done]. unfold navigate.
    by destruct (loadPage_frame (default [] href) true (preventDefault s))
      as (-> & _ & ->).
  - destruct (truthy page); [|done].
    by destruct (loadPage_frame page false s) as (-> & _ & ->).
Qed.

Lemma run_frame events s :
  prevented (run events s)
  = prevented s + length (filter (λ e, takenOver e = true) events)
  ∧ (container (run events s) = None ↔ container s = None).
Proof.
  induction events as [|e events [IHp IHc]] using rev_ind; [by cbn; split; [lia|]|].
  rewrite run_snoc, filter_app, length_app.
  destruct (handle_frame e (run events s)) as [-> ->]. split; [|done].
  destruct (takenOver e) eqn:He.
  - rewrite filter_cons_True by done. cbn. lia.
  - rewrite filter_cons_False by congruence. cbn. lia.
Qed.

(** X22. Whatever is registered, clicked and navigated back to: the
    current page is the page of the last [pageLoaded] event, every page
    loaded was registered, the entries pushed on the session history are
    among the pages loaded, in order (a move in the history pushes
    nothing), and the default action was prevented for exactly the
    clicks on links whose [href] is not empty and starts with none of
    [http], [#] and [mailto:]. *)
Theorem spa_invariant html events :
  let s := run events (construct html) in
  currentPage s = last (pageLoaded s)
  ∧ Forall (λ path, is_Some (pages s !! path)) (pageLoaded s)
  ∧ pushed s `sublist_of` pageLoaded s
  ∧ (container s = None ↔ html = None)
  ∧ prevented s = length (filter (λ e, takenOver e = true) events).
Proof.
  cbn zeta. destruct (run_inv events (construct html)) as [Hcur Hreg Hsub];
    [by split|].
  destruct (run_frame events (construct html)) as [Hp Hc].
  by repeat split; try apply Hc.
Qed.

Lemma run_unregistered events s :
  pages s = ∅ → Forall (λ e, registers e = false) events →
  pages (run events s) = ∅
  ∧ currentPage (run events s) = currentPage s
  ∧ container (run events s) = container s
  ∧ pushed (run events s) = pushed s
  ∧ pageLoaded (run events s) = pageLoaded s.
Proof.
  intros Hp. induction events as [|e events IH] using rev_ind; intros Hev; [done|].
  apply Forall_app in Hev as [Hev He]. rewrite Forall_singleton in He.
  rewrite run_snoc. destruct (IH Hev) as (Hp' & Hc & Hk & Hpu & Hl).
  assert (Hload : ∀ path push t, pages t = ∅ → loadPage path push t = t).
  { intros path push t Ht. unfold loadPage. by rewrite Ht, lookup_empty. }
  destruct e as [path content|[href|]|[page|]]; cbn [handle registers] in *;
    try done.
  - destruct (intercepted href); [|done]. unfold navigate. by rewrite Hload.
  - destruct (truthy page); [|done]. by rewrite Hload.
Qed.

(** X23. While no page is registered every link the listener takes over
    is dead: the click's default action is prevented and nothing is
    loaded, shown or pushed. *)
Theorem unregistered_links_are_dead html events :
  Forall (λ e, registers e = false) events →
  let s := run events (construct html) in
  currentPage s = None ∧ container s = html ∧ pushed s = [] ∧ pageLoaded s = []
  ∧ prevented s = length (filter (λ e, takenOver e = true) events).
Proof.
  intros Hev. cbn zeta.
  destruct (run_unregistered events (construct html)) as (_ & -> & -> & -> & ->);
    [done..|].
  repeat split. by destruct (run_frame events (construct html)) as [-> _].
Qed.

Lemma unregistered_links_are_dead_witness :
  let s := run [Click (Some (Some (js "sobre.html"))); PopState (Some (js "x"))]
             (construct (Some (js "<p>início</p>"))) in
  currentPage s = None ∧ container s = Some (js "<p>início</p>")
  ∧ pushed s = [] ∧ pageLoaded s = [] ∧ prevented s = 1.
Proof.
  apply (unregistered_links_are_dead (Some (js "<p>início</p>"))
           [Click (Some (Some (js "sobre.html"))); PopState (Some (js "x"))]).
  by repeat constructor.
Defined.

End spa_facts.
